(** * IPTV backend: playlist parser, manifest rewriter, metadata cache,
      media-URL extraction and the lobster fallback of [backend/src/index.js]

    The development embeds the pure parts of the Express server in Rocq.
    JavaScript strings are sequences of UTF-16 code units, so a string is a
    [list N]; every primitive of the platform the server calls
    ([trim], [split], [startsWith], [includes], regular expressions,
    [encodeURIComponent], [decodeURIComponent]) is written out on that
    representation, following ECMA-262.  What the platform provides and
    the repository does not define ([new URL], [JSON.parse], the network
    and the subprocess) enters as a parameter of the section that uses it. *)

From Stdlib Require Import NArith List Ascii String Lia Bool.
From stdpp Require Import gmap list strings.
Import ListNotations.

Open Scope N_scope.
Set Warnings "-register-all".
Set Default Proof Using "Type".

(** ** JavaScript strings *)

Module JsString.

Abbreviation jsstring := (list N).

(** A literal of the source, written as a Rocq string of ASCII characters. *)
Fixpoint js (s : string) : jsstring :=
  match s with
  | EmptyString => []
  | String a s' => N_of_ascii a :: js s'
  end.

Definition codeEq (a b : N) : bool := N.eqb a b.

Fixpoint streq (a b : jsstring) : bool :=
  match a, b with
  | [], [] => true
  | x :: a', y :: b' => N.eqb x y && streq a' b'
  | _, _ => false
  end.

(** ECMA-262 WhiteSpace and LineTerminator code units: what [trim] strips
    and what the class escape [\s] matches. *)
Definition isWhiteSpace (c : N) : bool :=
  ((9 <=? c) && (c <=? 13)) || (c =? 32) || (c =? 160) || (c =? 5760)
  || ((8192 <=? c) && (c <=? 8202)) || (c =? 8232) || (c =? 8233)
  || (c =? 8239) || (c =? 8287) || (c =? 12288) || (c =? 65279).

Fixpoint trimStart (s : jsstring) : jsstring :=
  match s with
  | c :: s' => if isWhiteSpace c then trimStart s' else s
  | [] => []
  end.

Definition trimEnd (s : jsstring) : jsstring := rev (trimStart (rev s)).

(** [String.prototype.trim] *)
Definition trim (s : jsstring) : jsstring := trimEnd (trimStart s).

(** [s.startsWith(p)] *)
Fixpoint startsWith (p s : jsstring) : bool :=
  match p, s with
  | [], _ => true
  | x :: p', y :: s' => N.eqb x y && startsWith p' s'
  | _ :: _, [] => false
  end.

(** [s.includes(p)] *)
Fixpoint includes (p s : jsstring) : bool :=
  startsWith p s ||
  match s with
  | [] => false
  | _ :: s' => includes p s'
  end.

(** [s.split(/\r?\n/)]: the separator is a line feed together with the
    carriage return that immediately precedes it, when there is one. *)
Fixpoint splitLines (s : jsstring) : list jsstring :=
  match s with
  | [] => [[]]
  | c :: s' =>
      if c =? 10 then [] :: splitLines s'
      else
        match s' with
        | d :: s'' =>
            if (c =? 13) && (d =? 10) then [] :: splitLines s''
            else match splitLines s' with
                 | l :: ls => (c :: l) :: ls
                 | [] => [[c]]
                 end
        | [] => [[c]]
        end
  end.

(** [s.split(sep)] for a separator of one code unit. *)
Fixpoint splitChar (sep : N) (s : jsstring) : list jsstring :=
  match s with
  | [] => [[]]
  | c :: s' =>
      if c =? sep then [] :: splitChar sep s'
      else match splitChar sep s' with
           | l :: ls => (c :: l) :: ls
           | [] => [[c]]
           end
  end.

(** [s.split(sep, limit)]: the full split, cut down to [limit] pieces. *)
Definition splitCharLimit (sep : N) (limit : nat) (s : jsstring) : list jsstring :=
  take limit (splitChar sep s).

(** [pieces.join(sep)] *)
Fixpoint join (sep : jsstring) (pieces : list jsstring) : jsstring :=
  match pieces with
  | [] => []
  | [p] => p
  | p :: ps => p ++ sep ++ join sep ps
  end.

(** [s.toUpperCase()] on the ASCII letters. *)
Definition upperAscii (c : N) : N :=
  if (97 <=? c) && (c <=? 122) then c - 32 else c.

Definition lowerAscii (c : N) : N :=
  if (65 <=? c) && (c <=? 90) then c + 32 else c.

End JsString.
Import JsString.

(** ** Regular expressions

    A backtracking matcher in the style of ECMA-262 (22.2.2): a pattern is
    run at an index of the input and yields the end states it can reach,
    in the order in which backtracking tries them; the head of that list
    is the match the engine reports. *)

Module RegExp.

Inductive regex : Type :=
| Eps                                       (* the empty pattern *)
| Chr (c : N)                               (* a pattern character *)
| Cls (inv : bool) (ranges : list (N * N))  (* [...] and [^...] *)
| Seq (r1 r2 : regex)
| Alt (r1 r2 : regex)
| Star (greedy : bool) (r : regex)          (* r* and r*? *)
| Group (k : nat) (r : regex)               (* the k-th capturing group *)
| Bol                                       (* ^ *)
| Eol.                                      (* $ *)

(** Derived forms. *)
Definition Opt (r : regex) : regex := Alt r Eps.                  (* r? *)
Definition Plus (greedy : bool) (r : regex) : regex := Seq r (Star greedy r).
Fixpoint Times (n : nat) (r : regex) : regex :=                   (* r{n} *)
  match n with
  | O => Eps
  | S n' => Seq r (Times n' r)
  end.
Fixpoint Lit (s : jsstring) : regex :=
  match s with
  | [] => Eps
  | c :: s' => Seq (Chr c) (Lit s')
  end.

(** [\s] as ranges of code units, see [isWhiteSpace]. *)
Definition whiteSpaceRanges : list (N * N) :=
  [(9, 13); (32, 32); (160, 160); (5760, 5760); (8192, 8202); (8232, 8233);
   (8239, 8239); (8287, 8287); (12288, 12288); (65279, 65279)].

(** Every code unit the pattern can consume is accepted by [ok], where
    [leaf] says which code units a character or a class of the pattern
    accepts. *)
Fixpoint leavesOk (leaf : regex -> N -> Prop) (ok : N -> Prop) (r : regex) : Prop :=
  match r with
  | Chr _ | Cls _ _ => forall ch, leaf r ch -> ok ch
  | Seq r1 r2 | Alt r1 r2 => leavesOk leaf ok r1 /\ leavesOk leaf ok r2
  | Star _ r' | Group _ r' => leavesOk leaf ok r'
  | Eps | Bol | Eol => True
  end.

(** A pattern without capturing groups. *)
Fixpoint groupFree (r : regex) : bool :=
  match r with
  | Group _ _ => false
  | Seq r1 r2 | Alt r1 r2 => groupFree r1 && groupFree r2
  | Star _ r' => groupFree r'
  | Eps | Chr _ | Cls _ _ | Bol | Eol => true
  end.

Record mstate : Type := MState { endIndex : nat; captures : list (nat * jsstring) }.

Definition inRanges (rs : list (N * N)) (c : N) : bool :=
  existsb (fun r => (fst r <=? c) && (c <=? snd r)) rs.

Section Matcher.
(** The flag [i] and the input string. *)
Variable ignoreCase : bool.
Variable input : jsstring.

(** Canonicalize (22.2.5.6), without the [u] flag: upper-casing of one
    code unit.  Only the ASCII letters are mapped here.  The patterns of
    this program contain ASCII characters and white space only, and
    upper-casing never turns a code unit above 127 into an ASCII one
    (the standard forbids it) nor into white space, so on these patterns
    the result of a match is the same. *)
Definition canonicalize (c : N) : N := if ignoreCase then upperAscii c else c.

Definition classMatches (inv : bool) (rs : list (N * N)) (c : N) : bool :=
  xorb inv
    (inRanges rs c
     || (ignoreCase && (inRanges rs (upperAscii c) || inRanges rs (lowerAscii c)))).

Definition substring (i j : nat) : jsstring := take (j - i)%nat (drop i input).

Definition stepChar (ok : N -> bool) (st : mstate) : list mstate :=
  match input !! endIndex st with
  | Some ch => if ok ch then [MState (S (endIndex st)) (captures st)] else []
  | None => []
  end.

(** RepeatMatcher: an iteration that consumes nothing is rejected, so at
    most [length input - endIndex st] iterations can happen and the fuel
    handed over by [rmatch] is never used up. *)
Fixpoint starLoop (step : mstate -> list mstate) (greedy : bool)
    (fuel : nat) (st : mstate) : list mstate :=
  match fuel with
  | O => [st]
  | S f =>
      let more :=
        flat_map (starLoop step greedy f)
          (List.filter (fun st1 => Nat.ltb (endIndex st) (endIndex st1)) (step st)) in
      if greedy then more ++ [st] else st :: more
  end.

Fixpoint rmatch (r : regex) (st : mstate) : list mstate :=
  match r with
  | Eps => [st]
  | Chr c => stepChar (fun ch => canonicalize c =? canonicalize ch) st
  | Cls inv rs => stepChar (classMatches inv rs) st
  | Seq r1 r2 => flat_map (rmatch r2) (rmatch r1 st)
  | Alt r1 r2 => rmatch r1 st ++ rmatch r2 st
  | Star g r' => starLoop (rmatch r') g (S (length input - endIndex st)) st
  | Group k r' =>
      map (fun st' =>
             MState (endIndex st')
               ((k, substring (endIndex st) (endIndex st')) :: captures st'))
          (rmatch r' st)
  | Bol => if Nat.eqb (endIndex st) 0 then [st] else []
  | Eol => if Nat.eqb (endIndex st) (length input) then [st] else []
  end.

(** The set of end states, as a relation: what [rmatch] enumerates. *)
Inductive Matches : regex -> mstate -> mstate -> Prop :=
| MEps st : Matches Eps st st
| MChr c st ch :
    input !! endIndex st = Some ch ->
    (canonicalize c =? canonicalize ch) = true ->
    Matches (Chr c) st (MState (S (endIndex st)) (captures st))
| MCls inv rs st ch :
    input !! endIndex st = Some ch ->
    classMatches inv rs ch = true ->
    Matches (Cls inv rs) st (MState (S (endIndex st)) (captures st))
| MSeq r1 r2 st st1 st2 :
    Matches r1 st st1 -> Matches r2 st1 st2 -> Matches (Seq r1 r2) st st2
| MAltL r1 r2 st st' : Matches r1 st st' -> Matches (Alt r1 r2) st st'
| MAltR r1 r2 st st' : Matches r2 st st' -> Matches (Alt r1 r2) st st'
| MStarDone g r st : Matches (Star g r) st st
| MStarStep g r st st1 st2 :
    Matches r st st1 -> (endIndex st < endIndex st1)%nat ->
    Matches (Star g r) st1 st2 -> Matches (Star g r) st st2
| MGroup k r st st' :
    Matches r st st' ->
    Matches (Group k r) st
      (MState (endIndex st')
         ((k, substring (endIndex st) (endIndex st')) :: captures st'))
| MBol st : endIndex st = O -> Matches Bol st st
| MEol st : endIndex st = length input -> Matches Eol st st.

(** The strings a pattern can consume, whatever the position: the
    assertions [^] and [$] consume nothing. *)
Inductive Lang : regex -> jsstring -> Prop :=
| LEps : Lang Eps []
| LChr c ch : (canonicalize c =? canonicalize ch) = true -> Lang (Chr c) [ch]
| LCls inv rs ch : classMatches inv rs ch = true -> Lang (Cls inv rs) [ch]
| LSeq r1 r2 w1 w2 : Lang r1 w1 -> Lang r2 w2 -> Lang (Seq r1 r2) (w1 ++ w2)
| LAltL r1 r2 w : Lang r1 w -> Lang (Alt r1 r2) w
| LAltR r1 r2 w : Lang r2 w -> Lang (Alt r1 r2) w
| LStarDone g r : Lang (Star g r) []
| LStarStep g r w1 w2 :
    Lang r w1 -> Lang (Star g r) w2 -> Lang (Star g r) (w1 ++ w2)
| LGroup k r w : Lang r w -> Lang (Group k r) w
| LBol : Lang Bol []
| LEol : Lang Eol [].

(** RegExpBuiltinExec: the first index from [lastIndex] on at which the
    pattern matches, with the end state backtracking reports there. *)
Fixpoint searchFrom (r : regex) (attempts : nat) (i : nat) : option (nat * mstate) :=
  match attempts with
  | O => None
  | S k =>
      match rmatch r (MState i []) with
      | st :: _ => Some (i, st)
      | [] => searchFrom r k (S i)
      end
  end.

Definition exec (r : regex) (lastIndex : nat) : option (nat * mstate) :=
  if Nat.ltb (length input) lastIndex then None
  else searchFrom r (S (length input - lastIndex)) lastIndex.

(** [regex.test(input)] of a pattern without the [g] flag. *)
Definition test (r : regex) : bool :=
  match exec r 0 with Some _ => true | None => false end.

(** [match[k]]: group 0 is the whole match. *)
Definition capture (m : nat * mstate) (k : nat) : option jsstring :=
  match k with
  | O => Some (substring (fst m) (endIndex (snd m)))
  | _ => snd <$> List.find (fun c => Nat.eqb (fst c) k) (captures (snd m))
  end.

(** [while ((match = regex.exec(text)) !== null) ...] of a pattern with
    the [g] flag: each call resumes at the end of the previous match.  A
    match that ends where the search began leaves [lastIndex] in place
    and the source loop would spin on it for ever: that is [None].  With
    more fuel than input left, the fuel itself does not run out
    ([execAll_ends]). *)
Fixpoint execAll (r : regex) (fuel : nat) (lastIndex : nat)
    : option (list (nat * mstate)) :=
  match fuel with
  | O => None
  | S f =>
      match exec r lastIndex with
      | None => Some []
      | Some m =>
          if Nat.leb (endIndex (snd m)) lastIndex then None
          else cons m <$> execAll r f (endIndex (snd m))
      end
  end.

End Matcher.

End RegExp.
Import RegExp.

(** ** Results of calls that can throw *)

Module Js.

(** The exceptions this program meets: [new Error(message)] of the source,
    and the URIError and TypeError the platform throws. *)
Inductive ErrorKind : Type := KError | KURIError | KTypeError.

Record JsError : Type := MkError { errorKind : ErrorKind; message : jsstring }.

Definition Error (message : jsstring) : JsError := MkError KError message.
Definition URIError : JsError := MkError KURIError (js "URI malformed").
Definition TypeError : JsError := MkError KTypeError (js "Invalid URL").

Inductive result (A : Type) : Type :=
| Ok (a : A)
| Throw (e : JsError).
Arguments Ok {A} a.
Arguments Throw {A} e.

#[global] Instance result_ret : MRet result := fun A a => Ok a.

#[global] Instance result_bind : MBind result := fun A B f x =>
  match x with
  | Ok a => f a
  | Throw e => Throw e
  end.

(** [xs.map(f)] with a callback that may throw: the first exception ends
    the traversal. *)
Fixpoint mapResult {A B : Type} (f : A -> result B) (xs : list A) : result (list B) :=
  match xs with
  | [] => Ok []
  | x :: xs' => y ← f x; ys ← mapResult f xs'; Ok (y :: ys)
  end.

Definition ofOption {A : Type} (e : JsError) (o : option A) : result A :=
  match o with
  | Some a => Ok a
  | None => Throw e
  end.

End Js.
Import Js.

(** ** [encodeURIComponent] and [decodeURIComponent] (ECMA-262 19.2.6) *)

Module URI.

Definition isAlnum (c : N) : bool :=
  ((48 <=? c) && (c <=? 57)) || ((65 <=? c) && (c <=? 90)) || ((97 <=? c) && (c <=? 122)).

(** uriUnreserved: letters, digits and [-_.!~*'()]. *)
Definition isUnreserved (c : N) : bool :=
  isAlnum c
  || existsb (N.eqb c) (js "-_.!~*'()").

Definition isHighSurrogate (c : N) : bool := (55296 <=? c) && (c <=? 56319).
Definition isLowSurrogate (c : N) : bool := (56320 <=? c) && (c <=? 57343).

(** Upper-case hexadecimal digit of a value below 16. *)
Definition hexDigit (n : N) : N := if n <? 10 then 48 + n else 55 + n.

Definition hexValue (c : N) : option N :=
  if (48 <=? c) && (c <=? 57) then Some (c - 48)
  else if (65 <=? c) && (c <=? 70) then Some (c - 55)
  else if (97 <=? c) && (c <=? 102) then Some (c - 87)
  else None.

Definition percentOctet (b : N) : jsstring := [37; hexDigit (b / 16); hexDigit (b mod 16)].

(** The UTF-8 octets of a code point. *)
Definition utf8Encode (cp : N) : list N :=
  if cp <? 128 then [cp]
  else if cp <? 2048 then [192 + cp / 64; 128 + cp mod 64]
  else if cp <? 65536 then [224 + cp / 4096; 128 + (cp / 64) mod 64; 128 + cp mod 64]
  else [240 + cp / 262144; 128 + (cp / 4096) mod 64; 128 + (cp / 64) mod 64;
        128 + cp mod 64].

(** UTF16SurrogatePairToCodePoint and UTF16EncodeCodePoint. *)
Definition pairToCodePoint (hi lo : N) : N := (hi - 55296) * 1024 + (lo - 56320) + 65536.

Definition utf16Encode (cp : N) : jsstring :=
  if cp <? 65536 then [cp]
  else [55296 + (cp - 65536) / 1024; 56320 + (cp - 65536) mod 1024].

Definition escapeCodePoint (cp : N) : jsstring := flat_map percentOctet (utf8Encode cp).

Definition isCodeUnit (c : N) : bool := c <? 65536.

(** Encode(string, unreservedSet): an unpaired surrogate throws a
    URIError, which is [None] here.  The elements of a string are 16-bit
    code units; a list that holds a larger number stands for no string and
    has no encoding. *)
Fixpoint encode (unreserved : N -> bool) (s : jsstring) : option jsstring :=
  match s with
  | [] => Some []
  | c :: s' =>
      if unreserved c then cons c <$> encode unreserved s'
      else if isLowSurrogate c then None
      else if isHighSurrogate c then
        match s' with
        | d :: s'' =>
            if isLowSurrogate d
            then app (escapeCodePoint (pairToCodePoint c d)) <$> encode unreserved s''
            else None
        | [] => None
        end
      else if isCodeUnit c then app (escapeCodePoint c) <$> encode unreserved s'
      else None
  end.

Definition encodeURIComponent (s : jsstring) : result jsstring :=
  ofOption URIError (encode isUnreserved s).

(** The number of leading 1 bits of an octet (5 stands for five or more). *)
Definition leadingOnes (b : N) : nat :=
  if b <? 128 then 0 else if b <? 192 then 1 else if b <? 224 then 2
  else if b <? 240 then 3 else if b <? 248 then 4 else 5.

Definition isContinuation (b : N) : bool := (128 <=? b) && (b <? 192).

(** The code point of a well-formed UTF-8 sequence of two to four octets
    (no overlong form, no surrogate, nothing above U+10FFFF). *)
Definition utf8Decode (octets : list N) : option N :=
  match octets with
  | [b0; b1] =>
      let cp := (b0 - 192) * 64 + (b1 - 128) in
      if isContinuation b1 && (128 <=? cp) then Some cp else None
  | [b0; b1; b2] =>
      let cp := (b0 - 224) * 4096 + (b1 - 128) * 64 + (b2 - 128) in
      if isContinuation b1 && isContinuation b2 && (2048 <=? cp)
         && negb ((55296 <=? cp) && (cp <=? 57343))
      then Some cp else None
  | [b0; b1; b2; b3] =>
      let cp := (b0 - 240) * 262144 + (b1 - 128) * 4096 + (b2 - 128) * 64 + (b3 - 128) in
      if isContinuation b1 && isContinuation b2 && isContinuation b3
         && (65536 <=? cp) && (cp <=? 1114111)
      then Some cp else None
  | _ => None
  end.

(** ParseHexOctet on the two code units after a percent sign. *)
Definition parseHexOctet (h1 h2 : N) : option N :=
  match hexValue h1, hexValue h2 with
  | Some a, Some b => Some (16 * a + b)
  | _, _ => None
  end.

(** The [n] escaped continuation octets that follow the first one. *)
Fixpoint readContinuation (n : nat) (s : jsstring) : option (list N * jsstring) :=
  match n with
  | O => Some ([], s)
  | S n' =>
      match s with
      | 37 :: h1 :: h2 :: rest =>
          match parseHexOctet h1 h2 with
          | Some b =>
              match readContinuation n' rest with
              | Some (bs, rest') => Some (b :: bs, rest')
              | None => None
              end
          | None => None
          end
      | _ => None
      end
  end.

(** Decode(string, reservedSet) with the empty reserved set of
    [decodeURIComponent].  Every turn of the loop consumes at least one
    code unit, so [length s] turns are enough; [None] is a URIError. *)
Fixpoint decodeLoop (fuel : nat) (s : jsstring) : option jsstring :=
  match s with
  | [] => Some []
  | c :: s' =>
      match fuel with
      | O => None
      | S f =>
          if c =? 37 then
            match s' with
            | h1 :: h2 :: rest =>
                match parseHexOctet h1 h2 with
                | None => None
                | Some b =>
                    match leadingOnes b with
                    | O => cons b <$> decodeLoop f rest
                    | 1%nat => None
                    | S (S (S (S (S _)))) => None
                    | S n' =>
                        match readContinuation n' rest with
                        | None => None
                        | Some (bs, rest') =>
                            match utf8Decode (b :: bs) with
                            | None => None
                            | Some cp => app (utf16Encode cp) <$> decodeLoop f rest'
                            end
                        end
                    end
                end
            | _ => None
            end
          else cons c <$> decodeLoop f s'
      end
  end.

Definition decodeURIComponent (s : jsstring) : result jsstring :=
  ofOption URIError (decodeLoop (length s) s).

(** The query string of a request target and the decoded value of one of
    its parameters, as the server's query parser hands it to a handler in
    [req.query]: the text after the first [?] up to a [#], cut at every
    [&], each piece cut at its first [=], [+] read as a space, then
    percent-decoded. *)
Fixpoint afterFirst (sep : N) (s : jsstring) : option jsstring :=
  match s with
  | [] => None
  | c :: s' => if c =? sep then Some s' else afterFirst sep s'
  end.

Fixpoint beforeFirst (sep : N) (s : jsstring) : jsstring :=
  match s with
  | [] => []
  | c :: s' => if c =? sep then [] else c :: beforeFirst sep s'
  end.

Definition plusToSpace (s : jsstring) : jsstring :=
  map (fun c => if c =? 43 then 32 else c) s.

Fixpoint findParam (name : jsstring) (pieces : list jsstring) : option (result jsstring) :=
  match pieces with
  | [] => None
  | p :: ps =>
      if streq (beforeFirst 61 p) name
      then Some (decodeURIComponent (plusToSpace (default [] (afterFirst 61 p))))
      else findParam name ps
  end.

Definition queryParam (name : jsstring) (target : jsstring) : option (result jsstring) :=
  match afterFirst 63 target with
  | None => None
  | Some q => findParam name (splitChar 38 (beforeFirst 35 q))
  end.

End URI.
Import URI.

(** ** The server, [backend/src/index.js] *)

Definition CACHE_TTL_MS : Z := (60 * 1000)%Z.

(** *** Media URLs in free text *)

(** The class of the pattern: any code unit but white space, the two
    quotes and the angle brackets. *)
Definition mediaUrlChar : regex :=
  Cls true (whiteSpaceRanges ++ [(34, 34); (39, 39); (60, 60); (62, 62)]).

(** [(?:m3u8?|mp4|mov|mkv|avi|flv|mpd|webm|ts)] *)
Definition mediaExtension : regex :=
  Alt (Seq (Lit (js "m3u")) (Opt (Chr 56)))
  (Alt (Lit (js "mp4"))
  (Alt (Lit (js "mov"))
  (Alt (Lit (js "mkv"))
  (Alt (Lit (js "avi"))
  (Alt (Lit (js "flv"))
  (Alt (Lit (js "mpd"))
  (Alt (Lit (js "webm"))
       (Lit (js "ts"))))))))).

(** The pattern of [collectUrls], flags [g] and [i]; with [C] for the class
    above, its one group holds [https?:\/\/C+?(?:m3u8?|mp4|...|ts)C*]. *)
Definition mediaUrlRegex : regex :=
  Group 1
    (Seq (Lit (js "http"))
    (Seq (Opt (Chr 115))
    (Seq (Lit (js "://"))
    (Seq (Plus false mediaUrlChar)
    (Seq mediaExtension
         (Star true mediaUrlChar)))))).

(** [matches.add(x)] on a [Set] kept in insertion order. *)
Definition setAdd (seen : list jsstring) (x : jsstring) : list jsstring :=
  if existsb (streq x) seen then seen else seen ++ [x].

(** The [exec] loop of [collectUrls] ends for every text
    ([collectUrls_loop_ends]); the [None] branch is never taken. *)
Definition collectUrls (text : jsstring) : list jsstring :=
  match text with
  | [] => []
  | _ =>
      match execAll true text mediaUrlRegex (S (length text)) 0 with
      | Some ms => fold_left setAdd (omap (fun m => capture text m 1) ms) []
      | None => []
      end
  end.

(** *** JSON found in subprocess output *)

Section Json.
(** JSON numbers are the platform's doubles; only whether one is truthy
    (neither zero nor NaN) is ever asked. *)
Variable number : Type.
Variable numberTruthy : number -> bool.

Inductive JSON : Type :=
| JNull
| JBool (b : bool)
| JNum (n : number)
| JStr (s : jsstring)
| JArr (items : list JSON)
| JObj (props : list (jsstring * JSON)).

(** [JSON.parse]; [None] is its SyntaxError. *)
Variable JSON_parse : jsstring -> option JSON.

Fixpoint indexOf (c : N) (s : jsstring) : option nat :=
  match s with
  | [] => None
  | d :: s' => if d =? c then Some O else S <$> indexOf c s'
  end.

Fixpoint lastIndexOf (c : N) (s : jsstring) : option nat :=
  match s with
  | [] => None
  | d :: s' =>
      match lastIndexOf c s' with
      | Some i => Some (S i)
      | None => if d =? c then Some O else None
      end
  end.

(** [text.slice(start, end)] for indices within the text. *)
Definition slice (start stop : nat) (s : jsstring) : jsstring :=
  take (stop - start)%nat (drop start s).

Definition parseJsonFromText (text : jsstring) : option JSON :=
  match text with
  | [] => None
  | _ =>
      match indexOf 123 text, lastIndexOf 125 text with
      | Some start, Some stop =>
          if Nat.leb stop start then None
          else JSON_parse (slice start (S stop) text)
      | _, _ => None
      end
  end.

(** The strings pushed to [collector], in order. *)
Fixpoint flattenValues (value : JSON) : list jsstring :=
  match value with
  | JStr s => [s]
  | JArr items => flat_map flattenValues items
  | JObj props => flat_map (fun kv => flattenValues (snd kv)) props
  | _ => []
  end.

Definition truthy (v : JSON) : bool :=
  match v with
  | JNull => false
  | JBool b => b
  | JNum n => numberTruthy n
  | JStr s => negb (streq s [])
  | JArr _ | JObj _ => true
  end.

(** [v.key] and [v?.key]: [None] is [undefined]. *)
Definition getProp (key : jsstring) (v : JSON) : option JSON :=
  match v with
  | JObj props => snd <$> List.find (fun kv => streq (fst kv) key) props
  | _ => None
  end.

(** [a || b] where [a] may be [undefined]. *)
Definition orElse (a b : option JSON) : option JSON :=
  match a with
  | Some v => if truthy v then a else b
  | None => b
  end.

(** *** VOD resolution: lobster with its VidSrc fallback *)

Record ResolvedTitle : Type := {
  title : JSON;
  urls : list jsstring;
  raw : jsstring
}.

(** What the process environment, the subprocess and the network answer
    during one resolution. *)
Variable TMDB_TOKEN : option jsstring.
(** [runCommand(command, args, {env, timeout})]: the captured stdout, or
    the [Error] the promise is rejected with. *)
Variable runCommand : jsstring -> list jsstring -> result jsstring.
(** [resolveWithVidsrc] after its credentials check: the TMDB search and
    the scraping of the mirrors, for a query, an episode and a type. *)
Variable vidsrcLookup : jsstring -> jsstring -> jsstring -> result ResolvedTitle.

Definition isSet (v : option jsstring) : bool :=
  match v with
  | Some (_ :: _) => true
  | _ => false
  end.

Definition tmdbHeadersOrThrow : result unit :=
  if isSet TMDB_TOKEN then Ok tt
  else Throw (Error (js "TMDB_TOKEN environment variable is not set")).

Definition resolveWithVidsrc (query episode type : jsstring) : result ResolvedTitle :=
  _ ← tmdbHeadersOrThrow; vidsrcLookup query episode type.

(** [query.replace(/\+/g, space)] *)
Definition plusesToSpaces (query : jsstring) : jsstring :=
  map (fun c => if c =? 43 then 32 else c) query.

(** [[...new Set([...urls, ...extraUrls])]] *)
Definition unionUrls (urls extraUrls : list jsstring) : list jsstring :=
  fold_left setAdd (urls ++ extraUrls) [].

Definition lobsterArgs (query : jsstring) (quality : option jsstring) : list jsstring :=
  [js "--json"]
  ++ (if isSet quality then [js "-q"; default [] quality] else [])
  ++ [query].

(** [allUrls]: the URLs found in the captured stdout itself, then those
    found in the strings of the JSON object it may hold. *)
Definition lobsterUrls (stdout : jsstring) : list jsstring :=
  let stdoutUrls := collectUrls stdout in
  let parsed := parseJsonFromText stdout in
  let collected := flat_map flattenValues (option_list parsed) in
  let extraUrls := collectUrls (join (js " ") collected) in
  unionUrls stdoutUrls extraUrls.

Definition resolveWithLobster (query : jsstring) (quality : option jsstring)
    (type : jsstring) : result ResolvedTitle :=
  let '(stdout, lastError) :=
    match runCommand (js "lobster") (lobsterArgs query quality) with
    | Ok out => (out, None)
    | Throw error => ([], Some error)
    end in
  let parsed := parseJsonFromText stdout in
  let allUrls := lobsterUrls stdout in
  match allUrls with
  | _ :: _ =>
      let fromJson :=
        p ← parsed;
        orElse (getProp (js "title") p)
          (orElse (getProp (js "name") p)
             (getProp (js "info") p ≫= getProp (js "title"))) in
      let shown := default (JStr (plusesToSpaces query)) (orElse fromJson None) in
      Ok {| title := shown; urls := allUrls; raw := stdout |}
  | [] =>
      let hasTmdb := isSet TMDB_TOKEN in
      if negb hasTmdb then
        Throw (default
                 (Error (js "lobster returned no URLs and TMDB_TOKEN is not set for the fallback resolver"))
                 lastError)
      else
        match resolveWithVidsrc query (js "1") type with
        | Ok fallback =>
            Ok {| title := title fallback; urls := urls fallback;
                  raw := stdout ++ [10] ++ js "[FALLBACK: vidsrc]" |}
        | Throw fallbackError =>
            Throw (default
                     (Error (js "lobster returned no URLs; fallback failed: "
                             ++ message fallbackError))
                     lastError)
        end
  end.

End Json.

(** *** The playlist parser *)

(** The pattern of [parseAttributes], flag [g]: a key of letters, digits
    and hyphens in group 1, an equals sign, and in group 2 the text between
    two double quotes. *)
Definition attributeRegex : regex :=
  Seq (Group 1 (Plus true (Cls false [(97, 122); (65, 90); (48, 57); (45, 45)])))
  (Seq (Chr 61)
  (Seq (Chr 34)
  (Seq (Group 2 (Star true (Cls true [(34, 34)])))
       (Chr 34)))).

(** A channel is a plain object whose property names come from the
    playlist: a finite map from names to strings. *)
Abbreviation Channel := (gmap jsstring jsstring).

(** [attributes[match[1]] = match[2]] for one match. *)
Definition setAttribute (line : jsstring) (attributes : Channel) (m : nat * mstate)
    : Channel :=
  match capture line m 1, capture line m 2 with
  | Some key, Some val => <[key := val]> attributes
  | _, _ => attributes
  end.

(** The [exec] loop of [parseAttributes] ends for every line
    ([parseAttributes_loop_ends]); the [None] branch is never taken. *)
Definition parseAttributes (line : jsstring) : Channel :=
  match execAll false line attributeRegex (S (length line)) 0 with
  | Some ms => fold_left (setAttribute line) ms ∅
  | None => ∅
  end.

(** [const [_, title] = line.split(comma, 2)] and
    [(title || Unknown).trim()] *)
Definition extinfTitle (line : jsstring) : option jsstring :=
  splitCharLimit 44 2 line !! 1%nat.

Definition extinfName (line : jsstring) : jsstring :=
  trim (match extinfTitle line with
        | Some (c :: t) => c :: t
        | _ => js "Unknown"
        end).

(** [{ name: ..., ...parseAttributes(line) }]: the attributes are spread
    over the record that holds [name], so an attribute wins over it. *)
Definition openChannel (line : jsstring) : Channel :=
  parseAttributes line ∪ {[ js "name" := extinfName line ]}.

Definition relayPrefix : jsstring := js "/api/stream?url=".

(** [current.url = line; current.streamUrl = ...] *)
Definition closeChannel (current : Channel) (line : jsstring) : result Channel :=
  encoded ← encodeURIComponent line;
  Ok (<[js "streamUrl" := relayPrefix ++ encoded]> (<[js "url" := line]> current)).

(** The loop of [parseM3U] over the lines that are left, with the pending
    record and the channels pushed so far. *)
Fixpoint parseLines (lines : list jsstring) (current : option Channel)
    (channels : list Channel) : result (list Channel) :=
  match lines with
  | [] => Ok channels
  | rawLine :: rest =>
      let line := trim rawLine in
      match line with
      | [] => parseLines rest current channels
      | _ =>
          if startsWith (js "#EXTINF") line then
            parseLines rest (Some (openChannel line)) channels
          else if negb (startsWith (js "#") line) then
            match current with
            | Some cur =>
                match closeChannel cur line with
                | Ok ch => parseLines rest None (channels ++ [ch])
                | Throw e => Throw e
                end
            | None => parseLines rest current channels
            end
          else parseLines rest current channels
      end
  end.

Definition parseM3U (content : jsstring) : result (list Channel) :=
  parseLines (splitLines content) None [].

(** *** The metadata cache *)

Section Cache.
(** The cached JSON payloads. *)
Variable Value : Type.

Record CacheEntry : Type := { value : Value; expires : Z }.

(** [metaCache], a [Map] keyed by strings; [now] is what [Date.now()]
    returns at the call. *)
Definition setCache (now : Z) (key : jsstring) (v : Value)
    (metaCache : gmap jsstring CacheEntry) : gmap jsstring CacheEntry :=
  <[key := {| value := v; expires := (now + CACHE_TTL_MS)%Z |}]> metaCache.

(** The value returned ([None] is [null]) and the map after the call. *)
Definition getCache (now : Z) (key : jsstring)
    (metaCache : gmap jsstring CacheEntry)
    : option Value * gmap jsstring CacheEntry :=
  match metaCache !! key with
  | None => (None, metaCache)
  | Some entry =>
      if (now >? expires entry)%Z then (None, delete key metaCache)
      else (Some (value entry), metaCache)
  end.
End Cache.

(** *** The stream relay and the manifest rewriter *)

Definition isManifest (contentType : jsstring) : bool :=
  includes (js "application/vnd.apple.mpegurl") contentType
  || includes (js "application/x-mpegURL") contentType
  || includes (js "application/octet-stream") contentType.

Section Relay.
(** The platform's [URL] class: [new URL(s)], [new URL(s, base)] (both
    throw a TypeError on what does not parse, [None] here) and
    [toString()]. *)
Variable URL : Type.
Variable newURL : jsstring -> option URL.
Variable newURLWithBase : jsstring -> URL -> option URL.
Variable toString : URL -> jsstring.

(** The lines the rewriter leaves alone. *)
Definition keptLine (trimmed : jsstring) : bool :=
  streq trimmed [] || startsWith (js "#") trimmed || startsWith (js "DATA:") trimmed.

(** The callback of [lines.map]. *)
Definition rewriteLine (base : URL) (line : jsstring) : result jsstring :=
  let trimmed := trim line in
  if keptLine trimmed then Ok trimmed
  else
    absolute ← ofOption TypeError (newURLWithBase trimmed base);
    encoded ← encodeURIComponent (toString absolute);
    Ok (relayPrefix ++ encoded).

Definition rewriteManifestWithProxy (body sourceUrl : jsstring) : result jsstring :=
  base ← ofOption TypeError (newURL sourceUrl);
  rewritten ← mapResult (rewriteLine base) (splitLines body);
  Ok (join [10] rewritten).

(** The upstream body, and its decoding as text by [upstream.text()]. *)
Variable Body : Type.
Variable text : Body -> jsstring.

Inductive Payload : Type :=
| Sent (manifest : jsstring)     (* res.send(...) *)
| Piped (upstream : Body).       (* upstream.body.pipe(res) or res.end(bytes) *)

Record Response : Type := {
  headers : list (jsstring * jsstring);   (* in the order they are set *)
  payload : Payload
}.

(** The handler of [GET /api/stream] once the upstream has answered with
    a successful status: [header] is [upstream.headers.get(content-type)].
    An exception leaves for the handler's [catch], which answers 502. *)
Definition relayUpstream (target : jsstring) (header : option jsstring)
    (upstream : Body) : result Response :=
  let contentType :=
    match header with
    | Some (c :: h) => c :: h
    | _ => []
    end in
  let allowOrigin := (js "Access-Control-Allow-Origin", js "*") in
  if isManifest contentType then
    manifest ← rewriteManifestWithProxy (text upstream) target;
    Ok {| headers := [allowOrigin;
                      (js "content-type", js "application/vnd.apple.mpegurl")];
          payload := Sent manifest |}
  else
    Ok {| headers := [allowOrigin;
                      (js "content-type", contentType);
                      (js "cache-control", js "no-store")];
          payload := Piped upstream |}.
End Relay.

(** *** MAC addresses on [GET /api/channels] *)

Definition hexDigitClass : regex := Cls false [(48, 57); (65, 70); (97, 102)].

(** [/^([0-9A-Fa-f]{2}[:-]){5}([0-9A-Fa-f]{2})$|^([0-9A-Fa-f]{12})$/] *)
Definition macRegex : regex :=
  Alt
    (Seq Bol
    (Seq (Times 5 (Group 1 (Seq (Times 2 hexDigitClass) (Cls false [(58, 58); (45, 45)]))))
    (Seq (Group 2 (Times 2 hexDigitClass))
         Eol)))
    (Seq Bol
    (Seq (Group 3 (Times 12 hexDigitClass))
         Eol)).

(** What the handler does with [req.query.mac] before it fetches anything. *)
Inductive MacStep : Type :=
| MacAbsent                                        (* the other branches *)
| MacRejected (status : N) (error : jsstring)      (* res.status(..).json({error}) *)
| MacPlaylist (playlistUrl : jsstring).            (* the playlist to fetch *)

(** [macAddress.replace(/[:-]/g, '').toUpperCase()] *)
Definition formatMac (macAddress : jsstring) : jsstring :=
  map upperAscii
    (List.filter (fun c => negb ((c =? 58) || (c =? 45))) macAddress).

Definition channelsMacStep (macAddress : option jsstring) : MacStep :=
  match macAddress with
  | Some (c :: m) =>
      if test false (c :: m) macRegex then
        let formattedMac := formatMac (c :: m) in
        MacPlaylist (js "http://sm4k.688.org/get.php?username=" ++ formattedMac
                     ++ js "&password=" ++ formattedMac
                     ++ js "&type=m3u_plus&output=ts")
      else MacRejected 400 (js "Invalid MAC address format")
  | _ => MacAbsent
  end.

(** *** The default playlist *)



(** *** The other resolvers and the scraper *)

Section Resolvers.
Variable number : Type.
Variable numberTruthy : number -> bool.
Variable JSON_parse : jsstring -> option (JSON number).
Variable TMDB_TOKEN : option jsstring.
Variable runCommand : jsstring -> list jsstring -> result jsstring.
Variable vidsrcLookup : jsstring -> jsstring -> jsstring -> result (ResolvedTitle number).
(** [commandExists(name)] *)
Variable commandExists : jsstring -> bool.
(** What the [try] block of the scraper gets for an embed URL from
    [fetchWithTimeout] and [response.text()]: the body of a successful
    response, [None] for a response that is not ok, or the exception; and
    the same for the second attempt with the plain [fetch]. *)
Variable fetchWithTimeoutBody : jsstring -> result (option jsstring).
Variable fetchBody : jsstring -> result (option jsstring).

(** [collectUrls(body).forEach((u) => found.add(u))] *)
Definition addAll (found : list jsstring) (body : jsstring) : list jsstring :=
  fold_left setAdd (collectUrls body) found.

(** One turn of the loop of [scrapeEmbedCandidates]. *)
Definition scrapeOne (found : list jsstring) (url : jsstring) : list jsstring :=
  match fetchWithTimeoutBody url with
  | Ok (Some body) => addAll found body
  | Ok None => found
  | Throw _ =>
      match fetchBody url with
      | Ok (Some body) => addAll found body
      | _ => found
      end
  end.

Definition scrapeEmbedCandidates (urls : list jsstring) : list jsstring :=
  fold_left scrapeOne urls [].

Definition VIDSRC_DOMAINS : list jsstring :=
  [js "https://vidsrc.xyz"; js "https://vidsrc.to"; js "https://vidsrc.me";
   js "https://vidsrc.stream"; js "https://vidsrc.cc"; js "https://vidsrc.pro";
   js "https://vidsrc.vip"; js "https://vidsrc.site"; js "https://vidsrc-embed.com";
   js "https://vidsrc.icu"; js "https://vidsrc.nl"; js "https://vidsrc.pm"].

(** [id], [season] and [episode] stand for the strings the template
    literals turn them into. *)
Definition buildVidsrcEmbeds (id category season episode : jsstring) : list jsstring :=
  if streq category (js "movie")
  then map (fun base => base ++ js "/embed/movie/" ++ id) VIDSRC_DOMAINS
  else map (fun base => base ++ js "/embed/tv/" ++ id ++ js "/" ++ season
                        ++ js "/" ++ episode) VIDSRC_DOMAINS.

(** [s.padStart(2, zero)] *)
Definition padStart2 (s : jsstring) : jsstring :=
  repeat 48 (2 - length s) ++ s.

Definition resolveVidsrcById (id category season episode : jsstring)
    : result (ResolvedTitle number) :=
  let embedTargets := buildVidsrcEmbeds id category season episode in
  let scraped := scrapeEmbedCandidates embedTargets in
  let found := List.filter (fun u => negb (streq u [])) scraped in
  match found with
  | [] => Throw (Error (js "No playable URLs found from VidSrc mirrors"))
  | _ =>
      Ok {| title :=
              JStr number
                (if streq category (js "movie")
                 then js "TMDB #" ++ id
                 else js "TMDB #" ++ id ++ js " S" ++ padStart2 season
                      ++ js "E" ++ padStart2 episode);
            urls := found;
            raw := join [10] embedTargets |}
  end.

(** [resolveWithAniCli]; [episode] is [None] when the caller passes none,
    and the default parameter then makes it 1. *)
Definition aniCliArgs (query : jsstring) (episode : option jsstring) : list jsstring :=
  let episode := default (js "1") episode in
  [js "--select-nth"; js "1"]
  ++ (match episode with _ :: _ => [js "--episode"; episode] | [] => [] end)
  ++ [query].

Definition resolveWithAniCli (query : jsstring) (episode : option jsstring)
    : result (ResolvedTitle number) :=
  stdout ← runCommand (js "ani-cli") (aniCliArgs query episode);
  match collectUrls stdout with
  | [] => Throw (Error (js "ani-cli did not return a playable URL"))
  | found =>
      Ok {| title := JStr number (plusesToSpaces query); urls := found; raw := stdout |}
  end.

(** *** The handlers that answer with a stream *)

(** The body of a successful answer of [/api/movies/:id/watch] and
    [/api/tv/:id/watch]. *)
Record WatchBody : Type := {
  watchTitle : JSON number;
  watchStreamUrl : jsstring;
  embedUrl : option jsstring;     (* [None]: undefined, left out of the JSON *)
  alternateUrls : list jsstring
}.

(** The body of a successful answer of [/api/vod/play]. *)
Record PlayBody : Type := {
  playProvider : jsstring;
  playTitle : JSON number;
  playUrl : jsstring;
  playStreamUrl : jsstring;
  alternatives : list jsstring
}.

Inductive Reply (Body : Type) : Type :=
| Json (body : Body)                        (* res.json(body), status 200 *)
| Failed (status : N) (error : jsstring).   (* res.status(..).json({error}) *)

(** [/api/movies/:id/watch] (category movie) and [/api/tv/:id/watch]
    (category tv, with [season] and [episode] defaulting to 1). *)
Definition watchReply (resolved : result (ResolvedTitle number)) : Reply WatchBody :=
  let answer :=
    r ← resolved;
    match urls number r with
    | primary :: _ =>
        encoded ← encodeURIComponent primary;
        Ok {| watchTitle := title number r;
              watchStreamUrl := relayPrefix ++ encoded;
              embedUrl := Some primary;
              alternateUrls := urls number r |}
    | [] =>
        (* [primary] is undefined, which the encoder reads as a string *)
        Ok {| watchTitle := title number r;
              watchStreamUrl := relayPrefix ++ js "undefined";
              embedUrl := None;
              alternateUrls := [] |}
    end in
  match answer with
  | Ok body => Json WatchBody body
  | Throw e => Failed WatchBody 500 (message e)
  end.

Definition movieWatch (id : jsstring) : Reply WatchBody :=
  watchReply (resolveVidsrcById id (js "movie") (js "1") (js "1")).

Definition tvWatch (id : jsstring) (season episode : option jsstring) : Reply WatchBody :=
  let orOne (v : option jsstring) :=
    match v with Some (c :: s) => c :: s | _ => js "1" end in
  watchReply (resolveVidsrcById id (js "tv") (orOne season) (orOne episode)).

(** The providers of [vodProviders]. *)
Inductive ProviderKind : Type := Vidsrc | AniCli | Lobster.

Definition providerName (k : ProviderKind) : jsstring :=
  match k with
  | Vidsrc => js "vidsrc"
  | AniCli => js "ani-cli"
  | Lobster => js "lobster"
  end.

Definition providerLabel (k : ProviderKind) : jsstring :=
  match k with
  | Vidsrc => js "Built-in (Movies/TV)"
  | AniCli => js "ani-cli (Anime)"
  | Lobster => js "lobster (Movies/TV)"
  end.

Definition dependsOn (k : ProviderKind) : option jsstring :=
  match k with
  | Vidsrc => None
  | AniCli => Some (js "ani-cli")
  | Lobster => Some (js "lobster")
  end.

(** What [Object.prototype] lends to every plain object. *)
Definition objectPrototypeKeys : list jsstring :=
  [js "constructor"; js "__defineGetter__"; js "__defineSetter__";
   js "hasOwnProperty"; js "__lookupGetter__"; js "__lookupSetter__";
   js "isPrototypeOf"; js "propertyIsEnumerable"; js "toString"; js "valueOf";
   js "__proto__"; js "toLocaleString"].

(** [vodProviders[providerId]]: an entry of the table, a member inherited
    from [Object.prototype] (truthy, but no provider), or [undefined]. *)
Inductive ProviderLookup : Type :=
| IsProvider (k : ProviderKind)
| IsInherited
| IsUndefined.

Definition lookupProvider (providerId : jsstring) : ProviderLookup :=
  if streq providerId (js "vidsrc") then IsProvider Vidsrc
  else if streq providerId (js "ani-cli") then IsProvider AniCli
  else if streq providerId (js "lobster") then IsProvider Lobster
  else if existsb (streq providerId) objectPrototypeKeys then IsInherited
  else IsUndefined.

(** [provider.resolver({ query, episode, quality, type })] *)
Definition runResolver (k : ProviderKind) (query episode : jsstring)
    (quality : option jsstring) (type : jsstring) : result (ResolvedTitle number) :=
  match k with
  | Vidsrc => resolveWithVidsrc number TMDB_TOKEN vidsrcLookup query episode type
  | AniCli => resolveWithAniCli query (Some episode)
  | Lobster =>
      resolveWithLobster number numberTruthy JSON_parse TMDB_TOKEN runCommand
        vidsrcLookup query quality type
  end.

Definition orDefault (v : option jsstring) (d : jsstring) : jsstring :=
  match v with
  | Some (c :: s) => c :: s
  | _ => d
  end.

(** [GET /api/vod/play], on the parameters of the query string. *)
Definition vodPlay (provider query episode quality type : option jsstring)
    : Reply PlayBody :=
  let providerId := orDefault provider (js "vidsrc") in
  let query := trim (orDefault query []) in
  let episode := orDefault episode (js "1") in
  let type := orDefault type (js "movies") in
  match query with
  | [] => Failed PlayBody 400 (js "Missing query parameter")
  | _ =>
      match lookupProvider providerId with
      | IsUndefined => Failed PlayBody 404 (js "Unknown provider")
      | IsInherited =>
          Failed PlayBody 500 (js "provider.resolver is not a function")
      | IsProvider k =>
          let isAvailable :=
            match dependsOn k with
            | Some binary => commandExists binary
            | None => true
            end in
          if negb isAvailable then
            Failed PlayBody 400
              (providerLabel k ++ js " is not installed. Please install "
               ++ default [] (dependsOn k) ++ js " and ensure it is on PATH.")
          else
            let answer :=
              r ← runResolver k query episode quality type;
              match urls number r with
              | [] => Throw (Error (js "No playable URLs returned"))
              | primary :: _ =>
                  encoded ← encodeURIComponent primary;
                  Ok {| playProvider := providerName k;
                        playTitle := if truthy number numberTruthy (title number r)
                                     then title number r else JStr number query;
                        playUrl := primary;
                        playStreamUrl := relayPrefix ++ encoded;
                        alternatives := urls number r |}
              end in
            match answer with
            | Ok body => Json PlayBody body
            | Throw e =>
                Failed PlayBody 500
                  (match message e with
                   | [] => js "Failed to resolve VOD"
                   | m => m
                   end)
            end
      end
  end.

End Resolvers.

(** *** A cached metadata endpoint *)

Section CachedEndpoint.
Variable Value : Type.
(** Whether a cached payload is truthy, as [if (cached)] asks. *)
Variable valueTruthy : Value -> bool.

Inductive MetaReply : Type :=
| MetaJson (data : Value)                      (* res.json(data) *)
| MetaFailed (status : N) (error : jsstring).  (* res.status(500).json({error}) *)

(** [GET /api/anime/popular]: [page] is [req.query.page], [now] the time
    of the lookup, [later] the time of the insertion, and [upstream] what
    the fetch and [response.json()] come to, the exception included that
    the handler throws on a response that is not ok. *)
Definition animePopular (page : option jsstring) (now later : Z)
    (upstream : result Value) (metaCache : gmap jsstring (CacheEntry Value))
    : MetaReply * gmap jsstring (CacheEntry Value) :=
  let page := match page with Some (c :: p) => c :: p | _ => js "1" end in
  let cacheKey := js "jikan:anime:popular:" ++ page in
  let '(cached, metaCache) := getCache Value now cacheKey metaCache in
  match cached with
  | Some data =>
      if valueTruthy data then (MetaJson data, metaCache)
      else
        match upstream with
        | Ok fresh => (MetaJson fresh, setCache Value later cacheKey fresh metaCache)
        | Throw e => (MetaFailed 500 (message e), metaCache)
        end
  | None =>
      match upstream with
      | Ok fresh => (MetaJson fresh, setCache Value later cacheKey fresh metaCache)
      | Throw e => (MetaFailed 500 (message e), metaCache)
      end
  end.
End CachedEndpoint.

(** *** Slugs *)

(** [String.prototype.replace] with a pattern that has the [g] flag and a
    replacement text without [$] (RegExp.prototype[Symbol.replace],
    22.2.6.11).  The matches are collected first: each search resumes at
    the end of the previous match, and one code unit further when that
    match was empty.  [lastIndex] grows with every round and a search
    beyond the end of the input fails, so [length input + 2] rounds are
    enough.  The result is then put together from the pieces between the
    matches and the replacement. *)
Section Replace.
Variable input : jsstring.
Variable r : regex.

(** The position and the end of every match. *)
Fixpoint replaceResults (fuel lastIndex : nat) : list (nat * nat) :=
  match fuel with
  | O => []
  | S f =>
      match exec false input r lastIndex with
      | None => []
      | Some (position, st) =>
          let e := endIndex st in
          (position, e) :: replaceResults f (if Nat.eqb e position then S e else e)
      end
  end.

Fixpoint assemble (replacement : jsstring) (results : list (nat * nat))
    (nextSourcePosition : nat) : jsstring :=
  match results with
  | [] => drop nextSourcePosition input
  | (position, e) :: rest =>
      if Nat.leb nextSourcePosition position
      then substring input nextSourcePosition position ++ replacement
           ++ assemble replacement rest e
      else assemble replacement rest nextSourcePosition
  end.

Definition replaceAll (replacement : jsstring) : jsstring :=
  assemble replacement (replaceResults (length input + 2) 0) 0.

End Replace.

(** [/[^a-z0-9]+/g] *)
Definition nonAlnumRun : regex := Plus true (Cls true [(97, 122); (48, 57)]).

(** [/(^-|-$)+/g] *)
Definition edgeHyphens : regex :=
  Plus true (Group 1 (Alt (Seq Bol (Chr 45)) (Seq (Chr 45) Eol))).

Section Slugify.
(** [String.prototype.toLowerCase], the lower-casing of the Unicode
    standard, is the platform's. *)
Variable toLowerCase : jsstring -> jsstring.

Definition slugify (value : jsstring) : jsstring :=
  replaceAll
    (replaceAll (toLowerCase value) nonAlnumRun (js "-"))
    edgeHyphens (js "").

End Slugify.

(** ** Vocabulary of the statements *)

(** [s.toLowerCase()] on the ASCII letters, to compare without case. *)
Definition lowerCase (s : jsstring) : jsstring := map lowerAscii s.

(** [s.endsWith(p)] *)
Definition endsWith (p s : jsstring) : bool := startsWith (rev p) (rev s).

(** The extensions the pattern of [collectUrls] lists. *)
Definition mediaExtensions : list jsstring :=
  [js "m3u8"; js "m3u"; js "mp4"; js "mov"; js "mkv"; js "avi"; js "flv";
   js "mpd"; js "webm"; js "ts"].

(** White space, the double and the single quote, and the angle brackets. *)
Definition isUrlDelimiter (c : N) : bool :=
  isWhiteSpace c || (c =? 34) || (c =? 39) || (c =? 60) || (c =? 62).

Definition isHexDigit (c : N) : bool :=
  ((48 <=? c) && (c <=? 57)) || ((65 <=? c) && (c <=? 70)) || ((97 <=? c) && (c <=? 102)).

Definition isColon (c : N) : bool := c =? 58.
Definition isHyphen (c : N) : bool := c =? 45.
Definition isColonOrHyphen (c : N) : bool := isColon c || isHyphen c.

(** Six pairs of hexadecimal digits, with a separator that [sep] accepts
    between neighbouring pairs. *)
Definition sixPairs (sep : N -> bool) (s : jsstring) : bool :=
  match s with
  | [a1; a2; s1; b1; b2; s2; c1; c2; s3; d1; d2; s4; e1; e2; s5; f1; f2] =>
      forallb isHexDigit [a1; a2; b1; b2; c1; c2; d1; d2; e1; e2; f1; f2]
      && forallb sep [s1; s2; s3; s4; s5]
  | _ => false
  end.

(** Twelve hexadecimal digits and nothing else. *)
Definition twelveHex (s : jsstring) : bool :=
  Nat.eqb (length s) 12 && forallb isHexDigit s.

(** The three shapes the MAC claim lists: colons throughout, hyphens
    throughout, or no separator. *)
Definition claimedMacShape (s : jsstring) : bool :=
  sixPairs isColon s || sixPairs isHyphen s || twelveHex s.

(** The shapes the pattern of the handler accepts: each separator is a
    colon or a hyphen, chosen on its own. *)
Definition acceptedMacShape (s : jsstring) : bool :=
  sixPairs isColonOrHyphen s || twelveHex s.

(** The code units [encodeURIComponent] can put out: the unreserved ones
    and the percent sign. *)
Definition isEncodedChar (c : N) : bool := isUnreserved c || (c =? 37).


(** The kinds of playlist lines, told by the trimmed line. *)
Definition isBlankLine (rawLine : jsstring) : bool := streq (trim rawLine) [].
Definition isExtinfLine (rawLine : jsstring) : bool :=
  startsWith (js "#EXTINF") (trim rawLine).
Definition isCommentLine (rawLine : jsstring) : bool :=
  startsWith (js "#") (trim rawLine).

(** The URL line that follows, skipping blank lines and comments; another
    #EXTINF line met first takes the place over, and there is none. *)
Fixpoint nextUrlLine (lines : list jsstring) : option jsstring :=
  match lines with
  | [] => None
  | l :: rest =>
      if isBlankLine l then nextUrlLine rest
      else if isExtinfLine l then None
      else if isCommentLine l then nextUrlLine rest
      else Some (trim l)
  end.

(** The #EXTINF lines that are followed by a URL line, each with that URL
    line, both trimmed, in the order of the input. *)
Fixpoint extinfPairs (lines : list jsstring) : list (jsstring * jsstring) :=
  match lines with
  | [] => []
  | l :: rest =>
      (if isExtinfLine l
       then match nextUrlLine rest with
            | Some u => [(trim l, u)]
            | None => []
            end
       else [])
      ++ extinfPairs rest
  end.

(** The channel built from an #EXTINF line and the URL line that closes it. *)
Definition channelOf (p : jsstring * jsstring) : result Channel :=
  closeChannel (openChannel (fst p)) (snd p).

(** The channel a pending record becomes, when a URL line follows. *)
Definition pendingChannel (current : option Channel) (lines : list jsstring)
    : list (result Channel) :=
  match current, nextUrlLine lines with
  | Some cur, Some u => [closeChannel cur u]
  | _, _ => []
  end.

(** The number of commas of a line. *)
Definition commas (s : jsstring) : nat := length (List.filter (N.eqb 44) s).

(** The text that follows the first comma of a line, when there is one. *)
Definition afterFirstComma (line : jsstring) : option jsstring := afterFirst 44 line.

(** An upper-case hexadecimal digit. *)
Definition isUpperHexDigit (c : N) : bool :=
  ((48 <=? c) && (c <=? 57)) || ((65 <=? c) && (c <=? 70)).

(** The characters of an attribute key: letters, digits and the hyphen. *)
Definition isAttributeKeyChar (c : N) : bool := isAlnum c || (c =? 45).

(** The page the scraper reads for an embed URL: the body of the first
    fetch or, when that fetch threw, the body of the second attempt. *)
Definition pageRead (fetchWithTimeoutBody fetchBody : jsstring -> result (option jsstring))
    (url body : jsstring) : Prop :=
  fetchWithTimeoutBody url = Ok (Some body)
  \/ ((exists e, fetchWithTimeoutBody url = Throw e) /\ fetchBody url = Ok (Some body)).

(** The code units [a-z0-9], and those of a slug: [a-z0-9] and the hyphen. *)
Definition isLowerAlnum (c : N) : bool :=
  ((97 <=? c) && (c <=? 122)) || ((48 <=? c) && (c <=? 57)).

Definition isSlugChar (c : N) : bool := isLowerAlnum c || (c =? 45).

(** No two hyphens in a row. *)
Fixpoint noDoubleHyphen (s : jsstring) : bool :=
  match s with
  | a :: s' =>
      match s' with
      | b :: _ => negb ((a =? 45) && (b =? 45))
      | [] => true
      end && noDoubleHyphen s'
  | [] => true
  end.

(** The length of the run of [ok] code units a string begins with. *)
Fixpoint runLength (ok : N -> bool) (s : jsstring) : nat :=
  match s with
  | c :: s' => if ok c then S (runLength ok s') else O
  | [] => O
  end.

(** Every maximal run of [ok] code units replaced by one [replacement];
    [inRun] says that the run has begun already. *)
Fixpoint collapse (ok : N -> bool) (replacement : jsstring) (inRun : bool)
    (s : jsstring) : jsstring :=
  match s with
  | [] => []
  | c :: s' =>
      if ok c
      then (if inRun then [] else replacement) ++ collapse ok replacement true s'
      else c :: collapse ok replacement false s'
  end.

(** A string without its first code unit, or without its last one, when
    that is a hyphen. *)
Definition stripFirst (s : jsstring) : jsstring :=
  match s with
  | c :: s' => if c =? 45 then s' else s
  | [] => []
  end.

Fixpoint stripLast (s : jsstring) : jsstring :=
  match s with
  | [] => []
  | c :: s' =>
      match s' with
      | [] => if c =? 45 then [] else [c]
      | _ :: _ => c :: stripLast s'
      end
  end.

(** A hyphen at the first or at the last index of [s]. *)
Definition isEdgeHyphen (s : jsstring) (i : nat) : bool :=
  match s !! i with
  | Some c => (c =? 45) && (Nat.eqb i 0 || Nat.eqb (S i) (length s))
  | None => false
  end.

(** [s], whose first code unit has index [i], without the indices [p]
    selects. *)
Fixpoint removeAt (p : nat -> bool) (i : nat) (s : jsstring) : jsstring :=
  match s with
  | [] => []
  | c :: s' => if p i then removeAt p (S i) s' else c :: removeAt p (S i) s'
  end.

(** * Properties *)

(** ** The matcher enumerates the relation *)

Section MatcherFacts.
Variable ignoreCase : bool.
Variable input : jsstring.

Local Abbreviation Matches := (Matches ignoreCase input).
Local Abbreviation rmatch := (rmatch ignoreCase input).

Lemma stepChar_spec ok st st' :
  In st' (stepChar input ok st) <->
  exists ch, input !! endIndex st = Some ch /\ ok ch = true
             /\ st' = MState (S (endIndex st)) (captures st).
Proof.
  unfold stepChar. destruct (input !! endIndex st) as [ch|] eqn:E.
  - destruct (ok ch) eqn:Hok; simpl; split.
    + intros [<-|[]]. eauto.
    + intros (ch' & [= <-] & _ & ->). now left.
    + intros [].
    + intros (ch' & [= <-] & Hok' & _). congruence.
  - simpl. split; [intros [] | intros (ch & Hch & _); discriminate].
Qed.

(** A match never moves backwards, and when it moves it stays inside the
    input. *)
Lemma Matches_bounds r st st' :
  Matches r st st' ->
  (endIndex st <= endIndex st')%nat /\
  ((endIndex st < endIndex st')%nat -> (endIndex st' <= length input)%nat).
Proof.
  induction 1; simpl;
    try match goal with
        | H : input !! _ = Some _ |- _ => apply lookup_lt_Some in H
        end;
    repeat match goal with
           | H : _ /\ _ |- _ => destruct H
           end;
    split; try lia.
  all: intros Hlt;
    destruct (Nat.eq_dec (endIndex st1) (endIndex st2)) as [E|E];
    [rewrite <- E | ]; auto with lia.
Qed.

Lemma starLoop_sound r g (step : mstate -> list mstate) :
  (forall st st', In st' (step st) -> Matches r st st') ->
  forall fuel st st',
    In st' (starLoop step g fuel st) -> Matches (Star g r) st st'.
Proof.
  intros Hstep. induction fuel as [|f IH]; simpl; intros st st' Hin.
  - destruct Hin as [<-|[]]. constructor.
  - assert (Hmore : forall x,
               In x (flat_map (starLoop step g f)
                       (List.filter (fun st1 => Nat.ltb (endIndex st) (endIndex st1))
                          (step st))) ->
               Matches (Star g r) st x).
    { intros x Hx. apply in_flat_map in Hx as (st1 & Hst1 & Hx).
      apply filter_In in Hst1 as [Hst1 Hlt]. apply Nat.ltb_lt in Hlt.
      eapply MStarStep; eauto. }
    destruct g.
    + apply in_app_iff in Hin as [Hin|[<-|[]]]; [auto | constructor].
    + destruct Hin as [<-|Hin]; [constructor | auto].
Qed.

Lemma rmatch_sound r :
  forall st st', In st' (rmatch r st) -> Matches r st st'.
Proof.
  induction r; intros st st' Hin;
    try (eapply starLoop_sound; [exact IHr | exact Hin]); simpl in Hin.
  - destruct Hin as [<-|[]]. constructor.
  - apply stepChar_spec in Hin as (ch & Hch & Hok & ->). econstructor; eauto.
  - apply stepChar_spec in Hin as (ch & Hch & Hok & ->). econstructor; eauto.
  - apply in_flat_map in Hin as (st1 & H1 & H2). econstructor; eauto.
  - apply in_app_iff in Hin as [Hin|Hin]; [apply MAltL | apply MAltR]; auto.
  - apply in_map_iff in Hin as (st1 & <- & Hin). constructor. auto.
  - destruct (Nat.eqb_spec (endIndex st) 0); [|destruct Hin].
    destruct Hin as [<-|[]]. now constructor.
  - destruct (Nat.eqb_spec (endIndex st) (length input)); [|destruct Hin].
    destruct Hin as [<-|[]]. now constructor.
Qed.

Lemma starLoop_complete r g (step : mstate -> list mstate) :
  (forall st st', Matches r st st' -> In st' (step st)) ->
  forall st st', Matches (Star g r) st st' ->
  forall fuel, (length input - endIndex st < fuel)%nat ->
               In st' (starLoop step g fuel st).
Proof.
  intros Hstep st st' HM. remember (Star g r) as sr eqn:Esr.
  induction HM; inversion Esr; subst; intros fuel Hfuel.
  - destruct fuel; simpl; [now left|]. destruct g; [|now left].
    apply in_app_iff. right. now left.
  - destruct fuel as [|f]; [lia|]. simpl.
    assert (Hin : In st2
              (flat_map (starLoop step g f)
                 (List.filter (fun x => Nat.ltb (endIndex st) (endIndex x)) (step st)))).
    { apply in_flat_map. exists st1. split.
      - apply filter_In. split; [auto|]. now apply Nat.ltb_lt.
      - apply IHHM2; [reflexivity|].
        apply Matches_bounds in HM1 as [_ Hb]. specialize (Hb H). lia. }
    destruct g; [apply in_app_iff; now left | now right].
Qed.

Lemma rmatch_complete r :
  forall st st', Matches r st st' -> In st' (rmatch r st).
Proof.
  induction r; intros st st' HM;
    try (eapply starLoop_complete; [exact IHr | exact HM | simpl; lia]);
    inversion HM; subst; simpl.
  - now left.
  - apply stepChar_spec. eauto.
  - apply stepChar_spec. eauto.
  - apply in_flat_map. eauto.
  - apply in_app_iff; auto.
  - apply in_app_iff; auto.
  - apply in_map_iff. eauto.
  - match goal with H : endIndex _ = _ |- _ => rewrite H end. now left.
  - match goal with H : endIndex _ = _ |- _ => rewrite H end.
    rewrite Nat.eqb_refl. now left.
Qed.

(** [exec] reports a match of the pattern that starts at or after
    [lastIndex]. *)
Lemma searchFrom_sound r k :
  forall i j st', searchFrom ignoreCase input r k i = Some (j, st') ->
    (i <= j < i + k)%nat /\ Matches r (MState j []) st'.
Proof.
  induction k as [|k IH]; simpl; intros i j st' H; [discriminate|].
  destruct (rmatch r (MState i [])) as [|st0 l] eqn:E.
  - apply IH in H as [Hj HM]. split; [lia | auto].
  - injection H as <- <-. split; [lia|].
    apply rmatch_sound. rewrite E. now left.
Qed.

Lemma searchFrom_complete r k :
  forall i j st', (i <= j < i + k)%nat -> Matches r (MState j []) st' ->
    searchFrom ignoreCase input r k i <> None.
Proof.
  induction k as [|k IH]; simpl; intros i j st' Hj HM; [lia|].
  destruct (rmatch r (MState i [])) as [|st0 l] eqn:E; [|discriminate].
  destruct (Nat.eq_dec i j) as [->|Hne].
  - apply rmatch_complete in HM. rewrite E in HM. destruct HM.
  - apply (IH (S i) j st'); [lia | auto].
Qed.

Lemma exec_sound r lastIndex j st' :
  exec ignoreCase input r lastIndex = Some (j, st') ->
  (lastIndex <= j <= length input)%nat /\ Matches r (MState j []) st'.
Proof.
  unfold exec. destruct (Nat.ltb_spec (length input) lastIndex); [discriminate|].
  intros H'. apply searchFrom_sound in H' as [Hj HM]. split; [lia | auto].
Qed.

(** When no match of the pattern is empty, the loop over [exec] ends
    within the fuel that [length input] allows. *)
Lemma execAll_ends r :
  (forall j st', Matches r (MState j []) st' -> (j < endIndex st')%nat) ->
  forall fuel lastIndex,
    (length input - lastIndex < fuel)%nat ->
    exists ms, execAll ignoreCase input r fuel lastIndex = Some ms.
Proof.
  intros Hne. induction fuel as [|f IH]; intros lastIndex Hf; [lia|].
  simpl. destruct (exec ignoreCase input r lastIndex) as [[j st']|] eqn:E; [|eauto].
  apply exec_sound in E as [Hj HM]. simpl.
  pose proof (Hne _ _ HM) as Hlt.
  apply Matches_bounds in HM as [_ Hb]. simpl in Hb. specialize (Hb Hlt).
  destruct (Nat.leb_spec (endIndex st') lastIndex) as [Hle|_]; [lia|].
  destruct (IH (endIndex st')) as [ms ->]; [lia|]. simpl. eauto.
Qed.

Lemma execAll_sound r :
  forall fuel lastIndex ms,
    execAll ignoreCase input r fuel lastIndex = Some ms ->
    forall m, In m ms -> Matches r (MState (fst m) []) (snd m).
Proof.
  induction fuel as [|f IH]; intros lastIndex ms H m Hin; [discriminate|].
  simpl in H.
  destruct (exec ignoreCase input r lastIndex) as [[j st']|] eqn:E.
  - simpl in H. destruct (Nat.leb (endIndex st') lastIndex); [discriminate|].
    destruct (execAll ignoreCase input r f (endIndex st')) as [ms'|] eqn:E';
      [|discriminate].
    injection H as <-. destruct Hin as [<-|Hin].
    + apply exec_sound in E as [_ HM]. exact HM.
    + eapply IH; eauto.
  - injection H as <-. destruct Hin.
Qed.

(** *** From positions to strings *)

Lemma substring_empty i j : (j <= i)%nat -> substring input i j = [].
Proof. intros H. unfold substring. now replace (j - i)%nat with O by lia. Qed.

Lemma substring_app i j k :
  (i <= j <= k)%nat ->
  substring input i j ++ substring input j k = substring input i k.
Proof.
  intros H. unfold substring.
  replace (drop j input) with (drop (j - i) (drop i input))
    by (rewrite drop_drop; f_equal; lia).
  rewrite take_take_drop. f_equal. lia.
Qed.

Lemma substring_single i ch :
  input !! i = Some ch -> substring input i (S i) = [ch].
Proof.
  intros H. unfold substring. rewrite (drop_S _ _ _ H).
  now replace (S i - i)%nat with 1%nat by lia.
Qed.

Lemma Matches_Lang r st st' :
  Matches r st st' ->
  Lang ignoreCase r (substring input (endIndex st) (endIndex st')).
Proof.
  induction 1; simpl;
    try (rewrite substring_empty by lia; constructor);
    try (erewrite substring_single by eassumption; now constructor).
  - apply Matches_bounds in H as [H1 _], H0 as [H2 _].
    rewrite <- (substring_app _ (endIndex st1)) by lia. now constructor.
  - apply LAltL. assumption.
  - apply LAltR. assumption.
  - apply Matches_bounds in H1 as [H2 _].
    rewrite <- (substring_app _ (endIndex st1)) by lia. now constructor.
  - now constructor.
Qed.

(** A pattern whose strings are never empty only has matches that end
    after their start. *)
Lemma Matches_progress r :
  (forall w, Lang ignoreCase r w -> w <> []) ->
  forall j st', Matches r (MState j []) st' -> (j < endIndex st')%nat.
Proof.
  intros Hne j st' HM. apply Matches_Lang in HM. simpl in HM.
  destruct (Nat.lt_ge_cases j (endIndex st')) as [|Hle]; [assumption|].
  rewrite substring_empty in HM by assumption. now apply Hne in HM.
Qed.

End MatcherFacts.

(** ** Strings of a pattern *)

Ltac inv H := inversion H; subst; clear H.

Lemma upperAscii_inv ch k :
  upperAscii ch = k -> ch = k \/ (ch = k + 32 /\ 65 <= k <= 90).
Proof.
  unfold upperAscii.
  destruct ((97 <=? ch) && (ch <=? 122)) eqn:E; [|now left].
  apply andb_true_iff in E as [E1 E2].
  apply N.leb_le in E1, E2. intros <-. right. lia.
Qed.

Lemma upper_lower a b : upperAscii a = upperAscii b -> lowerAscii a = lowerAscii b.
Proof.
  unfold upperAscii, lowerAscii.
  repeat match goal with
         | |- context [?x <=? ?y] => destruct (N.leb_spec x y); simpl
         end; lia.
Qed.

Lemma startsWith_app p r : startsWith p (p ++ r) = true.
Proof. induction p as [|c p IH]; simpl; [reflexivity|]. now rewrite N.eqb_refl. Qed.

Lemma includes_app a p b : includes p (a ++ p ++ b) = true.
Proof.
  induction a as [|c a IH]; simpl.
  - pose proof (startsWith_app p b) as H.
    destruct (p ++ b); simpl; now rewrite H.
  - rewrite IH. apply orb_true_r.
Qed.

Section LangFacts.
Variable ignoreCase : bool.

Lemma Lang_leaves ok r w :
  leavesOk (fun r ch => Lang ignoreCase r [ch]) ok r ->
  Lang ignoreCase r w -> Forall ok w.
Proof.
  intros Hl HL. induction HL; simpl in Hl;
    try (constructor; [|constructor]; apply Hl; now constructor);
    try apply Forall_nil_2; try apply Forall_app; try tauto.
Qed.

Lemma Lang_Lit s :
  forall w, Lang ignoreCase (Lit s) w ->
            Forall2 (fun c ch => canonicalize ignoreCase c = canonicalize ignoreCase ch) s w.
Proof.
  induction s as [|c s IH]; simpl; intros w H.
  - inv H. constructor.
  - inv H. match goal with H : Lang _ (Chr _) _ |- _ => inv H end.
    simpl. constructor; [now apply N.eqb_eq | auto].
Qed.

Lemma Lang_Seq r1 r2 w :
  Lang ignoreCase (Seq r1 r2) w ->
  exists w1 w2, w = w1 ++ w2 /\ Lang ignoreCase r1 w1 /\ Lang ignoreCase r2 w2.
Proof. intros H. inv H. eauto. Qed.

Lemma Lang_Alt r1 r2 w :
  Lang ignoreCase (Alt r1 r2) w -> Lang ignoreCase r1 w \/ Lang ignoreCase r2 w.
Proof. intros H. inv H; auto. Qed.

Lemma Lang_Group k r w : Lang ignoreCase (Group k r) w -> Lang ignoreCase r w.
Proof. intros H. now inv H. Qed.

Lemma Lang_Opt r w : Lang ignoreCase (Opt r) w -> w = [] \/ Lang ignoreCase r w.
Proof.
  unfold Opt. intros H. inv H; [now right|].
  match goal with H : Lang _ Eps _ |- _ => inv H end. now left.
Qed.
End LangFacts.

Lemma Lang_Lit_lower s w : Lang true (Lit s) w -> lowerCase w = lowerCase s.
Proof.
  intros H. apply Lang_Lit in H. induction H; simpl; [reflexivity|].
  f_equal; [|assumption]. symmetry. now apply upper_lower.
Qed.

(** ** C6: what [collectUrls] extracts *)

Lemma inRanges_mediaUrlChar c :
  inRanges (whiteSpaceRanges ++ [(34, 34); (39, 39); (60, 60); (62, 62)]) c
  = isUrlDelimiter c.
Proof.
  unfold isUrlDelimiter, isWhiteSpace, inRanges. simpl.
  apply eq_true_iff_eq.
  rewrite ?orb_true_iff, ?andb_true_iff, ?N.leb_le, ?N.eqb_eq.
  repeat rewrite ?orb_true_iff, ?andb_true_iff, ?N.leb_le, ?N.eqb_eq.
  lia.
Qed.

Lemma mediaUrlChar_ok ch :
  Lang true mediaUrlChar [ch] -> isUrlDelimiter ch = false.
Proof.
  intros H. inv H. unfold classMatches in *.
  rewrite inRanges_mediaUrlChar in *.
  destruct (isUrlDelimiter ch); [discriminate | reflexivity].
Qed.

Lemma Chr_inv c w :
  Lang true (Chr c) w ->
  exists ch, w = [ch] /\
    (ch = upperAscii c \/ (ch = upperAscii c + 32 /\ 65 <= upperAscii c <= 90)).
Proof.
  intros H. inv H. eexists. split; [reflexivity|].
  match goal with H : (_ =? _) = true |- _ => apply N.eqb_eq in H; simpl in H end.
  apply upperAscii_inv. congruence.
Qed.

Lemma mediaUrlRegex_leaves :
  leavesOk (fun r ch => Lang true r [ch]) (fun ch => isUrlDelimiter ch = false)
    mediaUrlRegex.
Proof.
  cbn -[mediaUrlChar].
  repeat split; intros ch H;
    first [ now apply mediaUrlChar_ok
          | apply Chr_inv in H as (ch' & [= ->] & [->|[-> _]]); reflexivity ].
Qed.

Lemma mediaExtension_Lang w :
  Lang true mediaExtension w -> In (lowerCase w) mediaExtensions.
Proof.
  unfold mediaExtension. intros H.
  repeat (apply Lang_Alt in H as [H|H]);
    try (apply Lang_Lit_lower in H; rewrite H; cbn; tauto).
  apply Lang_Seq in H as (w1 & w2 & -> & H1 & H2).
  apply Lang_Lit_lower in H1. unfold lowerCase in *. rewrite map_app, H1.
  apply Lang_Opt in H2 as [->|H2].
  - cbn. tauto.
  - apply Chr_inv in H2 as (ch & -> & [->|[-> Hr]]); [cbn; tauto|].
    cbn in Hr. lia.
Qed.

Lemma mediaUrlRegex_Lang w :
  Lang true mediaUrlRegex w ->
  w <> []
  /\ (startsWith (js "http://") (lowerCase w)
      || startsWith (js "https://") (lowerCase w)) = true
  /\ existsb (fun ext => includes ext (lowerCase w)) mediaExtensions = true.
Proof.
  unfold mediaUrlRegex. intros H. apply Lang_Group in H.
  apply Lang_Seq in H as (w1 & r1 & -> & H1 & H).
  apply Lang_Seq in H as (w2 & r2 & -> & H2 & H).
  apply Lang_Seq in H as (w3 & r3 & -> & H3 & H).
  apply Lang_Seq in H as (w4 & r4 & -> & H4 & H).
  apply Lang_Seq in H as (w5 & w6 & -> & H5 & H6).
  apply Lang_Lit_lower in H1, H3. apply mediaExtension_Lang in H5.
  assert (Hs : lowerCase w2 = [] \/ lowerCase w2 = js "s").
  { apply Lang_Opt in H2 as [->|H2]; [now left|].
    apply Chr_inv in H2 as (ch & -> & [->| [-> _]]); now right. }
  unfold lowerCase in *. rewrite !map_app, H1, H3.
  split; [|split].
  - destruct w1; [discriminate H1 | discriminate].
  - destruct Hs as [-> | ->]; reflexivity.
  - apply existsb_exists. exists (map lowerAscii w5). split; [assumption|].
    rewrite !app_assoc. rewrite <- (app_assoc _ (map lowerAscii w5)).
    apply includes_app.
Qed.

Lemma setAdd_fold_In u l :
  forall acc, In u (fold_left setAdd l acc) -> In u acc \/ In u l.
Proof.
  induction l as [|x l IH]; simpl; intros acc H; [now left|].
  apply IH in H as [H|H]; [|tauto].
  unfold setAdd in H. destruct (existsb (streq x) acc); [tauto|].
  apply in_app_iff in H as [H|[<-|[]]]; tauto.
Qed.

Lemma Matches_Group ic input k r st st' :
  Matches ic input (Group k r) st st' ->
  exists st1, Matches ic input r st st1
    /\ st' = MState (endIndex st1)
               ((k, substring input (endIndex st) (endIndex st1)) :: captures st1).
Proof. intros H. inv H. eauto. Qed.

(** No match of the pattern is empty, so the loop of [collectUrls] ends. *)
Lemma collectUrls_loop_ends text :
  exists ms, execAll true text mediaUrlRegex (S (length text)) 0 = Some ms.
Proof.
  apply execAll_ends; [|lia].
  apply Matches_progress. intros w H. now apply mediaUrlRegex_Lang in H.
Qed.

Lemma collectUrls_Lang text u :
  In u (collectUrls text) -> Lang true mediaUrlRegex u.
Proof.
  unfold collectUrls. destruct text as [|c text]; [intros []|].
  destruct (execAll _ _ _ _ _) as [ms|] eqn:E; [|intros []].
  intros H. apply setAdd_fold_In in H as [[]|H].
  apply list_elem_of_In, list_elem_of_omap in H as (m & Hm & Hcap).
  apply list_elem_of_In in Hm.
  pose proof (execAll_sound _ _ _ _ _ _ E m Hm) as HM.
  pose proof (Matches_Lang _ _ _ _ _ HM) as HL.
  apply Matches_Group in HM as (st1 & _ & Hst).
  destruct m as [j st']. simpl in *. subst st'.
  unfold capture in Hcap. simpl in Hcap, HL. injection Hcap as <-. exact HL.
Qed.

(** C6 (amended): every string [collectUrls] extracts begins, case
    ignored, with http:// or https://, holds no white space, quote or angle
    bracket, and contains one of the listed extensions, case ignored; the
    extension need not be at its end. *)
Theorem collectUrls_extracts text u :
  In u (collectUrls text) ->
  (startsWith (js "http://") (lowerCase u)
   || startsWith (js "https://") (lowerCase u)) = true
  /\ Forall (fun c => isUrlDelimiter c = false) u
  /\ existsb (fun ext => includes ext (lowerCase u)) mediaExtensions = true.
Proof.
  intros H. apply collectUrls_Lang in H.
  split; [|split].
  - now apply mediaUrlRegex_Lang in H.
  - eapply Lang_leaves; [apply mediaUrlRegex_leaves | exact H].
  - now apply mediaUrlRegex_Lang in H.
Qed.

Lemma collectUrls_extracts_witness :
  let u := js "https://cdn.example/live/index.m3u8?token=1" in
  (startsWith (js "http://") (lowerCase u)
   || startsWith (js "https://") (lowerCase u)) = true
  /\ Forall (fun c => isUrlDelimiter c = false) u
  /\ existsb (fun ext => includes ext (lowerCase u)) mediaExtensions = true.
Proof.
  apply (collectUrls_extracts
           (js "src='https://cdn.example/live/index.m3u8?token=1' type")).
  vm_compute. now left.
Defined.

(** C6 as stated fails: from the text below [collectUrls] extracts the
    whole of it, which holds neither http:// nor https:// in lower case and
    ends in none of the extensions. *)
Lemma collectUrls_not_suffix :
  ~ (forall u, In u (collectUrls (js "HTTP://a/v.mp4?t=1")) ->
       (includes (js "http://") u || includes (js "https://") u) = true
       /\ Forall (fun c => isUrlDelimiter c = false) u
       /\ existsb (fun ext => endsWith ext u) mediaExtensions = true).
Proof.
  intros H. destruct (H (js "HTTP://a/v.mp4?t=1")) as (H1 & _ & H3).
  - vm_compute. now left.
  - vm_compute in H1. discriminate.
Qed.

(** ** C7: the MAC addresses the handler accepts *)

Section MatchesInversion.
Variable ignoreCase : bool.
Variable input : jsstring.
Local Abbreviation Matches := (Matches ignoreCase input).

Lemma Matches_Seq r1 r2 st st' :
  Matches (Seq r1 r2) st st' ->
  exists st1, Matches r1 st st1 /\ Matches r2 st1 st'.
Proof. intros H. inv H. eauto. Qed.

Lemma Matches_Alt r1 r2 st st' :
  Matches (Alt r1 r2) st st' -> Matches r1 st st' \/ Matches r2 st st'.
Proof. intros H. inv H; auto. Qed.

Lemma Matches_Bol st st' : Matches Bol st st' -> st' = st /\ endIndex st = O.
Proof. intros H. inv H. auto. Qed.

Lemma Matches_Eol st st' :
  Matches Eol st st' -> st' = st /\ endIndex st = length input.
Proof. intros H. inv H. auto. Qed.

(** A pattern anchored at both ends matches the whole input or nothing. *)
Lemma Matches_anchored r j st' :
  Matches (Seq Bol (Seq r Eol)) (MState j []) st' -> Lang ignoreCase r input.
Proof.
  intros H. apply Matches_Seq in H as (st0 & H0 & H).
  apply Matches_Bol in H0 as [-> Hj]. simpl in Hj. subst j.
  apply Matches_Seq in H as (st1 & H1 & H).
  apply Matches_Eol in H as [-> He].
  apply Matches_Lang in H1. simpl in H1. rewrite He in H1.
  unfold substring in H1. simpl in H1.
  now rewrite Nat.sub_0_r, firstn_all in H1.
Qed.

Lemma test_true r :
  test ignoreCase input r = true <->
  exists j st', (j <= length input)%nat /\ Matches r (MState j []) st'.
Proof.
  unfold test. split.
  - destruct (exec ignoreCase input r 0) as [[j st']|] eqn:E; [|discriminate].
    intros _. apply exec_sound in E as [Hj HM]. exists j, st'. split; [lia|auto].
  - intros (j & st' & Hj & HM).
    destruct (exec ignoreCase input r 0) eqn:E; [reflexivity|].
    unfold exec in E. change (Nat.ltb (length input) 0) with false in E.
    exfalso. eapply searchFrom_complete; [| exact HM | exact E]. lia.
Qed.
End MatchesInversion.

Lemma classMatches_hex ch :
  classMatches false false [(48, 57); (65, 70); (97, 102)] ch = isHexDigit ch.
Proof.
  unfold classMatches, isHexDigit, inRanges. simpl.
  now rewrite !orb_false_r, orb_assoc.
Qed.

Lemma classMatches_sep ch :
  classMatches false false [(58, 58); (45, 45)] ch = isColonOrHyphen ch.
Proof.
  unfold classMatches, isColonOrHyphen, isColon, isHyphen, inRanges. simpl.
  apply eq_true_iff_eq.
  repeat rewrite ?orb_true_iff, ?andb_true_iff, ?N.leb_le, ?N.eqb_eq.
  lia.
Qed.

Lemma Lang_hex w :
  Lang false hexDigitClass w -> exists ch, w = [ch] /\ isHexDigit ch = true.
Proof.
  unfold hexDigitClass. intros H. inv H.
  rewrite classMatches_hex in *. eauto.
Qed.

Lemma Lang_sep w :
  Lang false (Cls false [(58, 58); (45, 45)]) w ->
  exists ch, w = [ch] /\ isColonOrHyphen ch = true.
Proof. intros H. inv H. rewrite classMatches_sep in *. eauto. Qed.

Ltac lang_split :=
  repeat match goal with
         | H : Lang _ (Seq _ _) _ |- _ => apply Lang_Seq in H as (? & ? & -> & ? & H)
         | H : Lang _ (Group _ _) _ |- _ => apply Lang_Group in H
         | H : Lang _ Eps _ |- _ => inv H
         | H : Lang _ Eol _ |- _ => inv H
         | H : Lang _ hexDigitClass _ |- _ => apply Lang_hex in H as (? & -> & H)
         | H : Lang _ (Cls false [(58, 58); (45, 45)]) _ |- _ =>
             apply Lang_sep in H as (? & -> & H)
         end.

Ltac use_true :=
  repeat match goal with
         | H : _ = true |- _ => rewrite H; clear H
         end.

Lemma macRegex_left_Lang w :
  Lang false
    (Seq (Times 5 (Group 1 (Seq (Times 2 hexDigitClass) (Cls false [(58, 58); (45, 45)]))))
       (Seq (Group 2 (Times 2 hexDigitClass)) Eol)) w ->
  sixPairs isColonOrHyphen w = true.
Proof.
  intros H. cbn [Times] in H. lang_split. simpl. use_true. reflexivity.
Qed.

Lemma macRegex_right_Lang w :
  Lang false (Group 3 (Times 12 hexDigitClass)) w -> twelveHex w = true.
Proof.
  intros H. cbn [Times] in H. lang_split. unfold twelveHex. simpl. use_true. reflexivity.
Qed.

Section MacMatches.
Variable input : jsstring.
Local Abbreviation Matches := (Matches false input).

Lemma Matches_hex i caps ch :
  input !! i = Some ch -> isHexDigit ch = true ->
  Matches hexDigitClass (MState i caps) (MState (S i) caps).
Proof.
  intros H1 H2. unfold hexDigitClass.
  apply (MCls false input false _ (MState i caps) ch); [exact H1|].
  now rewrite classMatches_hex.
Qed.

Lemma Matches_sep i caps ch :
  input !! i = Some ch -> isColonOrHyphen ch = true ->
  Matches (Cls false [(58, 58); (45, 45)]) (MState i caps) (MState (S i) caps).
Proof.
  intros H1 H2.
  apply (MCls false input false _ (MState i caps) ch); [exact H1|].
  now rewrite classMatches_sep.
Qed.

Lemma Matches_Group_intro k r i caps j caps' :
  Matches r (MState i caps) (MState j caps') ->
  Matches (Group k r) (MState i caps)
    (MState j ((k, substring input i j) :: caps')).
Proof. intros H. exact (MGroup false input k r _ _ H). Qed.
End MacMatches.

Ltac split_true :=
  repeat match goal with
         | H : _ && _ = true |- _ => apply andb_true_iff in H as [? ?]
         end.

Ltac build_match :=
  repeat first
    [ eapply MSeq
    | eapply Matches_Group_intro
    | eapply MEps
    | (eapply Matches_hex; [reflexivity | assumption])
    | (eapply Matches_sep; [reflexivity | assumption])
    | (eapply MBol; reflexivity)
    | (eapply MEol; reflexivity) ].

Lemma sixPairs_Matches s :
  sixPairs isColonOrHyphen s = true ->
  exists st', Matches false s macRegex (MState 0 []) st'.
Proof.
  intros H.
  do 17 (destruct s as [|? s]; [discriminate H|]).
  destruct s; [|discriminate H].
  simpl in H. split_true.
  eexists. unfold macRegex. apply MAltL. cbn [Times]. build_match.
Qed.

Lemma twelveHex_Matches s :
  twelveHex s = true ->
  exists st', Matches false s macRegex (MState 0 []) st'.
Proof.
  unfold twelveHex. intros H. apply andb_true_iff in H as [Hl H].
  do 12 (destruct s as [|? s]; [discriminate Hl|]).
  destruct s; [|discriminate Hl].
  simpl in H. split_true.
  eexists. unfold macRegex. apply MAltR. cbn [Times]. build_match.
Qed.

Lemma macRegex_test mac :
  test false mac macRegex = acceptedMacShape mac.
Proof.
  apply eq_true_iff_eq. rewrite test_true. unfold acceptedMacShape.
  rewrite orb_true_iff. split.
  - intros (j & st' & _ & HM). unfold macRegex in HM.
    apply Matches_Alt in HM as [HM|HM].
    + left. apply macRegex_left_Lang.
      pose proof HM as HM'. apply Matches_Seq in HM' as (st0 & H0 & H).
      apply Matches_Bol in H0 as [-> Hj]. simpl in Hj. subst j.
      apply Matches_Seq in H as (st1 & _ & H).
      apply Matches_Seq in H as (st2 & _ & H).
      apply Matches_Eol in H as [-> He].
      apply Matches_Seq in HM as (st0 & H0 & H).
      apply Matches_Bol in H0 as [-> _].
      apply Matches_Lang in H. simpl in H. rewrite He in H.
      unfold substring in H. simpl in H.
      now rewrite Nat.sub_0_r, firstn_all in H.
    + right. apply macRegex_right_Lang. eapply Matches_anchored. exact HM.
  - intros [H|H]; [apply sixPairs_Matches in H | apply twelveHex_Matches in H];
      destruct H as [st' H]; exists O, st'; (split; [lia | exact H]).
Qed.

(** C7 (amended): a non-empty [mac] parameter is accepted exactly when it
    is six pairs of hexadecimal digits with a colon or a hyphen between
    neighbouring pairs, each separator chosen on its own, or twelve
    hexadecimal digits; every other non-empty value is answered with
    status 400 and the error [Invalid MAC address format]. *)
Theorem channelsMac_validation mac :
  mac <> [] ->
  (acceptedMacShape mac = true ->
   exists playlistUrl, channelsMacStep (Some mac) = MacPlaylist playlistUrl)
  /\ (acceptedMacShape mac = false ->
      channelsMacStep (Some mac) = MacRejected 400 (js "Invalid MAC address format")).
Proof.
  intros Hne. destruct mac as [|c m]; [congruence|].
  unfold channelsMacStep. rewrite macRegex_test.
  split; intros ->; eauto.
Qed.

Lemma channelsMac_validation_witness :
  channelsMacStep (Some (js "not-a-mac"))
  = MacRejected 400 (js "Invalid MAC address format").
Proof.
  apply (proj2 (channelsMac_validation (js "not-a-mac") ltac:(discriminate))).
  reflexivity.
Defined.

(** C7 as stated fails: colons and hyphens mixed in one address are
    accepted, though the value has none of the three shapes. *)
Lemma channelsMac_mixed_separators :
  claimedMacShape (js "00:11-22:33-44:55") = false
  /\ channelsMacStep (Some (js "00:11-22:33-44:55"))
     = MacPlaylist (js "http://sm4k.688.org/get.php?username=001122334455&password=001122334455&type=m3u_plus&output=ts").
Proof. split; vm_compute; reflexivity. Qed.

(** ** C3: the metadata cache *)

Section CacheFacts.
Variable Value : Type.

(** C3 (amended): an entry inserted at time [T] is returned unchanged by
    every read up to and including [T + TTL], and the map is left as it
    is; a read after [T + TTL] reports it absent and deletes it. *)
Theorem cache_ttl (T now : Z) (key : jsstring) (v : Value)
    (metaCache : gmap jsstring (CacheEntry Value)) :
  let stored := setCache Value T key v metaCache in
  ((now <= T + CACHE_TTL_MS)%Z -> getCache Value now key stored = (Some v, stored))
  /\ ((now > T + CACHE_TTL_MS)%Z ->
      getCache Value now key stored = (None, delete key stored)
      /\ delete key stored !! key = None).
Proof.
  simpl. unfold getCache, setCache. rewrite lookup_insert_eq. simpl.
  split; intros H.
  - destruct (Z.gtb_spec now (T + CACHE_TTL_MS)); [lia | reflexivity].
  - destruct (Z.gtb_spec now (T + CACHE_TTL_MS)); [|lia].
    split; [reflexivity | apply lookup_delete_eq].
Qed.
End CacheFacts.

Lemma cache_ttl_witness :
  getCache N 1059999 (js "tv:popular") (setCache N 1000000 (js "tv:popular") 7 ∅)
  = (Some 7, setCache N 1000000 (js "tv:popular") 7 ∅)
  /\ getCache N 1060001 (js "tv:popular") (setCache N 1000000 (js "tv:popular") 7 ∅)
     = (None, delete (js "tv:popular") (setCache N 1000000 (js "tv:popular") 7 ∅)).
Proof.
  split.
  - apply (proj1 (cache_ttl N 1000000 1059999 (js "tv:popular") 7 ∅)).
    unfold CACHE_TTL_MS. lia.
  - apply (proj2 (cache_ttl N 1000000 1060001 (js "tv:popular") 7 ∅)).
    unfold CACHE_TTL_MS. lia.
Defined.

(** C3 as stated fails at the boundary: a read at exactly [T + TTL] still
    returns the entry. *)
Lemma cache_read_at_expiry :
  (1060000 >= 1000000 + CACHE_TTL_MS)%Z
  /\ fst (getCache N 1060000 (js "tv:popular")
            (setCache N 1000000 (js "tv:popular") 7 ∅)) = Some 7.
Proof. split; [unfold CACHE_TTL_MS; lia | vm_compute; reflexivity]. Qed.

(** ** C10: what the relay takes for a manifest *)

Section RelayFacts.
Variable URL : Type.
Variable newURL : jsstring -> option URL.
Variable newURLWithBase : jsstring -> URL -> option URL.
Variable toString : URL -> jsstring.
Variable Body : Type.
Variable text : Body -> jsstring.

(** C10: the markers are looked for as they are written, case included.
    A content type that holds [application/x-mpegurl] in lower case and
    none of the three markers is not a manifest: the upstream body is
    piped through as it is, under the content type the upstream gave,
    and the rewriter is not run. *)
Theorem lowercase_mpegurl_is_piped target contentType (upstream : Body) :
  includes (js "application/x-mpegurl") contentType = true ->
  includes (js "application/vnd.apple.mpegurl") contentType = false ->
  includes (js "application/x-mpegURL") contentType = false ->
  includes (js "application/octet-stream") contentType = false ->
  isManifest contentType = false
  /\ relayUpstream URL newURL newURLWithBase toString Body text
       target (Some contentType) upstream
     = Ok {| headers := [(js "Access-Control-Allow-Origin", js "*");
                         (js "content-type", contentType);
                         (js "cache-control", js "no-store")];
             payload := Piped Body upstream |}.
Proof.
  intros Hlow H1 H2 H3.
  assert (Hm : isManifest contentType = false).
  { unfold isManifest. now rewrite H1, H2, H3. }
  split; [exact Hm|].
  unfold relayUpstream.
  destruct contentType as [|c ct]; [discriminate Hlow|].
  now rewrite Hm.
Qed.
End RelayFacts.

Lemma lowercase_mpegurl_is_piped_witness :
  isManifest (js "application/x-mpegurl; charset=utf-8") = false
  /\ relayUpstream unit (fun _ => None) (fun _ _ => None) (fun _ => [])
       jsstring (fun b => b)
       (js "http://origin.example/live.m3u8")
       (Some (js "application/x-mpegurl; charset=utf-8"))
       (js "#EXTM3U")
     = Ok {| headers := [(js "Access-Control-Allow-Origin", js "*");
                         (js "content-type", js "application/x-mpegurl; charset=utf-8");
                         (js "cache-control", js "no-store")];
             payload := Piped jsstring (js "#EXTM3U") |}.
Proof.
  apply lowercase_mpegurl_is_piped; reflexivity.
Defined.

(** ** C4: which error the lobster resolver surfaces *)

Section LobsterFacts.
Variable number : Type.
Variable numberTruthy : number -> bool.
Variable JSON_parse : jsstring -> option (JSON number).
Variable TMDB_TOKEN : option jsstring.
Variable runCommand : jsstring -> list jsstring -> result jsstring.
Variable vidsrcLookup : jsstring -> jsstring -> jsstring -> result (ResolvedTitle number).

Local Abbreviation resolveWithLobster :=
  (resolveWithLobster number numberTruthy JSON_parse TMDB_TOKEN runCommand vidsrcLookup).
Local Abbreviation resolveWithVidsrc :=
  (resolveWithVidsrc number TMDB_TOKEN vidsrcLookup).

Local Abbreviation lobsterUrls := (lobsterUrls number JSON_parse).

(** C4: when the subprocess fails with [E1] and the VidSrc fallback
    fails with [E2], [resolveWithLobster] throws [E1]; when the
    subprocess succeeds without any URL and the fallback, which then
    runs, fails with [E2], the error thrown is a new one built from the
    message of [E2]. *)
Theorem lobster_error_precedence query quality type E2 :
  resolveWithVidsrc query (js "1") type = Throw E2 ->
  (forall E1,
      runCommand (js "lobster") (lobsterArgs query quality) = Throw E1 ->
      resolveWithLobster query quality type = Throw E1)
  /\ (forall stdout,
         runCommand (js "lobster") (lobsterArgs query quality) = Ok stdout ->
         lobsterUrls stdout = [] ->
         isSet TMDB_TOKEN = true ->
         resolveWithLobster query quality type
         = Throw (Error (js "lobster returned no URLs; fallback failed: "
                         ++ message E2))).
Proof.
  intros Hfb. unfold resolveWithLobster. split.
  - intros E1 Hrun. rewrite Hrun. cbv beta iota zeta.
    change (lobsterUrls []) with (@nil jsstring). cbv beta iota.
    destruct (isSet TMDB_TOKEN); cbn [negb default]; [|reflexivity].
    now rewrite Hfb.
  - intros stdout Hrun Hnone Htoken. rewrite Hrun. cbv beta iota zeta.
    rewrite Hnone, Htoken. cbn [negb default].
    now rewrite Hfb.
Qed.
End LobsterFacts.

Lemma lobster_error_precedence_witness :
  resolveWithLobster unit (fun _ => true) (fun _ => None) (Some (js "token"))
    (fun _ _ => Throw (Error (js "lobster exited with code 1")))
    (fun _ _ _ => Throw (Error (js "No matching title found")))
    (js "dune") None (js "movies")
  = Throw (Error (js "lobster exited with code 1")).
Proof.
  apply (proj1 (lobster_error_precedence unit (fun _ => true) (fun _ => None)
                  (Some (js "token"))
                  (fun _ _ => Throw (Error (js "lobster exited with code 1")))
                  (fun _ _ _ => Throw (Error (js "No matching title found")))
                  (js "dune") None (js "movies")
                  (Error (js "No matching title found")) eq_refl)).
  reflexivity.
Defined.

(** ** Percent-encoding and its inverse *)

Ltac Zify.zify_post_hook ::= Z.to_euclidean_division_equations.

Ltac case_leb :=
  repeat match goal with
         | |- context [?x <=? ?y] => destruct (N.leb_spec x y); cbn [andb orb negb]
         | |- context [?x <? ?y] => destruct (N.ltb_spec x y); cbn [andb orb negb]
         | |- context [?x =? ?y] => destruct (N.eqb_spec x y); cbn [andb orb negb]
         end.

Lemma hexValue_hexDigit n : n < 16 -> hexValue (hexDigit n) = Some n.
Proof.
  intros H. unfold hexValue, hexDigit.
  destruct (N.ltb_spec n 10); case_leb; try lia; f_equal; lia.
Qed.

Lemma parseHexOctet_percent b :
  b < 256 -> parseHexOctet (hexDigit (b / 16)) (hexDigit (b mod 16)) = Some b.
Proof.
  intros H. unfold parseHexOctet.
  rewrite !hexValue_hexDigit by lia. f_equal. lia.
Qed.

Lemma hexDigit_unreserved n : n < 16 -> isUnreserved (hexDigit n) = true.
Proof.
  intros H. unfold isUnreserved, isAlnum, hexDigit.
  apply orb_true_iff. left.
  destruct (N.ltb_spec n 10); case_leb; try reflexivity; lia.
Qed.

Lemma unreserved_not_percent c : isUnreserved c = true -> (c =? 37) = false.
Proof.
  intros H. destruct (N.eqb_spec c 37) as [->|]; [discriminate H | reflexivity].
Qed.

(** The octets of a code point are octets. *)
Lemma utf8Encode_octets cp :
  cp <= 1114111 -> Forall (fun b => b < 256) (utf8Encode cp).
Proof.
  intros H. unfold utf8Encode. case_leb; repeat constructor; lia.
Qed.

Lemma readContinuation_escaped bs :
  Forall (fun b => b < 256) bs ->
  forall rest,
    readContinuation (length bs) (flat_map percentOctet bs ++ rest) = Some (bs, rest).
Proof.
  induction 1 as [|b bs Hb _ IH]; intros rest; simpl; [reflexivity|].
  now rewrite parseHexOctet_percent, IH.
Qed.

(** One escaped code point, read back by one turn of the decoding loop. *)
Lemma decodeLoop_escaped cp rest f :
  cp <= 1114111 -> negb (isHighSurrogate cp || isLowSurrogate cp) = true ->
  decodeLoop (S f) (escapeCodePoint cp ++ rest)
  = app (utf16Encode cp) <$> decodeLoop f rest.
Proof.
  intros Hmax Hs.
  apply negb_true_iff, orb_false_iff in Hs as [Hh Hl].
  unfold isHighSurrogate, isLowSurrogate in *.
  apply andb_false_iff in Hh, Hl. rewrite !N.leb_gt in *.
  unfold escapeCodePoint, utf8Encode.
  destruct (N.ltb_spec cp 128); [|destruct (N.ltb_spec cp 2048);
    [|destruct (N.ltb_spec cp 65536)]].
  all: cbn [flat_map app percentOctet decodeLoop N.eqb Pos.eqb].
  all: rewrite parseHexOctet_percent by lia.
  - unfold leadingOnes, utf16Encode. case_leb; try lia. reflexivity.
  - replace (leadingOnes (192 + cp / 64)) with 2%nat
      by (unfold leadingOnes; case_leb; first [reflexivity | lia]).
    cbn [readContinuation]. rewrite parseHexOctet_percent by lia.
    replace (utf8Decode _) with (Some cp)
      by (unfold utf8Decode, isContinuation; cbv zeta; case_leb;
          first [lia | f_equal; lia]).
    unfold utf16Encode. case_leb; [reflexivity | lia].
  - replace (leadingOnes (224 + cp / 4096)) with 3%nat
      by (unfold leadingOnes; case_leb; first [reflexivity | lia]).
    cbn [readContinuation]. rewrite !parseHexOctet_percent by lia.
    replace (utf8Decode _) with (Some cp)
      by (unfold utf8Decode, isContinuation; cbv zeta; case_leb;
          first [lia | f_equal; lia]).
    unfold utf16Encode. case_leb; [reflexivity | lia].
  - replace (leadingOnes (240 + cp / 262144)) with 4%nat
      by (unfold leadingOnes; case_leb; first [reflexivity | lia]).
    cbn [readContinuation]. rewrite !parseHexOctet_percent by lia.
    replace (utf8Decode _) with (Some cp)
      by (unfold utf8Decode, isContinuation; cbv zeta; case_leb;
          first [lia | f_equal; lia]).
    reflexivity.
Qed.

Lemma escapeCodePoint_length cp : (3 <= length (escapeCodePoint cp))%nat.
Proof.
  unfold escapeCodePoint, utf8Encode. case_leb; simpl; lia.
Qed.

Lemma pairToCodePoint_range hi lo :
  isHighSurrogate hi = true -> isLowSurrogate lo = true ->
  65536 <= pairToCodePoint hi lo <= 1114111
  /\ utf16Encode (pairToCodePoint hi lo) = [hi; lo].
Proof.
  unfold isHighSurrogate, isLowSurrogate, pairToCodePoint, utf16Encode.
  intros H1 H2. apply andb_true_iff in H1 as [H1 H1'], H2 as [H2 H2'].
  apply N.leb_le in H1, H1', H2, H2'.
  split; [lia|]. case_leb; [lia|]. f_equal; [lia | f_equal; lia].
Qed.

(** Decoding undoes encoding, with any fuel that covers the encoded text. *)
Lemma decode_encode n :
  forall s e, (length s <= n)%nat -> encode isUnreserved s = Some e ->
  forall fuel, (length e <= fuel)%nat -> decodeLoop fuel e = Some s.
Proof.
  induction n as [|n IH]; intros s e Hn He fuel Hf.
  - destruct s; [|simpl in Hn; lia]. injection He as <-. now destruct fuel.
  - destruct s as [|c s]; [injection He as <-; now destruct fuel|].
    simpl in Hn, He.
    destruct (isUnreserved c) eqn:Hu.
    { destruct (encode isUnreserved s) as [e'|] eqn:E; [|discriminate].
      injection He as <-. simpl in Hf. destruct fuel as [|f]; [lia|].
      simpl. rewrite (unreserved_not_percent _ Hu).
      rewrite (IH s e') by (auto; lia). reflexivity. }
    destruct (isLowSurrogate c) eqn:Hl; [discriminate|].
    destruct (isHighSurrogate c) eqn:Hh.
    { destruct s as [|d s]; [discriminate|].
      destruct (isLowSurrogate d) eqn:Hd; [|discriminate].
      destruct (encode isUnreserved s) as [e'|] eqn:E; [|discriminate].
      injection He as <-.
      destruct (pairToCodePoint_range c d Hh Hd) as [Hr Hp].
      pose proof (escapeCodePoint_length (pairToCodePoint c d)) as Hlen.
      rewrite length_app in Hf. destruct fuel as [|f]; [lia|].
      rewrite decodeLoop_escaped.
      - rewrite Hp. simpl in Hn. rewrite (IH s e') by (auto; lia). reflexivity.
      - lia.
      - unfold isHighSurrogate, isLowSurrogate. case_leb; try reflexivity; lia. }
    destruct (isCodeUnit c) eqn:Hc; [|discriminate].
    destruct (encode isUnreserved s) as [e'|] eqn:E; [|discriminate].
    injection He as <-. unfold isCodeUnit in Hc. apply N.ltb_lt in Hc.
    pose proof (escapeCodePoint_length c) as Hlen.
    rewrite length_app in Hf. destruct fuel as [|f]; [lia|].
    rewrite decodeLoop_escaped.
    + unfold utf16Encode. destruct (N.ltb_spec c 65536); [|lia].
      rewrite (IH s e') by (auto; lia). reflexivity.
    + lia.
    + now rewrite Hh, Hl.
Qed.

Lemma decodeURIComponent_encodeURIComponent s e :
  encodeURIComponent s = Ok e -> decodeURIComponent e = Ok s.
Proof.
  unfold encodeURIComponent, decodeURIComponent.
  destruct (encode isUnreserved s) as [e'|] eqn:E; [|discriminate].
  intros [= <-]. now rewrite (decode_encode (length s) s e').
Qed.

Lemma percentOctet_chars b :
  b < 256 -> Forall (fun c => isEncodedChar c = true) (percentOctet b).
Proof.
  intros H. unfold percentOctet, isEncodedChar.
  repeat constructor; rewrite ?hexDigit_unreserved by lia; reflexivity.
Qed.

Lemma escapeCodePoint_chars cp :
  cp <= 1114111 -> Forall (fun c => isEncodedChar c = true) (escapeCodePoint cp).
Proof.
  intros H. unfold escapeCodePoint.
  pose proof (utf8Encode_octets cp H) as Ho.
  induction Ho; cbn [flat_map]; [constructor|].
  apply Forall_app. split; [now apply percentOctet_chars | assumption].
Qed.

(** What [encodeURIComponent] puts out holds unreserved characters and
    percent signs only. *)
Lemma encode_chars n :
  forall s e, (length s <= n)%nat -> encode isUnreserved s = Some e ->
  Forall (fun c => isEncodedChar c = true) e.
Proof.
  induction n as [|n IH]; intros s e Hn He.
  - destruct s; [|simpl in Hn; lia]. injection He as <-. constructor.
  - destruct s as [|c s]; [injection He as <-; constructor|].
    simpl in Hn, He.
    destruct (isUnreserved c) eqn:Hu.
    { destruct (encode isUnreserved s) as [e'|] eqn:E; [|discriminate].
      injection He as <-. constructor.
      - unfold isEncodedChar. now rewrite Hu.
      - apply (IH s); [lia | assumption]. }
    destruct (isLowSurrogate c) eqn:Hl; [discriminate|].
    destruct (isHighSurrogate c) eqn:Hh.
    { destruct s as [|d s]; [discriminate|].
      destruct (isLowSurrogate d) eqn:Hd; [|discriminate].
      destruct (encode isUnreserved s) as [e'|] eqn:E; [|discriminate].
      injection He as <-.
      destruct (pairToCodePoint_range c d Hh Hd) as [Hr _].
      apply Forall_app. split; [apply escapeCodePoint_chars; lia|].
      simpl in Hn. apply (IH s); [lia | assumption]. }
    destruct (isCodeUnit c) eqn:Hc; [|discriminate].
    destruct (encode isUnreserved s) as [e'|] eqn:E; [|discriminate].
    injection He as <-. unfold isCodeUnit in Hc. apply N.ltb_lt in Hc.
    apply Forall_app. split; [apply escapeCodePoint_chars; lia|].
    apply (IH s); [lia | assumption].
Qed.

Lemma encodeURIComponent_chars s e :
  encodeURIComponent s = Ok e -> Forall (fun c => isEncodedChar c = true) e.
Proof.
  unfold encodeURIComponent.
  destruct (encode isUnreserved s) as [e'|] eqn:E; [|discriminate].
  intros [= <-]. now apply (encode_chars (length s) s).
Qed.

(** ** The relay parameter read back *)

Lemma streq_refl s : streq s s = true.
Proof. induction s as [|c s IH]; simpl; [reflexivity|]. now rewrite N.eqb_refl. Qed.

Lemma streq_eq a b : streq a b = true -> a = b.
Proof.
  revert b. induction a as [|x a IH]; intros [|y b]; simpl; try discriminate; auto.
  intros H. apply andb_true_iff in H as [H1 H2].
  apply N.eqb_eq in H1. subst. f_equal. auto.
Qed.

Lemma afterFirst_app c p r :
  Forall (fun x => (x =? c) = false) p -> afterFirst c (p ++ c :: r) = Some r.
Proof.
  induction 1 as [|x p Hx _ IH]; simpl; [now rewrite N.eqb_refl|].
  now rewrite Hx.
Qed.

Lemma beforeFirst_app c p r :
  Forall (fun x => (x =? c) = false) p -> beforeFirst c (p ++ c :: r) = p.
Proof.
  induction 1 as [|x p Hx _ IH]; simpl; [now rewrite N.eqb_refl|].
  now rewrite Hx, IH.
Qed.

Lemma beforeFirst_none c s :
  Forall (fun x => (x =? c) = false) s -> beforeFirst c s = s.
Proof. induction 1 as [|x p Hx _ IH]; simpl; [reflexivity|]. now rewrite Hx, IH. Qed.

Lemma splitChar_none c s :
  Forall (fun x => (x =? c) = false) s -> splitChar c s = [s].
Proof. induction 1 as [|x p Hx _ IH]; simpl; [reflexivity|]. now rewrite Hx, IH. Qed.

Lemma plusToSpace_none s :
  Forall (fun x => (x =? 43) = false) s -> plusToSpace s = s.
Proof.
  unfold plusToSpace. induction 1 as [|x p Hx _ IH]; simpl; [reflexivity|].
  now rewrite Hx, IH.
Qed.

Lemma encoded_ne k e :
  isEncodedChar k = false ->
  Forall (fun c => isEncodedChar c = true) e ->
  Forall (fun x => (x =? k) = false) e.
Proof.
  intros Hk He. eapply Forall_impl; [exact He|]. intros x Hx. simpl in Hx.
  destruct (N.eqb_spec x k) as [->|]; [congruence | reflexivity].
Qed.

(** The [url] parameter of a relay URL is the decoding of what follows the
    prefix. *)
Lemma queryParam_relay e :
  Forall (fun c => isEncodedChar c = true) e ->
  queryParam (js "url") (relayPrefix ++ e) = Some (decodeURIComponent e).
Proof.
  intros He. unfold queryParam.
  change (relayPrefix ++ e) with (js "/api/stream" ++ 63 :: (js "url" ++ 61 :: e)).
  rewrite afterFirst_app by (repeat constructor).
  assert (H35 : Forall (fun x => (x =? 35) = false) (js "url" ++ 61 :: e)).
  { apply Forall_app. split; [repeat constructor|].
    constructor; [reflexivity | now apply encoded_ne]. }
  assert (H38 : Forall (fun x => (x =? 38) = false) (js "url" ++ 61 :: e)).
  { apply Forall_app. split; [repeat constructor|].
    constructor; [reflexivity | now apply encoded_ne]. }
  rewrite (beforeFirst_none _ _ H35), (splitChar_none _ _ H38).
  cbn [findParam].
  rewrite beforeFirst_app by (repeat constructor).
  rewrite streq_refl.
  rewrite afterFirst_app by (repeat constructor).
  cbn [default]. now rewrite plusToSpace_none by (now apply encoded_ne).
Qed.

(** ** Lines and trimming *)

Lemma trimStart_Forall (P : N -> Prop) s : Forall P s -> Forall P (trimStart s).
Proof.
  induction 1 as [|c s Hc Hs IH]; simpl; [constructor|].
  destruct (isWhiteSpace c); [assumption | now constructor].
Qed.

Lemma trim_Forall (P : N -> Prop) s : Forall P s -> Forall P (trim s).
Proof.
  intros H. unfold trim, trimEnd.
  apply Forall_rev, trimStart_Forall, Forall_rev, trimStart_Forall, H.
Qed.

Lemma splitLines_nonempty s : splitLines s <> [].
Proof.
  destruct s as [|c s]; simpl; [discriminate|].
  destruct (c =? 10); [discriminate|].
  destruct s as [|d s]; [discriminate|].
  destruct ((c =? 13) && (d =? 10)); [discriminate|].
  destruct (splitLines (d :: s)); discriminate.
Qed.

(** A code unit that is neither a line feed nor a carriage return joins
    the first line of what follows. *)
Lemma splitLines_cons c s :
  (c =? 10) = false -> (c =? 13) = false ->
  splitLines (c :: s)
  = match splitLines s with
    | l :: ls => (c :: l) :: ls
    | [] => [[c]]
    end.
Proof.
  intros H10 H13. cbn [splitLines]. rewrite H10.
  destruct s as [|d s]; [reflexivity|]. now rewrite H13.
Qed.

Lemma splitLines_Forall (P : N -> Prop) n :
  forall s, (length s <= n)%nat -> Forall P s -> Forall (Forall P) (splitLines s).
Proof.
  induction n as [|n IH]; intros s Hn Hs.
  - destruct s; [|simpl in Hn; lia]. repeat constructor.
  - destruct s as [|c s]; [repeat constructor|].
    simpl in Hn. inversion Hs as [|? ? Hc Hs']; subst.
    cbn [splitLines]. destruct (c =? 10).
    { constructor; [constructor | apply IH; [lia | assumption]]. }
    destruct s as [|d s]; [repeat constructor; assumption|].
    destruct ((c =? 13) && (d =? 10)).
    { inversion Hs'; subst. simpl in Hn.
      constructor; [constructor | apply IH; [lia | assumption]]. }
    assert (Hr : Forall (Forall P) (splitLines (d :: s))) by (apply IH; [simpl in *; lia | assumption]).
    destruct (splitLines (d :: s)) as [|l ls]; [repeat constructor; assumption|].
    inversion Hr; subst. constructor; [now constructor | assumption].
Qed.

(** ** The playlist parser, line by line *)

Lemma mapResult_map {A B C} (f : A -> B) (g : B -> result C) xs :
  mapResult g (map f xs) = mapResult (fun x => g (f x)) xs.
Proof. induction xs as [|x xs IH]; simpl; [reflexivity|]. now rewrite IH. Qed.

Lemma startsWith_nil_false p : p <> [] -> startsWith p [] = false.
Proof. destruct p; [congruence | reflexivity]. Qed.

(** The loop pushes, in order, the channel of the pending record and then
    the channels of the #EXTINF lines still to come that a URL line
    follows; it throws where the first of them throws. *)
Lemma parseLines_pairs lines :
  forall current channels,
    parseLines lines current channels
    = (rest ← mapResult (fun r => r)
                (pendingChannel current lines ++ map channelOf (extinfPairs lines));
       Ok (channels ++ rest)).
Proof.
  induction lines as [|l lines IH]; intros current channels.
  - unfold pendingChannel. destruct current; simpl; now rewrite app_nil_r.
  - cbn [parseLines extinfPairs]. unfold pendingChannel. cbn [nextUrlLine].
    unfold isBlankLine, isExtinfLine, isCommentLine.
    destruct (trim l) as [|c t] eqn:Et.
    + cbn [streq]. rewrite startsWith_nil_false by discriminate.
      rewrite IH. reflexivity.
    + cbn [streq]. destruct (startsWith (js "#EXTINF") (c :: t)) eqn:Ee.
      * rewrite IH. unfold pendingChannel, channelOf.
        destruct current; destruct (nextUrlLine lines); reflexivity.
      * destruct (startsWith (js "#") (c :: t)) eqn:Ec; cbn [negb].
        -- rewrite IH. reflexivity.
        -- destruct current as [cur|].
           ++ cbn [app mapResult]. destruct (closeChannel cur (c :: t)) as [ch|e];
                [|reflexivity].
              rewrite IH. unfold pendingChannel. cbn [app].
              change (y ← Ok ch; ys ← ?m; Ok (y :: ys)) with (ys ← m; Ok (ch :: ys)).
              destruct (mapResult _ _) as [rest|e]; [|reflexivity].
              simpl. now rewrite <- app_assoc.
           ++ rewrite IH. reflexivity.
Qed.

Lemma parseM3U_pairs content :
  parseM3U content = mapResult channelOf (extinfPairs (splitLines content)).
Proof.
  unfold parseM3U. rewrite parseLines_pairs. unfold pendingChannel. cbn [app].
  rewrite mapResult_map. destruct (mapResult _ _); reflexivity.
Qed.

Lemma mapResult_Forall2 {A B} (f : A -> result B) xs :
  forall ys, mapResult f xs = Ok ys -> Forall2 (fun x y => f x = Ok y) xs ys.
Proof.
  induction xs as [|x xs IH]; simpl; intros ys H.
  - injection H as <-. constructor.
  - destruct (f x) as [y|] eqn:E; [|discriminate]. simpl in H.
    destruct (mapResult f xs) as [ys'|]; [|discriminate]. simpl in H.
    injection H as <-. constructor; auto.
Qed.

Lemma Forall2_In_r {A B} (R : A -> B -> Prop) xs ys y :
  Forall2 R xs ys -> In y ys -> exists x, In x xs /\ R x y.
Proof.
  induction 1 as [|x y' xs ys Hr _ IH]; [intros []|].
  intros [<-|Hin]; [exists x; simpl; auto|].
  destruct (IH Hin) as (x' & ? & ?). exists x'. simpl. auto.
Qed.

Lemma mapResult_total {A B} (f : A -> result B) xs :
  Forall (fun x => exists y, f x = Ok y) xs -> exists ys, mapResult f xs = Ok ys.
Proof.
  induction 1 as [|x xs [y Hy] _ [ys IH]]; simpl; [eauto|].
  rewrite Hy, IH. simpl. eauto.
Qed.

(** ** Well-formed text stays well formed *)





Lemma trimStart_split s :
  exists ws, s = ws ++ trimStart s /\ Forall (fun c => isWhiteSpace c = true) ws.
Proof.
  induction s as [|c s (ws & Hs & Hws)]; [exists []; split; [reflexivity | constructor]|].
  cbn [trimStart]. destruct (isWhiteSpace c) eqn:Hw.
  - exists (c :: ws). split; [simpl; now f_equal | now constructor].
  - exists []. split; [reflexivity | constructor].
Qed.

Lemma trimEnd_split s :
  exists ws, s = trimEnd s ++ ws /\ Forall (fun c => isWhiteSpace c = true) ws.
Proof.
  destruct (trimStart_split (rev s)) as (ws & Hs & Hws).
  exists (rev ws). split; [|now apply Forall_rev].
  unfold trimEnd. rewrite <- rev_app_distr, <- Hs. now rewrite rev_involutive.
Qed.





(** ** The channels of a playlist *)

Lemma key_streamUrl_url : js "streamUrl" <> js "url".
Proof. intros H. vm_compute in H. discriminate. Qed.

Lemma key_streamUrl_name : js "streamUrl" <> js "name".
Proof. intros H. vm_compute in H. discriminate. Qed.

Lemma key_url_name : js "url" <> js "name".
Proof. intros H. vm_compute in H. discriminate. Qed.

Lemma closeChannel_inv cur u ch :
  closeChannel cur u = Ok ch ->
  exists e, encodeURIComponent u = Ok e
            /\ ch = <[js "streamUrl" := relayPrefix ++ e]> (<[js "url" := u]> cur).
Proof.
  unfold closeChannel. destruct (encodeURIComponent u) as [e|]; [|discriminate].
  simpl. intros [= <-]. eauto.
Qed.

Lemma closeChannel_name cur u ch :
  closeChannel cur u = Ok ch -> ch !! js "name" = cur !! js "name".
Proof.
  intros H. apply closeChannel_inv in H as (e & _ & ->).
  rewrite lookup_insert_ne by apply key_streamUrl_name.
  now rewrite lookup_insert_ne by apply key_url_name.
Qed.





(** C5: for every channel [parseM3U] returns, the [url] parameter of its
    [streamUrl], URL-decoded, is the channel's [url]. *)
Theorem streamUrl_roundtrip content channels ch :
  parseM3U content = Ok channels -> In ch channels ->
  exists url streamUrl,
    ch !! js "url" = Some url
    /\ ch !! js "streamUrl" = Some streamUrl
    /\ streamUrl = relayPrefix ++ default [] (encode isUnreserved url)
    /\ queryParam (js "url") streamUrl = Some (Ok url).
Proof.
  rewrite parseM3U_pairs. intros H Hin. apply mapResult_Forall2 in H.
  destruct (Forall2_In_r _ _ _ _ H Hin) as (p & _ & Hp). simpl in Hp.
  apply closeChannel_inv in Hp as (e & He & ->).
  exists (snd p), (relayPrefix ++ e). split; [|split; [|split]].
  - rewrite lookup_insert_ne by apply key_streamUrl_url. apply lookup_insert_eq.
  - apply lookup_insert_eq.
  - unfold encodeURIComponent in He.
    destruct (encode isUnreserved p.2); [|discriminate]. now injection He as <-.
  - rewrite queryParam_relay by (eapply encodeURIComponent_chars; exact He).
    f_equal. now apply decodeURIComponent_encodeURIComponent.
Qed.

Lemma streamUrl_roundtrip_witness :
  exists channels,
    parseM3U (js "#EXTINF:-1,Caf" ++ [233] ++ [10] ++ js "http://example.com/a b.ts")
    = Ok channels
    /\ forall ch, In ch channels ->
         exists url streamUrl,
           ch !! js "url" = Some url
           /\ ch !! js "streamUrl" = Some streamUrl
           /\ streamUrl = relayPrefix ++ default [] (encode isUnreserved url)
           /\ queryParam (js "url") streamUrl = Some (Ok url).
Proof.
  assert (E : exists channels,
             parseM3U (js "#EXTINF:-1,Caf" ++ [233] ++ [10]
                       ++ js "http://example.com/a b.ts") = Ok channels)
    by (vm_compute; eauto).
  destruct E as [channels E]. exists channels. split; [exact E|].
  intros ch Hin. exact (streamUrl_roundtrip _ channels ch E Hin).
Defined.

Lemma splitChar_nonempty c s : splitChar c s <> [].
Proof.
  destruct s as [|d s]; simpl; [discriminate|].
  destruct (d =? c); [discriminate|]. destruct (splitChar c s); discriminate.
Qed.

Lemma commas_zero s :
  commas s = O -> Forall (fun x => (x =? 44) = false) s.
Proof.
  unfold commas. induction s as [|c s IH]; [constructor|]. cbn [List.filter].
  destruct (44 =? c) eqn:E; cbn [length]; [discriminate|].
  intros H. constructor; [now rewrite N.eqb_sym | auto].
Qed.

(** With at most one comma on the line, the second piece of the split is
    all that follows the comma. *)
Lemma extinfTitle_afterFirstComma line :
  (commas line <= 1)%nat -> extinfTitle line = afterFirstComma line.
Proof.
  unfold extinfTitle, afterFirstComma, splitCharLimit, commas.
  induction line as [|c line IH]; [reflexivity|]. cbn [List.filter splitChar afterFirst].
  rewrite (N.eqb_sym 44 c). destruct (c =? 44).
  - cbn [length]. intros H.
    rewrite splitChar_none by (apply commas_zero; unfold commas; lia).
    reflexivity.
  - intros H. specialize (IH H).
    pose proof (splitChar_nonempty 44 line) as Hne.
    destruct (splitChar 44 line) as [|l ls]; [congruence|].
    destruct ls; exact IH.
Qed.

(** C8 (amended): for an #EXTINF line that opens a channel, has no
    attribute called [name] and at most one comma, the channel's name is
    the text that follows the comma, trimmed, and [Unknown] when there is
    no comma or nothing after it. *)
Theorem extinf_name_from_title content channels :
  parseM3U content = Ok channels ->
  Forall2
    (fun p ch =>
       parseAttributes (fst p) !! js "name" = None ->
       (commas (fst p) <= 1)%nat ->
       ch !! js "name"
       = Some (trim (match afterFirstComma (fst p) with
                     | Some (c :: t) => c :: t
                     | _ => js "Unknown"
                     end)))
    (extinfPairs (splitLines content)) channels.
Proof.
  rewrite parseM3U_pairs. intros H. apply mapResult_Forall2 in H.
  eapply Forall2_impl; [exact H|]. intros p ch Hp Hattr Hc. simpl in Hp.
  rewrite (closeChannel_name _ _ _ Hp). unfold openChannel.
  rewrite lookup_union_r by exact Hattr.
  rewrite lookup_singleton_eq. unfold extinfName.
  now rewrite extinfTitle_afterFirstComma by exact Hc.
Qed.

Lemma extinf_name_from_title_witness :
  exists channels,
    parseM3U (js "#EXTINF:-1 group=news,  Channel One" ++ [10] ++ js "http://x/1.ts")
    = Ok channels
    /\ Forall (fun ch => ch !! js "name" = Some (js "Channel One")) channels.
Proof.
  assert (E : exists channels,
             parseM3U (js "#EXTINF:-1 group=news,  Channel One" ++ [10]
                       ++ js "http://x/1.ts") = Ok channels)
    by (vm_compute; eauto).
  destruct E as [channels E]. exists channels. split; [exact E|].
  pose proof (extinf_name_from_title _ channels E) as H.
  vm_compute (extinfPairs _) in H.
  inversion H as [|p ch ps chs Hch Hrest]; subst.
  inversion Hrest; subst. constructor; [|constructor].
  apply Hch; vm_compute; [reflexivity | lia].
Defined.

(** C8 as stated fails: an attribute called [name] on the line replaces
    the text that follows the comma. *)
Lemma extinf_name_overridden :
  let line := js "#EXTINF:-1 name=" ++ [34] ++ js "X" ++ [34] ++ js ",Title" in
  afterFirstComma line = Some (js "Title")
  /\ match parseM3U (line ++ [10] ++ js "http://x/1.ts") with
     | Ok [ch] => ch !! js "name"
     | _ => None
     end = Some (js "X").
Proof. split; vm_compute; reflexivity. Qed.



(** ** C1: the manifest rewriter keeps the lines *)

Lemma splitLines_single l :
  Forall (fun x => (x =? 10) = false) l -> splitLines l = [l].
Proof.
  induction 1 as [|c l Hc Hl IH]; [reflexivity|].
  cbn [splitLines]. rewrite Hc.
  destruct Hl as [|d l Hd Hl]; [reflexivity|].
  rewrite Hd, andb_false_r, IH. reflexivity.
Qed.

Lemma splitLines_line l rest :
  Forall (fun x => (x =? 10) = false) l ->
  (forall p, l <> p ++ [13]) ->
  splitLines (l ++ 10 :: rest) = l :: splitLines rest.
Proof.
  induction 1 as [|c l Hc Hl IH]; intros Hcr; [reflexivity|].
  assert (Hcr' : forall p, l <> p ++ [13]).
  { intros p ->. apply (Hcr (c :: p)). reflexivity. }
  destruct Hl as [|d l Hd Hl].
  - assert (H13 : (c =? 13) = false).
    { apply N.eqb_neq. intros ->. apply (Hcr []). reflexivity. }
    cbn [app]. rewrite splitLines_cons by assumption. reflexivity.
  - specialize (IH Hcr'). cbn [app] in *. cbn [splitLines]. rewrite Hc.
    rewrite Hd, andb_false_r. cbn [splitLines] in IH. rewrite Hd in IH.
    rewrite IH. reflexivity.
Qed.

Lemma splitLines_join outs :
  outs <> [] ->
  Forall (fun l => Forall (fun x => (x =? 10) = false) l /\ forall p, l <> p ++ [13]) outs ->
  splitLines (join [10] outs) = outs.
Proof.
  intros Hne H. induction H as [|l outs [Hl Hcr] Hrest IH]; [congruence|].
  destruct outs as [|l' outs].
  - cbn [join]. now apply splitLines_single.
  - change (join [10] (l :: l' :: outs)) with (l ++ 10 :: join [10] (l' :: outs)).
    rewrite splitLines_line by assumption. f_equal. apply IH. discriminate.
Qed.

Lemma splitLines_no_lf n :
  forall s, (length s <= n)%nat ->
            Forall (Forall (fun x => (x =? 10) = false)) (splitLines s).
Proof.
  induction n as [|n IH]; intros s Hn.
  - destruct s; [|simpl in Hn; lia]. repeat constructor.
  - destruct s as [|c s]; [repeat constructor|]. simpl in Hn.
    cbn [splitLines]. destruct (c =? 10) eqn:Hc.
    { constructor; [constructor | apply IH; lia]. }
    destruct s as [|d s]; [repeat constructor; assumption|].
    destruct ((c =? 13) && (d =? 10)).
    { simpl in Hn. constructor; [constructor | apply IH; lia]. }
    assert (Hr : Forall (Forall (fun x => (x =? 10) = false)) (splitLines (d :: s)))
      by (apply IH; simpl in *; lia).
    destruct (splitLines (d :: s)) as [|l ls]; [repeat constructor; assumption|].
    inversion Hr; subst. constructor; [now constructor | assumption].
Qed.

Lemma trimStart_head s c t : trimStart s = c :: t -> isWhiteSpace c = false.
Proof.
  induction s as [|d s IH]; [discriminate|]. cbn [trimStart].
  destruct (isWhiteSpace d) eqn:Hd; [exact IH|]. now intros [= <- _].
Qed.

(** A trimmed line does not end in white space, a carriage return
    included. *)
Lemma trim_no_cr s : forall p, trim s <> p ++ [13].
Proof.
  intros p H. unfold trim, trimEnd in H.
  apply (f_equal (@rev N)) in H. rewrite rev_involutive, rev_app_distr in H.
  apply trimStart_head in H. discriminate H.
Qed.

Lemma encoded_line_safe enc :
  Forall (fun c => isEncodedChar c = true) enc ->
  Forall (fun x => (x =? 10) = false) (relayPrefix ++ enc)
  /\ forall p, relayPrefix ++ enc <> p ++ [13].
Proof.
  intros He.
  assert (H13 : Forall (fun x => (x =? 13) = false) (relayPrefix ++ enc)).
  { apply Forall_app. split; [repeat constructor | now apply encoded_ne]. }
  split.
  - apply Forall_app. split; [repeat constructor | now apply encoded_ne].
  - intros p Hp. rewrite Hp in H13. apply Forall_app in H13 as [_ H13].
    inversion H13 as [|? ? Hx _]; subst. discriminate Hx.
Qed.

Section RewriterFacts.
Variable URL : Type.
Variable newURL : jsstring -> option URL.
Variable newURLWithBase : jsstring -> URL -> option URL.
Variable toString : URL -> jsstring.

Local Abbreviation rewriteOne := (rewriteLine URL newURLWithBase toString).
Local Abbreviation rewriteAll :=
  (rewriteManifestWithProxy URL newURL newURLWithBase toString).

(** What one line becomes: a kept line its trimmed self, any other line
    the relay prefix followed by the encoding of its resolution. *)
Lemma rewriteLine_inv base line out :
  rewriteOne base line = Ok out ->
  if keptLine (trim line) then out = trim line
  else exists absolute encoded,
      newURLWithBase (trim line) base = Some absolute
      /\ encodeURIComponent (toString absolute) = Ok encoded
      /\ out = relayPrefix ++ encoded.
Proof.
  unfold rewriteLine. destruct (keptLine (trim line)); [now intros [= <-]|].
  destruct (newURLWithBase (trim line) base) as [a|]; [|discriminate]. simpl.
  destruct (encodeURIComponent (toString a)) as [e|] eqn:E; [|discriminate]. simpl.
  intros [= <-]. eauto.
Qed.

(** C1 (amended): when the source URL parses and every line that is not
    kept resolves against it, [rewriteManifestWithProxy] returns a text
    with as many lines as the body, in the same order; a line that,
    trimmed, is empty or begins with # or DATA: is put out trimmed, and
    every other line is replaced by [/api/stream?url=] followed by the
    percent-encoding of the line resolved against the source URL. *)
Theorem rewrite_keeps_lines body sourceUrl base :
  newURL sourceUrl = Some base ->
  Forall (fun line =>
            keptLine (trim line) = false ->
            exists absolute encoded,
              newURLWithBase (trim line) base = Some absolute
              /\ encodeURIComponent (toString absolute) = Ok encoded)
         (splitLines body) ->
  exists out,
    rewriteAll body sourceUrl = Ok out
    /\ length (splitLines out) = length (splitLines body)
    /\ Forall2
         (fun line outLine =>
            if keptLine (trim line) then outLine = trim line
            else exists absolute encoded,
                newURLWithBase (trim line) base = Some absolute
                /\ encodeURIComponent (toString absolute) = Ok encoded
                /\ outLine = relayPrefix ++ encoded)
         (splitLines body) (splitLines out).
Proof.
  intros Hbase Hres. unfold rewriteManifestWithProxy. rewrite Hbase. simpl.
  destruct (mapResult_total (rewriteOne base) (splitLines body)) as [outs Houts].
  { rewrite Forall_forall in Hres. apply Forall_forall. intros line Hin.
    specialize (Hres line Hin). unfold rewriteLine.
    destruct (keptLine (trim line)); [eauto|].
    destruct Hres as (a & e & -> & He); [reflexivity|]. simpl. rewrite He. simpl. eauto. }
  rewrite Houts. simpl. exists (join [10] outs). split; [reflexivity|].
  apply mapResult_Forall2 in Houts.
  assert (Hsplit : splitLines (join [10] outs) = outs).
  { apply splitLines_join.
    - intros ->. inversion Houts as [Hnil|]. symmetry in Hnil.
      now apply splitLines_nonempty in Hnil.
    - pose proof (splitLines_no_lf (length body) body (le_n _)) as Hlf.
      clear Hres. induction Houts as [|line out lines outs' Hline _ IH]; [constructor|].
      inversion Hlf; subst. constructor; [|auto].
      apply rewriteLine_inv in Hline. destruct (keptLine (trim line)).
      + subst out. split; [now apply trim_Forall | apply trim_no_cr].
      + destruct Hline as (a & e & _ & He & ->).
        apply encoded_line_safe. eapply encodeURIComponent_chars. exact He. }
  rewrite Hsplit. split.
  - symmetry. eapply Forall2_length. exact Houts.
  - eapply Forall2_impl; [exact Houts|]. intros line out H. now apply rewriteLine_inv.
Qed.
End RewriterFacts.

Lemma rewrite_keeps_lines_witness :
  exists out,
    rewriteManifestWithProxy jsstring (fun s => Some s)
      (fun ref base => Some (base ++ ref)) (fun u => u)
      (js "#EXTM3U" ++ [13; 10] ++ js "  seg1.ts" ++ [10])
      (js "http://origin.example/live/")
    = Ok out
    /\ length (splitLines out) = 3%nat.
Proof.
  destruct (rewrite_keeps_lines jsstring (fun s => Some s)
              (fun ref base => Some (base ++ ref)) (fun u => u)
              (js "#EXTM3U" ++ [13; 10] ++ js "  seg1.ts" ++ [10])
              (js "http://origin.example/live/")
              (js "http://origin.example/live/") eq_refl)
    as (out & Hout & Hlen & _).
  - vm_compute (splitLines _).
    repeat (constructor;
            [intros _; do 2 eexists; split; [reflexivity | vm_compute; reflexivity]|]).
    constructor.
  - exists out. split; [exact Hout | exact Hlen].
Defined.

(** C1 as stated fails: a kept line is put out trimmed, not as it stands
    in the body; the indented comment below loses its indentation. *)
Lemma rewrite_trims_kept_lines :
  ~ (forall (URL : Type) (newURL : jsstring -> option URL)
            (newURLWithBase : jsstring -> URL -> option URL)
            (toString : URL -> jsstring) body sourceUrl base out,
        newURL sourceUrl = Some base ->
        rewriteManifestWithProxy URL newURL newURLWithBase toString body sourceUrl
        = Ok out ->
        Forall2 (fun line outLine => keptLine (trim line) = true -> outLine = line)
          (splitLines body) (splitLines out)).
Proof.
  intros H.
  specialize (H jsstring (fun s => Some s) (fun ref base => Some (base ++ ref))
                (fun u => u) (js "  #EXT-X-ENDLIST") (js "http://origin.example/live/")
                (js "http://origin.example/live/") (js "#EXT-X-ENDLIST")
                eq_refl eq_refl).
  vm_compute in H. inversion H as [|? ? ? ? Hline _]; subst.
  specialize (Hline eq_refl). discriminate Hline.
Qed.

(** * Further properties of the server *)

(** ** The metadata cache, key by key *)

Section CacheFrame.
Variable Value : Type.

(** X1: storing under one key and reading another key do not touch each
    other: a read of [other] after [setCache] on [key] returns what it
    returned before, and leaves [key] as stored. *)
Theorem cache_other_key (T now : Z) (key other : jsstring) (v : Value)
    (metaCache : gmap jsstring (CacheEntry Value)) :
  key <> other ->
  fst (getCache Value now other (setCache Value T key v metaCache))
  = fst (getCache Value now other metaCache)
  /\ snd (getCache Value now other (setCache Value T key v metaCache)) !! key
     = Some {| value := v; expires := (T + CACHE_TTL_MS)%Z |}.
Proof.
  intros Hne. unfold getCache, setCache.
  rewrite lookup_insert_ne by exact Hne.
  destruct (metaCache !! other) as [entry|]; simpl.
  - destruct (now >? expires Value entry)%Z; simpl.
    + split; [reflexivity|].
      rewrite lookup_delete_ne by congruence. apply lookup_insert_eq.
    + split; [reflexivity | apply lookup_insert_eq].
  - split; [reflexivity | apply lookup_insert_eq].
Qed.

(** X2: storing again under a key replaces the value and restarts the
    clock: after a first [setCache] at [T1] and a second at [T2], a read
    no later than [T2 + TTL] returns the second value, even when the first
    entry would have expired by then. *)
Theorem cache_overwrite (T1 T2 now : Z) (key : jsstring) (v1 v2 : Value)
    (metaCache : gmap jsstring (CacheEntry Value)) :
  (now <= T2 + CACHE_TTL_MS)%Z ->
  fst (getCache Value now key
         (setCache Value T2 key v2 (setCache Value T1 key v1 metaCache)))
  = Some v2.
Proof.
  intros H. unfold getCache, setCache. rewrite lookup_insert_eq. simpl.
  destruct (Z.gtb_spec now (T2 + CACHE_TTL_MS)); [lia | reflexivity].
Qed.

(** X3: [getCache] never hands out an entry after its expiry time, and a
    lookup changes nothing but the key it is asked for: whatever the map,
    a returned value is that of an entry stored under the key with
    [now <= expires], and every other key is as it was. *)
Theorem getCache_sound (now : Z) (key : jsstring)
    (metaCache : gmap jsstring (CacheEntry Value)) :
  (forall v, fst (getCache Value now key metaCache) = Some v ->
     exists entry, metaCache !! key = Some entry
                   /\ value Value entry = v /\ (now <= expires Value entry)%Z)
  /\ (forall other, other <> key ->
        snd (getCache Value now key metaCache) !! other = metaCache !! other).
Proof.
  unfold getCache. destruct (metaCache !! key) as [entry|] eqn:E; simpl.
  - destruct (Z.gtb_spec now (expires Value entry)); simpl.
    + split; [discriminate|]. intros other Hne. now apply lookup_delete_ne.
    + split; [|reflexivity]. intros v [= <-]. exists entry. auto.
  - split; [discriminate | reflexivity].
Qed.
End CacheFrame.

Lemma cache_other_key_witness :
  fst (getCache N 5 (js "b") (setCache N 0 (js "a") 1 ∅))
  = fst (getCache N 5 (js "b") (∅ : gmap jsstring (CacheEntry N))).
Proof.
  apply (proj1 (cache_other_key N 0 5 (js "a") (js "b") 1 ∅ ltac:(discriminate))).
Defined.

Lemma cache_overwrite_witness :
  fst (getCache N 100000 (js "a")
         (setCache N 50000 (js "a") 2 (setCache N 0 (js "a") 1 ∅))) = Some 2.
Proof.
  apply (cache_overwrite N 0 50000 100000 (js "a") 1 2 ∅).
  unfold CACHE_TTL_MS. lia.
Defined.

Lemma getCache_sound_witness :
  exists entry,
    setCache N 0 (js "a") 1 ∅ !! js "a" = Some entry
    /\ value N entry = 1 /\ (10 <= expires N entry)%Z.
Proof.
  apply (proj1 (getCache_sound N 10 (js "a") (setCache N 0 (js "a") 1 ∅)) 1).
  vm_compute. reflexivity.
Defined.

(** ** Sets of URLs *)

Lemma existsb_streq x l : existsb (streq x) l = true <-> In x l.
Proof.
  rewrite existsb_exists. split.
  - intros (y & Hy & Heq). apply streq_eq in Heq. now subst.
  - intros H. exists x. split; [assumption | apply streq_refl].
Qed.

Lemma setAdd_fold_NoDup l :
  forall acc, NoDup acc -> NoDup (fold_left setAdd l acc).
Proof.
  induction l as [|x l IH]; simpl; intros acc Hacc; [assumption|].
  apply IH. unfold setAdd. destruct (existsb (streq x) acc) eqn:E; [assumption|].
  apply NoDup_app. split; [assumption|]. split.
  - intros y Hy Hy'. apply list_elem_of_In in Hy, Hy'. destruct Hy' as [<-|[]].
    apply existsb_streq in Hy. congruence.
  - apply NoDup_singleton.
Qed.


(** X4: [collectUrls] returns each URL once, however often the text
    repeats it. *)
Theorem collectUrls_distinct text : NoDup (collectUrls text).
Proof.
  unfold collectUrls. destruct text as [|c text]; [constructor|].
  destruct (execAll _ _ _ _ _); [|constructor].
  apply setAdd_fold_NoDup. constructor.
Qed.


(** ** The lobster resolver beyond its errors *)

Section LobsterMore.
Variable number : Type.
Variable numberTruthy : number -> bool.
Variable JSON_parse : jsstring -> option (JSON number).
Variable runCommand : jsstring -> list jsstring -> result jsstring.

(** X6: when lobster's output holds a URL, the resolver answers from that
    output alone: the result carries exactly the URLs gathered from the
    stdout, with the stdout as transcript, and neither the TMDB token nor
    the VidSrc fallback has any part in it. *)
Theorem lobster_answers_alone query quality type stdout
    (token token' : option jsstring)
    (vidsrc vidsrc' : jsstring -> jsstring -> jsstring -> result (ResolvedTitle number)) :
  runCommand (js "lobster") (lobsterArgs query quality) = Ok stdout ->
  lobsterUrls number JSON_parse stdout <> [] ->
  resolveWithLobster number numberTruthy JSON_parse token runCommand vidsrc
    query quality type
  = resolveWithLobster number numberTruthy JSON_parse token' runCommand vidsrc'
      query quality type
  /\ exists shown,
      resolveWithLobster number numberTruthy JSON_parse token runCommand vidsrc
        query quality type
      = Ok {| title := shown;
              urls := lobsterUrls number JSON_parse stdout;
              raw := stdout |}.
Proof.
  intros Hrun Hne. unfold resolveWithLobster. rewrite Hrun. cbv beta iota zeta.
  destruct (lobsterUrls number JSON_parse stdout) as [|u us]; [congruence|].
  split; [reflexivity | eauto].
Qed.

(** X7: when lobster yields no URL, whether it failed or not, and the
    token is set, a fallback that succeeds is what the resolver returns:
    its title and URLs, and as transcript the stdout followed by a line
    [[FALLBACK: vidsrc]]. *)
Theorem lobster_falls_back query quality type token
    (vidsrc : jsstring -> jsstring -> jsstring -> result (ResolvedTitle number))
    fallback :
  isSet token = true ->
  vidsrc query (js "1") type = Ok fallback ->
  (forall stdout,
      runCommand (js "lobster") (lobsterArgs query quality) = Ok stdout ->
      lobsterUrls number JSON_parse stdout = [] ->
      resolveWithLobster number numberTruthy JSON_parse token runCommand vidsrc
        query quality type
      = Ok {| title := title number fallback; urls := urls number fallback;
              raw := stdout ++ [10] ++ js "[FALLBACK: vidsrc]" |})
  /\ (forall E1,
         runCommand (js "lobster") (lobsterArgs query quality) = Throw E1 ->
         resolveWithLobster number numberTruthy JSON_parse token runCommand vidsrc
           query quality type
         = Ok {| title := title number fallback; urls := urls number fallback;
                 raw := [10] ++ js "[FALLBACK: vidsrc]" |}).
Proof.
  intros Htoken Hfb. unfold resolveWithLobster, resolveWithVidsrc, tmdbHeadersOrThrow.
  split.
  - intros stdout Hrun Hnone. rewrite Hrun. cbv beta iota zeta.
    rewrite Hnone, Htoken. cbn [negb mbind result_bind]. now rewrite Hfb.
  - intros E1 Hrun. rewrite Hrun. cbv beta iota zeta.
    change (lobsterUrls number JSON_parse []) with (@nil jsstring). cbv beta iota.
    rewrite Htoken. cbn [negb mbind result_bind]. now rewrite Hfb.
Qed.

(** X8: without a TMDB token the fallback is never asked: with no URL
    from lobster the resolver throws lobster's own error when there is
    one, and otherwise an error that names the missing token, whatever
    VidSrc would have answered. *)
Theorem lobster_without_token query quality type token
    (vidsrc : jsstring -> jsstring -> jsstring -> result (ResolvedTitle number)) :
  isSet token = false ->
  (forall E1,
      runCommand (js "lobster") (lobsterArgs query quality) = Throw E1 ->
      resolveWithLobster number numberTruthy JSON_parse token runCommand vidsrc
        query quality type = Throw E1)
  /\ (forall stdout,
         runCommand (js "lobster") (lobsterArgs query quality) = Ok stdout ->
         lobsterUrls number JSON_parse stdout = [] ->
         resolveWithLobster number numberTruthy JSON_parse token runCommand vidsrc
           query quality type
         = Throw (Error (js "lobster returned no URLs and TMDB_TOKEN is not set for the fallback resolver"))).
Proof.
  intros Htoken. unfold resolveWithLobster. split.
  - intros E1 Hrun. rewrite Hrun. cbv beta iota zeta.
    change (lobsterUrls number JSON_parse []) with (@nil jsstring). cbv beta iota.
    now rewrite Htoken.
  - intros stdout Hrun Hnone. rewrite Hrun. cbv beta iota zeta.
    now rewrite Hnone, Htoken.
Qed.
End LobsterMore.

Lemma lobster_answers_alone_witness :
  exists shown,
    resolveWithLobster unit (fun _ => true) (fun _ => None) None
      (fun _ _ => Ok (js "https://cdn.example/v/master.m3u8"))
      (fun _ _ _ => Throw (Error (js "No matching title found")))
      (js "dune+2021") None (js "movies")
    = Ok {| title := shown;
            urls := [js "https://cdn.example/v/master.m3u8"];
            raw := js "https://cdn.example/v/master.m3u8" |}.
Proof.
  apply (proj2 (lobster_answers_alone unit (fun _ => true) (fun _ => None)
                  (fun _ _ => Ok (js "https://cdn.example/v/master.m3u8"))
                  (js "dune+2021") None (js "movies")
                  (js "https://cdn.example/v/master.m3u8")
                  None None
                  (fun _ _ _ => Throw (Error (js "No matching title found")))
                  (fun _ _ _ => Throw (Error (js "No matching title found")))
                  eq_refl ltac:(vm_compute; discriminate))).
Defined.

Lemma lobster_falls_back_witness :
  resolveWithLobster unit (fun _ => true) (fun _ => None) (Some (js "token"))
    (fun _ _ => Throw (Error (js "lobster exited with code 1")))
    (fun _ _ _ => Ok {| title := JStr unit (js "Dune");
                        urls := [js "https://cdn.example/dune.m3u8"];
                        raw := js "https://vidsrc.xyz/embed/movie/1" |})
    (js "dune") None (js "movies")
  = Ok {| title := JStr unit (js "Dune");
          urls := [js "https://cdn.example/dune.m3u8"];
          raw := [10] ++ js "[FALLBACK: vidsrc]" |}.
Proof.
  apply (proj2 (lobster_falls_back unit (fun _ => true) (fun _ => None)
                  (fun _ _ => Throw (Error (js "lobster exited with code 1")))
                  (js "dune") None (js "movies") (Some (js "token"))
                  (fun _ _ _ => Ok {| title := JStr unit (js "Dune");
                                      urls := [js "https://cdn.example/dune.m3u8"];
                                      raw := js "https://vidsrc.xyz/embed/movie/1" |})
                  _ eq_refl eq_refl)
           (Error (js "lobster exited with code 1")) eq_refl).
Defined.

Lemma lobster_without_token_witness :
  resolveWithLobster unit (fun _ => true) (fun _ => None) None
    (fun _ _ => Ok (js "nothing found"))
    (fun _ _ _ => Throw (Error (js "unused")))
    (js "dune") None (js "movies")
  = Throw (Error (js "lobster returned no URLs and TMDB_TOKEN is not set for the fallback resolver")).
Proof.
  apply (proj2 (lobster_without_token unit (fun _ => true) (fun _ => None)
                  (fun _ _ => Ok (js "nothing found"))
                  (js "dune") None (js "movies") None
                  (fun _ _ _ => Throw (Error (js "unused"))) eq_refl)
           (js "nothing found") eq_refl).
  vm_compute. reflexivity.
Defined.

(** ** Containment *)

Lemma startsWith_spec p s : startsWith p s = true <-> exists r, s = p ++ r.
Proof.
  revert s. induction p as [|c p IH]; intros s; simpl.
  - split; [eauto | reflexivity].
  - destruct s as [|d s]; [split; [discriminate | intros [r Hr]; discriminate]|].
    rewrite andb_true_iff, N.eqb_eq, IH. split.
    + intros [-> [r ->]]. eauto.
    + intros [r [= -> ->]]. eauto.
Qed.

Lemma includes_spec p s :
  includes p s = true <-> exists a b, s = a ++ p ++ b.
Proof.
  split.
  - induction s as [|c s IH]; simpl.
    + rewrite orb_false_r. intros H. apply startsWith_spec in H as [r ->].
      exists [], r. reflexivity.
    + intros H. apply orb_true_iff in H as [H|H].
      * apply startsWith_spec in H as [r ->]. exists [], r. reflexivity.
      * destruct (IH H) as (a & b & ->). exists (c :: a), b. reflexivity.
  - intros (a & b & ->). apply includes_app.
Qed.

(** X9: the relay tells a manifest by containment, so whatever stands
    before or after a marker in the content type (a charset parameter,
    say) does not change the verdict. *)
Theorem isManifest_parameters before contentType after :
  isManifest contentType = true ->
  isManifest (before ++ contentType ++ after) = true.
Proof.
  assert (Hmono : forall p, includes p contentType = true ->
                            includes p (before ++ contentType ++ after) = true).
  { intros p H. apply includes_spec in H as (a & b & ->).
    apply includes_spec. exists (before ++ a), (b ++ after).
    now rewrite <- !app_assoc. }
  unfold isManifest. intros H.
  apply orb_true_iff in H as [H|H]; [apply orb_true_iff in H as [H|H]|];
    rewrite (Hmono _ H); rewrite ?orb_true_r; reflexivity.
Qed.

Lemma isManifest_parameters_witness :
  isManifest ([] ++ js "application/vnd.apple.mpegurl" ++ js "; charset=UTF-8") = true.
Proof. apply isManifest_parameters. reflexivity. Defined.

(** ** The MAC address once accepted *)

Lemma hex_upper c :
  isHexDigit c = true ->
  isUpperHexDigit (upperAscii c) = true /\ negb ((c =? 58) || (c =? 45)) = true.
Proof.
  unfold isHexDigit, isUpperHexDigit, upperAscii. intros H.
  repeat rewrite ?orb_true_iff, ?andb_true_iff, ?N.leb_le in H.
  split.
  - destruct ((97 <=? c) && (c <=? 122)) eqn:E.
    + apply andb_true_iff in E as [E1 E2]. apply N.leb_le in E1, E2.
      case_leb; first [reflexivity | lia].
    + apply andb_false_iff in E. rewrite !N.leb_gt in E.
      case_leb; first [reflexivity | lia].
  - case_leb; first [reflexivity | lia].
Qed.

Lemma sep_dropped c :
  isColonOrHyphen c = true -> negb ((c =? 58) || (c =? 45)) = false.
Proof.
  unfold isColonOrHyphen, isColon, isHyphen. intros H. now rewrite H.
Qed.

(** X10: for every address the handler accepts, the formatted MAC that
    goes into the playlist URL is exactly twelve upper-case hexadecimal
    digits: the separators are gone and the letters are upper case. *)
Theorem formatMac_accepted mac :
  acceptedMacShape mac = true ->
  length (formatMac mac) = 12%nat
  /\ Forall (fun c => isUpperHexDigit c = true) (formatMac mac).
Proof.
  unfold acceptedMacShape, formatMac. intros H.
  apply orb_true_iff in H as [H|H].
  - do 17 (destruct mac as [|? mac]; [discriminate H|]).
    destruct mac; [|discriminate H].
    simpl in H. split_true.
    repeat match goal with
           | H : isHexDigit _ = true |- _ => apply hex_upper in H as [? ?]
           | H : isColonOrHyphen _ = true |- _ => apply sep_dropped in H
           end.
    cbn [List.filter].
    repeat match goal with H : negb _ = _ |- _ => rewrite H; clear H end.
    split; [reflexivity | repeat constructor; assumption].
  - unfold twelveHex in H. apply andb_true_iff in H as [Hl H].
    do 12 (destruct mac as [|? mac]; [discriminate Hl|]).
    destruct mac; [|discriminate Hl].
    simpl in H. split_true.
    repeat match goal with
           | H : isHexDigit _ = true |- _ => apply hex_upper in H as [? ?]
           end.
    cbn [List.filter].
    repeat match goal with H : negb _ = _ |- _ => rewrite H; clear H end.
    split; [reflexivity | repeat constructor; assumption].
Qed.

Lemma formatMac_accepted_witness :
  length (formatMac (js "0a:1b-2c:3d-4e:5f")) = 12%nat
  /\ Forall (fun c => isUpperHexDigit c = true) (formatMac (js "0a:1b-2c:3d-4e:5f")).
Proof. apply formatMac_accepted. reflexivity. Defined.

Lemma sixPairs_weaken (sep sep' : N -> bool) s :
  (forall c, sep c = true -> sep' c = true) ->
  sixPairs sep s = true -> sixPairs sep' s = true.
Proof.
  intros Hs H.
  do 17 (destruct s as [|? s]; [discriminate H|]).
  destruct s; [|discriminate H].
  simpl in *. split_true.
  repeat match goal with
         | H : sep _ = true |- _ => apply Hs in H
         end.
  use_true. reflexivity.
Qed.

(** X11: each of the three documented shapes (colons throughout, hyphens
    throughout, no separator) is accepted by the handler, which goes on to
    the provider's playlist. *)
Theorem documented_macs_accepted mac :
  claimedMacShape mac = true ->
  exists playlistUrl, channelsMacStep (Some mac) = MacPlaylist playlistUrl.
Proof.
  intros H.
  assert (Ha : acceptedMacShape mac = true).
  { unfold claimedMacShape, acceptedMacShape in *.
    apply orb_true_iff in H as [H|H]; [apply orb_true_iff in H as [H|H]|].
    - erewrite sixPairs_weaken; [reflexivity | | exact H].
      intros c Hc. unfold isColonOrHyphen. now rewrite Hc.
    - erewrite sixPairs_weaken; [reflexivity | | exact H].
      intros c Hc. unfold isColonOrHyphen. rewrite Hc. apply orb_true_r.
    - rewrite H. apply orb_true_r. }
  destruct mac as [|c m]; [discriminate H|].
  unfold channelsMacStep. rewrite macRegex_test, Ha. eauto.
Qed.

Lemma documented_macs_accepted_witness :
  exists playlistUrl,
    channelsMacStep (Some (js "00-1A-2b-3C-4d-5E")) = MacPlaylist playlistUrl.
Proof. apply documented_macs_accepted. reflexivity. Defined.

(** ** Trimmed text *)

Lemma trimStart_fixed s :
  match s with [] => True | c :: _ => isWhiteSpace c = false end ->
  trimStart s = s.
Proof. destruct s as [|c s]; [reflexivity|]. cbn [trimStart]. now intros ->. Qed.

Lemma trimStart_trimStart s : trimStart (trimStart s) = trimStart s.
Proof.
  apply trimStart_fixed. destruct (trimStart s) as [|c t] eqn:E; [exact I|].
  now apply trimStart_head in E.
Qed.

Lemma trimEnd_trimEnd s : trimEnd (trimEnd s) = trimEnd s.
Proof. unfold trimEnd. now rewrite rev_involutive, trimStart_trimStart. Qed.

Lemma trim_trim s : trim (trim s) = trim s.
Proof.
  unfold trim. rewrite (trimStart_fixed (trimEnd (trimStart s))).
  - apply trimEnd_trimEnd.
  - destruct (trimEnd_split (trimStart s)) as (ws & Hs & _).
    destruct (trimEnd (trimStart s)) as [|c t]; [exact I|].
    eapply trimStart_head. rewrite Hs. reflexivity.
Qed.

(** ** More on the playlist parser *)

Lemma nextUrlLine_kind lines u :
  nextUrlLine lines = Some u ->
  exists l, In l lines /\ u = trim l
            /\ isBlankLine l = false /\ isCommentLine l = false.
Proof.
  induction lines as [|l lines IH]; [discriminate|]. cbn [nextUrlLine].
  destruct (isBlankLine l) eqn:Hb;
    [intros H; apply IH in H as (x & ? & ?); exists x; simpl; auto|].
  destruct (isExtinfLine l); [discriminate|].
  destruct (isCommentLine l) eqn:Hc;
    [intros H; apply IH in H as (x & ? & ?); exists x; simpl; auto|].
  intros [= <-]. exists l. simpl. auto.
Qed.

Lemma extinfPairs_url lines p :
  In p (extinfPairs lines) ->
  exists l, In l lines /\ snd p = trim l
            /\ isBlankLine l = false /\ isCommentLine l = false.
Proof.
  induction lines as [|l lines IH]; [intros []|]. cbn [extinfPairs].
  intros H. apply in_app_iff in H as [H|H].
  - destruct (isExtinfLine l); [|destruct H].
    destruct (nextUrlLine lines) as [u|] eqn:Eu; [|destruct H].
    destruct H as [<-|[]]. apply nextUrlLine_kind in Eu as (x & Hx & Hu).
    exists x. simpl. auto.
  - apply IH in H as (x & ? & ?). exists x. simpl. auto.
Qed.

Lemma encodedChar_ascii c : isEncodedChar c = true -> c < 128.
Proof.
  unfold isEncodedChar, isUnreserved, isAlnum. intros H.
  change (js "-_.!~*'()") with [45; 95; 46; 33; 126; 42; 39; 40; 41] in H.
  cbn [existsb] in H.
  destruct (N.ltb_spec c 128) as [Hc|Hc]; [assumption|].
  exfalso. revert H. case_leb; first [lia | discriminate].
Qed.

(** X12: every channel [parseM3U] returns carries a name, a url and a
    streamUrl; the url is a non-empty, trimmed line that does not begin
    with #, and the streamUrl is the relay prefix followed by ASCII
    characters only. *)
Theorem channel_fields content channels ch :
  parseM3U content = Ok channels -> In ch channels ->
  exists name url streamUrl,
    ch !! js "name" = Some name
    /\ ch !! js "url" = Some url
    /\ ch !! js "streamUrl" = Some streamUrl
    /\ url <> [] /\ trim url = url /\ startsWith (js "#") url = false
    /\ startsWith relayPrefix streamUrl = true
    /\ Forall (fun c => c < 128) streamUrl.
Proof.
  rewrite parseM3U_pairs. intros H Hin. apply mapResult_Forall2 in H.
  destruct (Forall2_In_r _ _ _ _ H Hin) as (p & Hp & Hch).
  apply extinfPairs_url in Hp as (l & _ & Hu & Hb & Hc).
  pose proof (closeChannel_name _ _ _ Hch) as Hname.
  apply closeChannel_inv in Hch as (e & He & ->).
  assert (Hn : is_Some (openChannel (fst p) !! js "name")).
  { unfold openChannel. apply lookup_union_is_Some. right.
    rewrite lookup_singleton_eq. eauto. }
  destruct Hn as [name Hn].
  exists name, (snd p), (relayPrefix ++ e).
  split; [now rewrite Hname|].
  split; [rewrite lookup_insert_ne by apply key_streamUrl_url; apply lookup_insert_eq|].
  split; [apply lookup_insert_eq|].
  rewrite Hu. unfold isBlankLine, isCommentLine in *.
  split; [intros E; rewrite E in Hb; discriminate|].
  split; [apply trim_trim|]. split; [exact Hc|].
  split; [apply startsWith_app|].
  apply Forall_app. split.
  - repeat constructor.
  - eapply Forall_impl; [eapply encodeURIComponent_chars; exact He|].
    intros c. apply encodedChar_ascii.
Qed.

Lemma channel_fields_witness :
  exists channels,
    parseM3U (js "#EXTINF:-1,Caf" ++ [233] ++ [13; 10] ++ js "  http://x/caf" ++ [233]
              ++ js ".ts  ") = Ok channels
    /\ forall ch, In ch channels ->
         exists name url streamUrl,
           ch !! js "name" = Some name
           /\ ch !! js "url" = Some url
           /\ ch !! js "streamUrl" = Some streamUrl
           /\ url <> [] /\ trim url = url /\ startsWith (js "#") url = false
           /\ startsWith relayPrefix streamUrl = true
           /\ Forall (fun c => c < 128) streamUrl.
Proof.
  assert (E : exists channels,
             parseM3U (js "#EXTINF:-1,Caf" ++ [233] ++ [13; 10]
                       ++ js "  http://x/caf" ++ [233] ++ js ".ts  ") = Ok channels)
    by (vm_compute; eauto).
  destruct E as [channels E]. exists channels. split; [exact E|].
  intros ch Hin. exact (channel_fields _ channels ch E Hin).
Defined.

Lemma extinfPairs_none lines :
  Forall (fun l => isExtinfLine l = false) lines -> extinfPairs lines = [].
Proof.
  induction 1 as [|l lines Hl _ IH]; [reflexivity|].
  cbn [extinfPairs]. now rewrite Hl, IH.
Qed.

(** X13: a playlist without any #EXTINF line gives no channel and no
    error, whatever else it holds: URL lines that no #EXTINF line precedes
    are dropped. *)
Theorem parseM3U_without_extinf content :
  Forall (fun l => isExtinfLine l = false) (splitLines content) ->
  parseM3U content = Ok [].
Proof.
  intros H. rewrite parseM3U_pairs, (extinfPairs_none _ H). reflexivity.
Qed.

Lemma parseM3U_without_extinf_witness :
  parseM3U (js "#EXTM3U" ++ [10] ++ js "http://x/1.ts" ++ [10] ++ js "http://x/2.ts")
  = Ok [].
Proof.
  apply parseM3U_without_extinf. vm_compute. repeat constructor.
Defined.

(** ** Line endings *)

Lemma splitLines_line_crlf l rest :
  Forall (fun x => (x =? 10) = false) l ->
  splitLines (l ++ 13 :: 10 :: rest) = l :: splitLines rest.
Proof.
  induction 1 as [|c l Hc Hl IH]; [reflexivity|].
  cbn [app splitLines]. rewrite Hc.
  destruct Hl as [|d l Hd Hl].
  - cbn [app]. cbn. destruct (c =? 13); reflexivity.
  - cbn [app] in *. rewrite Hd, andb_false_r. rewrite IH. reflexivity.
Qed.

Lemma splitLines_join_crlf lines :
  lines <> [] ->
  Forall (Forall (fun x => (x =? 10) = false)) lines ->
  splitLines (join [13; 10] lines) = lines.
Proof.
  intros Hne H. induction H as [|l lines Hl Hrest IH]; [congruence|].
  destruct lines as [|l' lines].
  - cbn [join]. now apply splitLines_single.
  - change (join [13; 10] (l :: l' :: lines))
      with (l ++ 13 :: 10 :: join [13; 10] (l' :: lines)).
    rewrite splitLines_line_crlf by assumption. f_equal. apply IH. discriminate.
Qed.

(** Lines that hold neither a line feed nor a carriage return are split
    the same way whether they are joined by CR LF or by LF. *)
Lemma splitLines_endings lines :
  Forall (Forall (fun x => (x =? 10) = false /\ (x =? 13) = false)) lines ->
  splitLines (join [13; 10] lines) = splitLines (join [10] lines).
Proof.
  intros H. destruct lines as [|l lines]; [reflexivity|].
  rewrite splitLines_join_crlf, splitLines_join; try discriminate; try reflexivity.
  - eapply Forall_impl; [exact H|]. intros x Hx. split.
    + eapply Forall_impl; [exact Hx|]. now intros c [? _].
    + intros p Hp. rewrite Hp in Hx. apply Forall_app in Hx as [_ Hx].
      inversion Hx as [|? ? [_ H13] _]; subst. discriminate H13.
  - eapply Forall_impl; [exact H|]. intros x Hx.
    eapply Forall_impl; [exact Hx|]. now intros c [? _].
Qed.

(** X14: [parseM3U] reads a playlist the same way whether its lines end
    in CR LF or in LF. *)
Theorem parseM3U_line_endings lines :
  Forall (Forall (fun x => (x =? 10) = false /\ (x =? 13) = false)) lines ->
  parseM3U (join [13; 10] lines) = parseM3U (join [10] lines).
Proof. intros H. unfold parseM3U. now rewrite splitLines_endings. Qed.

Lemma parseM3U_line_endings_witness :
  parseM3U (join [13; 10] [js "#EXTINF:-1,One"; js "http://x/1.ts"])
  = parseM3U (join [10] [js "#EXTINF:-1,One"; js "http://x/1.ts"]).
Proof.
  apply parseM3U_line_endings. repeat constructor.
Defined.

(** ** More on the manifest rewriter *)

Lemma mapResult_throws {A B} (f : A -> result B) xs x e :
  In x xs -> f x = Throw e -> exists e', mapResult f xs = Throw e'.
Proof.
  induction xs as [|y xs IH]; [intros []|]. intros [->|Hin] Hx; simpl.
  - rewrite Hx. simpl. eauto.
  - destruct (f y) as [b|e0]; simpl; [|eauto].
    destruct (IH Hin Hx) as [e' ->]. simpl. eauto.
Qed.

Section RewriterMore.
Variable URL : Type.
Variable newURL : jsstring -> option URL.
Variable newURLWithBase : jsstring -> URL -> option URL.
Variable toString : URL -> jsstring.

(** X15: the rewriter gives the same output for a manifest whose lines
    end in CR LF as for the same lines ended by LF: its output always uses
    LF alone. *)
Theorem rewrite_line_endings lines sourceUrl :
  Forall (Forall (fun x => (x =? 10) = false /\ (x =? 13) = false)) lines ->
  rewriteManifestWithProxy URL newURL newURLWithBase toString
    (join [13; 10] lines) sourceUrl
  = rewriteManifestWithProxy URL newURL newURLWithBase toString
      (join [10] lines) sourceUrl.
Proof.
  intros H. unfold rewriteManifestWithProxy. now rewrite splitLines_endings.
Qed.

(** X16: the rewriter is all or nothing: when the source URL parses but
    one line that has to be rewritten does not resolve against it, the
    call throws and no partly rewritten manifest comes out. *)
Theorem rewrite_all_or_nothing body sourceUrl base line :
  newURL sourceUrl = Some base ->
  In line (splitLines body) ->
  keptLine (trim line) = false ->
  newURLWithBase (trim line) base = None ->
  exists e,
    rewriteManifestWithProxy URL newURL newURLWithBase toString body sourceUrl
    = Throw e.
Proof.
  intros Hbase Hin Hkept Hres. unfold rewriteManifestWithProxy.
  rewrite Hbase. simpl.
  destruct (mapResult_throws (rewriteLine URL newURLWithBase toString base)
              (splitLines body) line TypeError Hin) as [e He].
  - unfold rewriteLine. now rewrite Hkept, Hres.
  - rewrite He. simpl. eauto.
Qed.
End RewriterMore.

Lemma rewrite_line_endings_witness :
  rewriteManifestWithProxy jsstring (fun s => Some s)
    (fun ref base => Some (base ++ ref)) (fun u => u)
    (join [13; 10] [js "#EXTM3U"; js "seg1.ts"]) (js "http://o.example/")
  = rewriteManifestWithProxy jsstring (fun s => Some s)
      (fun ref base => Some (base ++ ref)) (fun u => u)
      (join [10] [js "#EXTM3U"; js "seg1.ts"]) (js "http://o.example/").
Proof. apply rewrite_line_endings. repeat constructor. Defined.

Lemma rewrite_all_or_nothing_witness :
  exists e,
    rewriteManifestWithProxy jsstring (fun s => Some s)
      (fun ref base => if streq ref (js "http://") then None else Some (base ++ ref))
      (fun u => u)
      (js "#EXTM3U" ++ [10] ++ js "seg1.ts" ++ [10] ++ js "http://")
      (js "http://o.example/")
    = Throw e.
Proof.
  apply (rewrite_all_or_nothing jsstring (fun s => Some s)
           (fun ref base => if streq ref (js "http://") then None else Some (base ++ ref))
           (fun u => u) _ _ (js "http://o.example/") (js "http://") eq_refl).
  - vm_compute. auto.
  - reflexivity.
  - reflexivity.
Defined.

(** ** JSON in subprocess output *)

Lemma indexOf_lookup c s i : indexOf c s = Some i -> s !! i = Some c.
Proof.
  revert i. induction s as [|d s IH]; intros i; simpl; [discriminate|].
  destruct (N.eqb_spec d c) as [->|_]; [now intros [= <-]|].
  destruct (indexOf c s) as [j|]; [|discriminate]. simpl.
  intros [= <-]. simpl. auto.
Qed.

Lemma lastIndexOf_lookup c s i : lastIndexOf c s = Some i -> s !! i = Some c.
Proof.
  revert i. induction s as [|d s IH]; intros i; simpl; [discriminate|].
  destruct (lastIndexOf c s) as [j|].
  - intros [= <-]. simpl. auto.
  - destruct (N.eqb_spec d c) as [->|_]; [now intros [= <-] | discriminate].
Qed.

Lemma slice_ends (s : jsstring) i j a b :
  s !! i = Some a -> s !! j = Some b -> (i < j)%nat ->
  exists inner, slice i (S j) s = a :: inner ++ [b].
Proof.
  intros Hi Hj Hlt. unfold slice.
  rewrite (drop_S _ _ _ Hi).
  replace (S j - i)%nat with (S (S (j - S i))) by lia. cbn [take firstn].
  exists (take (j - S i) (drop (S i) s)). f_equal.
  apply take_S_r. rewrite lookup_drop. now replace (S i + (j - S i))%nat with j by lia.
Qed.

Lemma slice_included (s : jsstring) i j : includes (slice i j s) s = true.
Proof.
  apply includes_spec. exists (take i s), (drop (j - i) (drop i s)).
  unfold slice. now rewrite take_drop, take_drop.
Qed.

Section JsonFacts.
Variable number : Type.
Variable JSON_parse : jsstring -> option (JSON number).

(** X17: what [parseJsonFromText] returns is what [JSON.parse] makes of
    one piece of the text, and that piece begins with an opening and ends
    with a closing brace; a text without an opening brace gives nothing. *)
Theorem parseJsonFromText_braces text :
  (forall v, parseJsonFromText number JSON_parse text = Some v ->
     exists inner,
       includes (123 :: inner ++ [125]) text = true
       /\ JSON_parse (123 :: inner ++ [125]) = Some v)
  /\ (Forall (fun c => (c =? 123) = false) text ->
      parseJsonFromText number JSON_parse text = None).
Proof.
  unfold parseJsonFromText. split.
  - intros v. destruct text as [|c0 text0] eqn:Et; [discriminate|]. rewrite <- Et.
    destruct (indexOf 123 text) as [i|] eqn:Ei; [|discriminate].
    destruct (lastIndexOf 125 text) as [j|] eqn:Ej; [|discriminate].
    destruct (Nat.leb_spec j i) as [|Hlt]; [discriminate|].
    apply indexOf_lookup in Ei. apply lastIndexOf_lookup in Ej.
    destruct (slice_ends text i j _ _ Ei Ej Hlt) as [inner Hs].
    intros Hv. exists inner. rewrite <- Hs. split; [apply slice_included | exact Hv].
  - intros H. destruct text as [|c0 text0] eqn:Et; [reflexivity|]. rewrite <- Et in *.
    destruct (indexOf 123 text) as [i|] eqn:Ei; [|reflexivity].
    apply indexOf_lookup in Ei. rewrite Forall_lookup in H.
    specialize (H i _ Ei). discriminate H.
Qed.
End JsonFacts.

Lemma parseJsonFromText_braces_witness :
  parseJsonFromText unit (fun _ => Some (JNull unit)) (js "no json here") = None.
Proof.
  apply (proj2 (parseJsonFromText_braces unit (fun _ => Some (JNull unit))
                  (js "no json here"))).
  repeat constructor.
Defined.

(** ** The attributes of an #EXTINF line *)

Section AttributeMatches.
Variable input : jsstring.
Local Abbreviation MatchesCS := (Matches false input).

Lemma Matches_Chr c st st' :
  MatchesCS (Chr c) st st' ->
  input !! endIndex st = Some c /\ st' = MState (S (endIndex st)) (captures st).
Proof.
  intros H. inv H.
  match goal with H : (_ =? _) = true |- _ => apply N.eqb_eq in H; simpl in H end.
  subst. auto.
Qed.

Lemma Matches_groupFree r st st' :
  MatchesCS r st st' -> groupFree r = true -> captures st' = captures st.
Proof.
  induction 1; simpl; intros Hg; try reflexivity;
    try (apply andb_true_iff in Hg as [? ?]); try discriminate; auto.
  - rewrite IHMatches2, IHMatches1; auto.
  - rewrite IHMatches2, IHMatches1; auto.
Qed.

Lemma substring_included i j : includes (substring input i j) input = true.
Proof. apply (slice_included input i j). Qed.

(** One match of the attribute pattern: its two groups, and the text it
    covers. *)
Lemma attributeRegex_match j st' :
  MatchesCS attributeRegex (MState j []) st' ->
  exists key val,
    capture input (j, st') 1 = Some key
    /\ capture input (j, st') 2 = Some val
    /\ substring input j (endIndex st') = key ++ [61; 34] ++ val ++ [34]
    /\ Lang false (Plus true (Cls false [(97, 122); (65, 90); (48, 57); (45, 45)])) key
    /\ Lang false (Star true (Cls true [(34, 34)])) val.
Proof.
  unfold attributeRegex. intros H.
  apply Matches_Seq in H as (s1 & H1 & H).
  apply Matches_Group in H1 as (sa & Ha & ->).
  apply Matches_Seq in H as (s2 & H2 & H).
  apply Matches_Chr in H2 as [Heq ->]. simpl in Heq.
  apply Matches_Seq in H as (s3 & H3 & H).
  apply Matches_Chr in H3 as [Hq ->]. simpl in Hq.
  apply Matches_Seq in H as (s4 & H4 & H).
  apply Matches_Group in H4 as (sb & Hb & ->).
  apply Matches_Chr in H as [Hq' ->]. simpl in Hq'.
  pose proof (Matches_groupFree _ _ _ Hb eq_refl) as Hcaps. simpl in Hcaps.
  pose proof (Matches_bounds _ _ _ _ _ Ha) as [Ba _].
  pose proof (Matches_bounds _ _ _ _ _ Hb) as [Bb _].
  pose proof (Matches_Lang _ _ _ _ _ Ha) as La.
  pose proof (Matches_Lang _ _ _ _ _ Hb) as Lb.
  simpl in Ba, Bb, La, Lb.
  exists (substring input j (endIndex sa)),
         (substring input (S (S (endIndex sa))) (endIndex sb)).
  split; [|split; [|split; [|split]]].
  - unfold capture. simpl. rewrite Hcaps. reflexivity.
  - reflexivity.
  - simpl.
    rewrite <- (substring_app input j (endIndex sa) (S (endIndex sb))) by lia.
    f_equal.
    rewrite <- (substring_app input (endIndex sa) (S (endIndex sa)) (S (endIndex sb))) by lia.
    rewrite (substring_single input _ _ Heq).
    rewrite <- (substring_app input (S (endIndex sa)) (S (S (endIndex sa)))
                  (S (endIndex sb))) by lia.
    rewrite (substring_single input _ _ Hq).
    rewrite <- (substring_app input (S (S (endIndex sa))) (endIndex sb)
                  (S (endIndex sb))) by lia.
    rewrite (substring_single input _ _ Hq'). reflexivity.
  - exact La.
  - exact Lb.
Qed.
End AttributeMatches.

Lemma keyClass_chars w :
  Lang false (Plus true (Cls false [(97, 122); (65, 90); (48, 57); (45, 45)])) w ->
  w <> [] /\ Forall (fun c => isAttributeKeyChar c = true) w.
Proof.
  assert (Hleaf : forall ch,
             Lang false (Cls false [(97, 122); (65, 90); (48, 57); (45, 45)]) [ch] ->
             isAttributeKeyChar ch = true).
  { intros ch H. inv H. unfold classMatches, inRanges in *. simpl in *.
    unfold isAttributeKeyChar, isAlnum.
    match goal with H : _ = true |- _ => revert H end.
    rewrite !orb_false_r. case_leb; intros; first [reflexivity | discriminate | lia]. }
  intros H. split.
  - unfold Plus in H. apply Lang_Seq in H as (w1 & w2 & -> & H1 & _).
    inv H1. discriminate.
  - eapply (Lang_leaves false); [|exact H]. simpl. auto.
Qed.

Lemma valueClass_chars w :
  Lang false (Star true (Cls true [(34, 34)])) w ->
  Forall (fun c => (c =? 34) = false) w.
Proof.
  intros H. eapply (Lang_leaves false); [|exact H]. simpl.
  intros ch Hch. inv Hch. unfold classMatches, inRanges in *. simpl in *.
  match goal with H : _ = true |- _ => revert H end.
  rewrite !orb_false_r. case_leb; intros; first [reflexivity | discriminate | lia].
Qed.

(** No match of the attribute pattern is empty, so the loop of
    [parseAttributes] ends. *)
Lemma parseAttributes_loop_ends line :
  exists ms, execAll false line attributeRegex (S (length line)) 0 = Some ms.
Proof.
  apply execAll_ends; [|lia]. intros j st' HM.
  pose proof (Matches_bounds _ _ _ _ _ HM) as [Hle _]. simpl in Hle.
  apply attributeRegex_match in HM as (key & val & _ & _ & Hs & _ & _).
  destruct (Nat.eq_dec j (endIndex st')) as [E|]; [|lia].
  rewrite <- E, substring_empty in Hs by lia.
  destruct key; discriminate Hs.
Qed.

Lemma setAttribute_fold line ms :
  forall acc key val,
    fold_left (setAttribute line) ms acc !! key = Some val ->
    acc !! key = Some val
    \/ exists m, In m ms /\ capture line m 1 = Some key /\ capture line m 2 = Some val.
Proof.
  induction ms as [|m ms IH]; simpl; intros acc key val H; [now left|].
  apply IH in H as [H|(m' & ? & ?)]; [|right; eauto].
  unfold setAttribute in H.
  destruct (capture line m 1) as [k|] eqn:E1; [|now left].
  destruct (capture line m 2) as [v|] eqn:E2; [|now left].
  destruct (decide (k = key)) as [->|Hne].
  - rewrite lookup_insert_eq in H. injection H as <-. right. eauto.
  - rewrite lookup_insert_ne in H by exact Hne. now left.
Qed.

(** X18: every attribute [parseAttributes] reports is written on the line
    as key="value": the key is a non-empty run of letters, digits and
    hyphens, the value holds no double quote, and the text of the key, an
    equals sign and the quoted value occurs in the line. *)
Theorem parseAttributes_entries line key val :
  parseAttributes line !! key = Some val ->
  key <> []
  /\ Forall (fun c => isAttributeKeyChar c = true) key
  /\ Forall (fun c => (c =? 34) = false) val
  /\ includes (key ++ [61; 34] ++ val ++ [34]) line = true.
Proof.
  unfold parseAttributes.
  destruct (execAll false line attributeRegex (S (length line)) 0) as [ms|] eqn:E;
    [|now rewrite lookup_empty].
  intros H. apply setAttribute_fold in H as [H|(m & Hm & H1 & H2)];
    [now rewrite lookup_empty in H|].
  pose proof (execAll_sound _ _ _ _ _ _ E m Hm) as HM.
  destruct m as [j st']. simpl in HM.
  apply attributeRegex_match in HM as (k & v & Hk & Hv & Hs & Lk & Lv).
  rewrite Hk in H1. rewrite Hv in H2. injection H1 as <-. injection H2 as <-.
  apply keyClass_chars in Lk as [Hne Hkc]. apply valueClass_chars in Lv.
  repeat split; try assumption.
  rewrite <- Hs. apply substring_included.
Qed.

Lemma parseAttributes_entries_witness :
  js "tvg-logo" <> []
  /\ Forall (fun c => isAttributeKeyChar c = true) (js "tvg-logo")
  /\ Forall (fun c => (c =? 34) = false) (js "http://x/logo.png")
  /\ includes (js "tvg-logo" ++ [61; 34] ++ js "http://x/logo.png" ++ [34])
       (js "#EXTINF:-1 tvg-logo=" ++ [34] ++ js "http://x/logo.png" ++ [34]
        ++ js ",Channel One") = true.
Proof.
  apply parseAttributes_entries. vm_compute. reflexivity.
Defined.

(** The loop of [collectUrls] and that of [parseAttributes] end on every
    input: see [collectUrls_loop_ends] and [parseAttributes_loop_ends]. *)

(** ** The default playlist *)


(** ** The scraper and the resolvers built on it *)

Section ResolverFacts.
Variable number : Type.
Variable fetchWithTimeoutBody : jsstring -> result (option jsstring).
Variable fetchBody : jsstring -> result (option jsstring).

Local Abbreviation scrape := (scrapeEmbedCandidates fetchWithTimeoutBody fetchBody).

Local Abbreviation bodyRead := (pageRead fetchWithTimeoutBody fetchBody).

Lemma scrapeOne_In found url u :
  In u (scrapeOne fetchWithTimeoutBody fetchBody found url) ->
  In u found \/ exists body, bodyRead url body /\ In u (collectUrls body).
Proof.
  unfold scrapeOne, addAll, pageRead.
  destruct (fetchWithTimeoutBody url) as [[body|]|e] eqn:E1.
  - intros H. apply setAdd_fold_In in H as [H|H]; [now left | right; eauto].
  - now left.
  - destruct (fetchBody url) as [[body|]|e'] eqn:E2; try (now left).
    intros H. apply setAdd_fold_In in H as [H|H]; [now left|].
    right. exists body. split; [right; eauto | exact H].
Qed.

Lemma scrapeOne_NoDup found url :
  NoDup found -> NoDup (scrapeOne fetchWithTimeoutBody fetchBody found url).
Proof.
  intros H. unfold scrapeOne, addAll.
  destruct (fetchWithTimeoutBody url) as [[body|]|e];
    [now apply setAdd_fold_NoDup | assumption |].
  destruct (fetchBody url) as [[body|]|e'];
    [now apply setAdd_fold_NoDup | assumption | assumption].
Qed.

Lemma scrape_fold urls :
  forall found,
    NoDup found ->
    NoDup (fold_left (scrapeOne fetchWithTimeoutBody fetchBody) urls found)
    /\ forall u,
        In u (fold_left (scrapeOne fetchWithTimeoutBody fetchBody) urls found) ->
        In u found
        \/ exists url body, In url urls /\ bodyRead url body /\ In u (collectUrls body).
Proof.
  induction urls as [|url urls IH]; simpl; intros found Hnd; [auto|].
  destruct (IH _ (scrapeOne_NoDup found url Hnd)) as [Hn Hin].
  split; [exact Hn|]. intros u Hu. apply Hin in Hu as [Hu|(x & body & ? & ? & ?)].
  - apply scrapeOne_In in Hu as [Hu|(body & ? & ?)]; [now left|].
    right. exists url, body. auto.
  - right. exists x, body. auto.
Qed.

(** X20: the scraper returns each media URL once, and every URL it
    returns was extracted from a page it did read: the body of the first
    fetch of one of the embed URLs or, when that fetch threw, the body of
    the second attempt. *)
Theorem scrape_provenance urls :
  NoDup (scrape urls)
  /\ forall u, In u (scrape urls) ->
       exists url body, In url urls /\ bodyRead url body /\ In u (collectUrls body).
Proof.
  destruct (scrape_fold urls [] NoDup_nil_2) as [Hn Hin].
  split; [exact Hn|]. intros u Hu. apply Hin in Hu as [[]|Hu]. exact Hu.
Qed.
End ResolverFacts.

Section ScrapeRetry.
Variable fetchWithTimeoutBody : jsstring -> result (option jsstring).

(** X21: the second attempt is for exceptions only: when every first
    fetch comes back with a response, ok or not, the plain [fetch] has no
    part in the result. *)
Theorem scrape_retries_on_exception_only
    (fetchBody fetchBody' : jsstring -> result (option jsstring)) urls :
  Forall (fun url => exists r, fetchWithTimeoutBody url = Ok r) urls ->
  scrapeEmbedCandidates fetchWithTimeoutBody fetchBody urls
  = scrapeEmbedCandidates fetchWithTimeoutBody fetchBody' urls.
Proof.
  unfold scrapeEmbedCandidates. intros H. generalize (@nil jsstring).
  induction H as [|url urls [r Hr] _ IH]; intros found; simpl; [reflexivity|].
  assert (E : scrapeOne fetchWithTimeoutBody fetchBody found url
              = scrapeOne fetchWithTimeoutBody fetchBody' found url).
  { unfold scrapeOne. rewrite Hr. now destruct r. }
  rewrite E. apply IH.
Qed.
End ScrapeRetry.

Lemma scrape_retries_on_exception_only_witness :
  scrapeEmbedCandidates (fun _ => Ok None) (fun _ => Throw TypeError)
    [js "https://vidsrc.xyz/embed/movie/1"]
  = scrapeEmbedCandidates (fun _ => Ok None)
      (fun _ => Ok (Some (js "https://cdn.example/a.m3u8")))
      [js "https://vidsrc.xyz/embed/movie/1"].
Proof.
  apply scrape_retries_on_exception_only. repeat constructor. eauto.
Defined.

Lemma filter_all {A} (f : A -> bool) l :
  Forall (fun x => f x = true) l -> List.filter f l = l.
Proof. induction 1 as [|x l Hx _ IH]; simpl; [reflexivity|]. now rewrite Hx, IH. Qed.

Lemma collectUrls_nonempty text u : In u (collectUrls text) -> u <> [].
Proof. intros H. now apply collectUrls_Lang, mediaUrlRegex_Lang in H. Qed.

Section VidsrcFacts.
Variable number : Type.
Variable fetchWithTimeoutBody : jsstring -> result (option jsstring).
Variable fetchBody : jsstring -> result (option jsstring).

Local Abbreviation scraped :=
  (fun id category season episode =>
     scrapeEmbedCandidates fetchWithTimeoutBody fetchBody
       (buildVidsrcEmbeds id category season episode)).
Local Abbreviation byId := (resolveVidsrcById number fetchWithTimeoutBody fetchBody).

Lemma scraped_nonempty urls :
  Forall (fun u => negb (streq u []) = true)
    (scrapeEmbedCandidates fetchWithTimeoutBody fetchBody urls).
Proof.
  apply Forall_forall. intros u Hu. apply list_elem_of_In in Hu.
  destruct (scrape_fold fetchWithTimeoutBody fetchBody urls [] NoDup_nil_2) as [_ Hin].
  apply Hin in Hu as [[]|(url & body & _ & _ & Hu)].
  apply collectUrls_nonempty in Hu. destruct u; [congruence | reflexivity].
Qed.

(** X22: [resolveVidsrcById] returns all the scraper found, untouched by
    the filter since no extracted URL is empty, and fails with [No
    playable URLs found from VidSrc mirrors] exactly when the scraper
    found nothing on any of the twelve mirrors. *)
Theorem resolveVidsrcById_result id category season episode :
  length (buildVidsrcEmbeds id category season episode) = 12%nat
  /\ (scraped id category season episode = [] ->
      byId id category season episode
      = Throw (Error (js "No playable URLs found from VidSrc mirrors")))
  /\ (scraped id category season episode <> [] ->
      exists shown,
        byId id category season episode
        = Ok {| title := shown;
                urls := scraped id category season episode;
                raw := join [10] (buildVidsrcEmbeds id category season episode) |}).
Proof.
  split; [unfold buildVidsrcEmbeds; destruct (streq category (js "movie")); reflexivity|].
  unfold resolveVidsrcById. rewrite (filter_all _ _ (scraped_nonempty _)).
  split; [now intros ->|].
  destruct (scrapeEmbedCandidates _ _ _) as [|u us]; [congruence | eauto].
Qed.

(** The answer of the watch handlers on what [resolveVidsrcById] gives. *)
Lemma watchReply_byId id category season episode :
  match watchReply number (byId id category season episode) with
  | Json _ body =>
      exists primary,
        embedUrl number body = Some primary
        /\ head (alternateUrls number body) = Some primary
        /\ queryParam (js "url") (watchStreamUrl number body) = Some (Ok primary)
  | Failed _ status _ => status = 500
  end.
Proof.
  unfold watchReply, resolveVidsrcById.
  rewrite (filter_all _ _ (scraped_nonempty _)).
  destruct (scrapeEmbedCandidates _ _ _) as [|u us]; [reflexivity|].
  cbn [mbind result_bind urls title].
  destruct (encodeURIComponent u) as [e|err] eqn:E; [|reflexivity].
  cbn [mbind result_bind]. exists u.
  cbn [embedUrl alternateUrls watchStreamUrl head].
  split; [reflexivity|]. split; [reflexivity|].
  rewrite queryParam_relay by (eapply encodeURIComponent_chars; exact E).
  f_equal. now apply decodeURIComponent_encodeURIComponent.
Qed.

(** X23: [/api/movies/:id/watch] and [/api/tv/:id/watch] answer either
    with status 500 or with a body whose embedUrl is the first of its
    alternateUrls and whose streamUrl carries that URL in its [url]
    parameter, so that decoding the parameter gives the embedUrl back. *)
Theorem watch_replies id season episode :
  match movieWatch number fetchWithTimeoutBody fetchBody id with
  | Json _ body =>
      exists primary,
        embedUrl number body = Some primary
        /\ head (alternateUrls number body) = Some primary
        /\ queryParam (js "url") (watchStreamUrl number body) = Some (Ok primary)
  | Failed _ status _ => status = 500
  end
  /\ match tvWatch number fetchWithTimeoutBody fetchBody id season episode with
     | Json _ body =>
         exists primary,
           embedUrl number body = Some primary
           /\ head (alternateUrls number body) = Some primary
           /\ queryParam (js "url") (watchStreamUrl number body) = Some (Ok primary)
     | Failed _ status _ => status = 500
     end.
Proof. split; apply watchReply_byId. Qed.
End VidsrcFacts.

Lemma resolveVidsrcById_result_witness :
  resolveVidsrcById unit (fun _ => Ok None) (fun _ => Ok None)
    (js "603") (js "movie") (js "1") (js "1")
  = Throw (Error (js "No playable URLs found from VidSrc mirrors")).
Proof.
  apply (proj1 (proj2 (resolveVidsrcById_result unit (fun _ => Ok None) (fun _ => Ok None)
                         (js "603") (js "movie") (js "1") (js "1")))).
  reflexivity.
Defined.



Section AniCliFacts.
Variable number : Type.
Variable runCommand : jsstring -> list jsstring -> result jsstring.

End AniCliFacts.


(** ** [GET /api/vod/play] *)

Lemma trimStart_blank s :
  Forall (fun c => isWhiteSpace c = true) s -> trimStart s = [].
Proof. induction 1 as [|c s Hc _ IH]; simpl; [reflexivity|]. now rewrite Hc. Qed.

Lemma trim_blank s : Forall (fun c => isWhiteSpace c = true) s -> trim s = [].
Proof. intros H. unfold trim. now rewrite (trimStart_blank s H). Qed.

Lemma lookupProvider_name providerId k :
  lookupProvider providerId = IsProvider k -> providerName k = providerId.
Proof.
  unfold lookupProvider.
  destruct (streq providerId (js "vidsrc")) eqn:E1;
    [apply streq_eq in E1; now intros [= <-]|].
  destruct (streq providerId (js "ani-cli")) eqn:E2;
    [apply streq_eq in E2; now intros [= <-]|].
  destruct (streq providerId (js "lobster")) eqn:E3;
    [apply streq_eq in E3; now intros [= <-]|].
  destruct (existsb _ _); discriminate.
Qed.

Section VodPlayFacts.
Variable number : Type.
Variable numberTruthy : number -> bool.
Variable JSON_parse : jsstring -> option (JSON number).
Variable TMDB_TOKEN : option jsstring.
Variable runCommand : jsstring -> list jsstring -> result jsstring.
Variable vidsrcLookup : jsstring -> jsstring -> jsstring -> result (ResolvedTitle number).
Variable commandExists : jsstring -> bool.

Local Abbreviation play :=
  (vodPlay number numberTruthy JSON_parse TMDB_TOKEN runCommand vidsrcLookup commandExists).

(** X25: a query that is missing, empty or white space only is answered
    with status 400 and [Missing query parameter], before the provider is
    even looked up. *)
Theorem vodPlay_blank_query provider query episode quality type :
  Forall (fun c => isWhiteSpace c = true) (default [] query) ->
  play provider query episode quality type
  = Failed (PlayBody number) 400 (js "Missing query parameter").
Proof.
  intros H. unfold vodPlay.
  replace (trim (orDefault query [])) with (@nil N); [reflexivity|].
  symmetry. apply trim_blank. destruct query as [[|c q]|]; simpl in *; auto.
Qed.

(** X26: a successful answer names the provider that was asked for (the
    built-in one by default), its url is the first of its alternatives,
    and the [url] parameter of its streamUrl decodes to that url. *)
Theorem vodPlay_success provider query episode quality type body :
  play provider query episode quality type = Json (PlayBody number) body ->
  playProvider number body = orDefault provider (js "vidsrc")
  /\ head (alternatives number body) = Some (playUrl number body)
  /\ queryParam (js "url") (playStreamUrl number body)
     = Some (Ok (playUrl number body)).
Proof.
  unfold vodPlay. destruct (trim (orDefault query [])) as [|c q]; [discriminate|].
  destruct (lookupProvider (orDefault provider (js "vidsrc"))) as [k| |] eqn:Ek;
    try discriminate.
  destruct (negb _); [discriminate|].
  destruct (runResolver _ _ _ _ _ _ _ _ _ _ _) as [r|e]; [|discriminate].
  cbn [mbind result_bind]. destruct (urls number r) as [|primary rest] eqn:Eu; [discriminate|].
  destruct (encodeURIComponent primary) as [enc|e] eqn:Ee; [|discriminate].
  cbn [mbind result_bind]. intros [= <-].
  cbn [playProvider alternatives playUrl playStreamUrl head].
  split; [now apply lookupProvider_name|]. split; [reflexivity|].
  change (queryParam (js "url") (relayPrefix ++ enc) = Some (Ok primary)).
  rewrite queryParam_relay by (eapply encodeURIComponent_chars; exact Ee).
  f_equal. now apply decodeURIComponent_encodeURIComponent.
Qed.
End VodPlayFacts.

Section VodPlayBinary.
Variable number : Type.
Variable numberTruthy : number -> bool.
Variable JSON_parse : jsstring -> option (JSON number).
Variable commandExists : jsstring -> bool.

(** X27: a provider whose binary is not installed is never run: with
    ani-cli or lobster asked for and [commandExists] false for it, every
    request with a query is answered with status 400, whatever the
    subprocess, the token and the network would have given. *)
Theorem vodPlay_missing_binary k query episode quality type
    (token token' : option jsstring)
    (run run' : jsstring -> list jsstring -> result jsstring)
    (vidsrc vidsrc' : jsstring -> jsstring -> jsstring -> result (ResolvedTitle number)) :
  k <> Vidsrc ->
  commandExists (providerName k) = false ->
  trim query <> [] ->
  vodPlay number numberTruthy JSON_parse token run vidsrc commandExists
    (Some (providerName k)) (Some query) episode quality type
  = vodPlay number numberTruthy JSON_parse token' run' vidsrc' commandExists
      (Some (providerName k)) (Some query) episode quality type
  /\ exists error,
      vodPlay number numberTruthy JSON_parse token run vidsrc commandExists
        (Some (providerName k)) (Some query) episode quality type
      = Failed (PlayBody number) 400 error.
Proof.
  intros Hk Hc Hq. unfold vodPlay.
  assert (Hquery : orDefault (Some query) [] = query) by (now destruct query).
  assert (Hp : orDefault (Some (providerName k)) (js "vidsrc") = providerName k)
    by (now destruct k).
  assert (Hl : lookupProvider (providerName k) = IsProvider k) by (now destruct k).
  assert (Hd : dependsOn k = Some (providerName k)) by (destruct k; [congruence | |]; reflexivity).
  rewrite Hquery, Hp, Hl, Hd, Hc. destruct (trim query) as [|c q]; [congruence|].
  cbn [negb]. split; [reflexivity | eauto].
Qed.
End VodPlayBinary.

Lemma vodPlay_blank_query_witness :
  vodPlay unit (fun _ => true) (fun _ => None) None
    (fun _ _ => Ok []) (fun _ _ _ => Throw TypeError) (fun _ => true)
    (Some (js "bogus")) (Some (js "   ")) None None None
  = Failed (PlayBody unit) 400 (js "Missing query parameter").
Proof. apply vodPlay_blank_query. repeat constructor. Defined.

Lemma vodPlay_success_witness :
  exists body,
    vodPlay unit (fun _ => true) (fun _ => None) None
      (fun _ _ => Ok (js "https://cdn.example/ep1.m3u8")) (fun _ _ _ => Throw TypeError)
      (fun _ => true)
      (Some (js "ani-cli")) (Some (js "one piece")) None None None
    = Json (PlayBody unit) body
    /\ playProvider unit body = js "ani-cli"
    /\ head (alternatives unit body) = Some (playUrl unit body)
    /\ queryParam (js "url") (playStreamUrl unit body) = Some (Ok (playUrl unit body)).
Proof.
  assert (E : exists body,
             vodPlay unit (fun _ => true) (fun _ => None) None
               (fun _ _ => Ok (js "https://cdn.example/ep1.m3u8"))
               (fun _ _ _ => Throw TypeError) (fun _ => true)
               (Some (js "ani-cli")) (Some (js "one piece")) None None None
             = Json (PlayBody unit) body) by (vm_compute; eauto).
  destruct E as [body E]. exists body. split; [exact E|].
  exact (vodPlay_success _ _ _ _ _ _ _ _ _ _ _ _ _ E).
Defined.

Lemma vodPlay_missing_binary_witness :
  exists error,
    vodPlay unit (fun _ => true) (fun _ => None) None
      (fun _ _ => Ok (js "https://cdn.example/ep1.m3u8")) (fun _ _ _ => Throw TypeError)
      (fun _ => false)
      (Some (js "lobster")) (Some (js "dune")) None None None
    = Failed (PlayBody unit) 400 error.
Proof.
  apply (proj2 (vodPlay_missing_binary unit (fun _ => true) (fun _ => None)
                  (fun _ => false) Lobster (js "dune") None None None None None
                  (fun _ _ => Ok (js "https://cdn.example/ep1.m3u8"))
                  (fun _ _ => Ok (js "https://cdn.example/ep1.m3u8"))
                  (fun _ _ _ => Throw TypeError) (fun _ _ _ => Throw TypeError)
                  ltac:(discriminate) eq_refl ltac:(vm_compute; discriminate))).
Defined.

(** ** A metadata endpoint behind the cache *)

Section CachedEndpointFacts.
Variable Value : Type.
Variable valueTruthy : Value -> bool.

(** X28: after a request to [/api/anime/popular] that missed the cache
    and fetched a truthy payload, a request for the same page made within
    TTL of the insertion is answered with that payload from the cache: the
    upstream has no part in the answer and the cache is left as it is. *)
Theorem animePopular_second_request (page : option jsstring)
    (now1 later1 now2 later2 : Z)
    (fresh : Value) (upstream2 : result Value)
    (metaCache : gmap jsstring (CacheEntry Value)) :
  fst (getCache Value now1 (js "jikan:anime:popular:" ++ orDefault page (js "1"))
         metaCache) = None ->
  valueTruthy fresh = true ->
  (now2 <= later1 + CACHE_TTL_MS)%Z ->
  fst (animePopular Value valueTruthy page now1 later1 (Ok fresh) metaCache)
  = MetaJson Value fresh
  /\ animePopular Value valueTruthy page now2 later2 upstream2
       (snd (animePopular Value valueTruthy page now1 later1 (Ok fresh) metaCache))
     = (MetaJson Value fresh,
        snd (animePopular Value valueTruthy page now1 later1 (Ok fresh) metaCache)).
Proof.
  intros Hmiss Htruthy Hnow. unfold animePopular.
  change (match page with Some (c :: p) => c :: p | _ => js "1" end)
    with (orDefault page (js "1")).
  set (key := js "jikan:anime:popular:" ++ orDefault page (js "1")) in *.
  destruct (getCache Value now1 key metaCache) as [cached cache'] eqn:E1.
  simpl in Hmiss. subst cached. cbn [fst snd].
  split; [reflexivity|].
  unfold getCache at 1, setCache at 1. rewrite lookup_insert_eq. cbn [expires value].
  destruct (Z.gtb_spec now2 (later1 + CACHE_TTL_MS)); [lia|].
  now rewrite Htruthy.
Qed.
End CachedEndpointFacts.

Lemma animePopular_second_request_witness :
  fst (animePopular N (fun n => negb (n =? 0)) (Some (js "2")) 1000 1200 (Ok 7) ∅)
  = MetaJson N 7
  /\ animePopular N (fun n => negb (n =? 0)) (Some (js "2")) 30000 30500
       (Throw (Error (js "Jikan API error: 429")))
       (snd (animePopular N (fun n => negb (n =? 0)) (Some (js "2")) 1000 1200 (Ok 7) ∅))
     = (MetaJson N 7,
        snd (animePopular N (fun n => negb (n =? 0)) (Some (js "2")) 1000 1200 (Ok 7) ∅)).
Proof.
  apply (animePopular_second_request N (fun n => negb (n =? 0)) (Some (js "2"))
           1000 1200 30000 30500 7 (Throw (Error (js "Jikan API error: 429"))) ∅).
  - reflexivity.
  - reflexivity.
  - unfold CACHE_TTL_MS. lia.
Defined.

(** ** Slugs *)

(** *** Replacing every match of a pattern *)

Section ReplaceFacts.
Variable input : jsstring.
Variable r : regex.
Variable replacement : jsstring.

Local Abbreviation matchAt i := (head (rmatch false input r (MState i []))).
Local Abbreviation replaced fuel i :=
  (assemble input replacement (replaceResults input r fuel i) i).

Lemma exec_here i st :
  matchAt i = Some st -> (i <= length input)%nat ->
  exec false input r i = Some (i, st).
Proof.
  intros H Hi. unfold exec.
  destruct (Nat.ltb_spec (length input) i) as [|_]; [lia|].
  cbn [searchFrom]. destruct (rmatch false input r (MState i [])); [discriminate|].
  now injection H as ->.
Qed.

Lemma exec_skip i :
  matchAt i = None -> (i < length input)%nat ->
  exec false input r i = exec false input r (S i).
Proof.
  intros H Hi. unfold exec.
  destruct (Nat.ltb_spec (length input) i) as [|_]; [lia|].
  destruct (Nat.ltb_spec (length input) (S i)) as [|_]; [lia|].
  cbn [searchFrom]. destruct (rmatch false input r (MState i [])); [|discriminate].
  replace (length input - i)%nat with (S (length input - S i)) by lia.
  reflexivity.
Qed.

Lemma exec_end :
  matchAt (length input) = None ->
  exec false input r (length input) = None.
Proof.
  intros H. unfold exec.
  destruct (Nat.ltb_spec (length input) (length input)) as [|_]; [lia|].
  replace (length input - length input)%nat with O by lia.
  cbn [searchFrom].
  now destruct (rmatch false input r (MState (length input) [])).
Qed.

Lemma substring_cons i j ch :
  input !! i = Some ch -> (S i <= j)%nat ->
  substring input i j = ch :: substring input (S i) j.
Proof.
  intros H Hj. unfold substring. rewrite (drop_S _ _ _ H).
  now replace (j - i)%nat with (S (j - S i)) by lia.
Qed.

Lemma replaced_end fuel :
  matchAt (length input) = None -> replaced fuel (length input) = [].
Proof.
  intros H. destruct fuel as [|f]; cbn [replaceResults].
  - cbn [assemble]. now rewrite drop_all.
  - rewrite (exec_end H). cbn [assemble]. now rewrite drop_all.
Qed.

Lemma replaced_skip fuel i ch :
  input !! i = Some ch -> matchAt i = None ->
  replaced fuel i = ch :: replaced fuel (S i).
Proof.
  intros Hch H. pose proof (lookup_lt_Some _ _ _ Hch) as Hi.
  destruct fuel as [|f]; cbn [replaceResults].
  - cbn [assemble]. apply (drop_S _ _ _ Hch).
  - rewrite (exec_skip _ H Hi).
    destruct (exec false input r (S i)) as [[j st]|] eqn:E.
    + apply exec_sound in E as [Hj _]. cbn [assemble].
      destruct (Nat.leb_spec i j) as [_|]; [|lia].
      destruct (Nat.leb_spec (S i) j) as [_|]; [|lia].
      now rewrite (substring_cons _ _ _ Hch) by lia.
    + cbn [assemble]. apply (drop_S _ _ _ Hch).
Qed.

Lemma replaced_match fuel i st :
  matchAt i = Some st -> (i < endIndex st)%nat -> (i <= length input)%nat ->
  replaced (S fuel) i = replacement ++ replaced fuel (endIndex st).
Proof.
  intros H Hlt Hi. cbn [replaceResults]. rewrite (exec_here _ _ H Hi).
  cbv zeta.
  destruct (Nat.eqb_spec (endIndex st) i) as [|_]; [lia|].
  cbn [assemble]. destruct (Nat.leb_spec i i) as [_|]; [|lia].
  now rewrite substring_empty by lia.
Qed.

End ReplaceFacts.

(** *** Runs of a character class *)

Section ClassRun.
Variable input : jsstring.
Variable ok : N -> bool.

Lemma runLength_le s : (runLength ok s <= length s)%nat.
Proof. induction s as [|c s IH]; simpl; [lia|]. destruct (ok c); simpl; lia. Qed.

Lemma stepChar_at i caps :
  stepChar input ok (MState i caps)
  = match input !! i with
    | Some ch => if ok ch then [MState (S i) caps] else []
    | None => []
    end.
Proof. reflexivity. Qed.

Lemma starLoop_class fuel :
  forall i caps, (length input - i < fuel)%nat ->
    head (starLoop (stepChar input ok) true fuel (MState i caps))
    = Some (MState (i + runLength ok (drop i input)) caps).
Proof.
  induction fuel as [|f IH]; intros i caps Hf; [lia|].
  cbn [starLoop]. rewrite stepChar_at. cbn [endIndex].
  destruct (input !! i) as [ch|] eqn:E.
  - pose proof (lookup_lt_Some _ _ _ E) as Hi.
    rewrite (drop_S _ _ _ E). cbn [runLength].
    destruct (ok ch).
    + cbn [List.filter endIndex]. rewrite (proj2 (Nat.ltb_lt i (S i))) by lia.
      cbn [flat_map]. rewrite app_nil_r.
      specialize (IH (S i) caps ltac:(lia)).
      destruct (starLoop (stepChar input ok) true f (MState (S i) caps)) as [|st l];
        [discriminate|].
      cbn in IH |- *. injection IH as ->. do 2 f_equal. lia.
    + cbn. do 2 f_equal. lia.
  - rewrite drop_ge by (apply lookup_ge_None; exact E).
    cbn. do 2 f_equal. lia.
Qed.

End ClassRun.

Section RunReplace.
Variable input : jsstring.
Variable inv : bool.
Variable ranges : list (N * N).
Variable replacement : jsstring.

Local Abbreviation ok := (classMatches false inv ranges).
Local Abbreviation runs := (Plus true (Cls inv ranges)).

Lemma rmatch_runs i :
  head (rmatch false input runs (MState i []))
  = match input !! i with
    | Some ch =>
        if ok ch then Some (MState (i + runLength ok (drop i input)) []) else None
    | None => None
    end.
Proof.
  unfold Plus. cbn [rmatch]. rewrite stepChar_at.
  destruct (input !! i) as [ch|] eqn:E; [|reflexivity].
  pose proof (lookup_lt_Some _ _ _ E) as Hi.
  destruct (ok ch) eqn:Hok; [|reflexivity].
  cbn [flat_map endIndex]. rewrite app_nil_r.
  rewrite starLoop_class by lia.
  rewrite (drop_S _ _ _ E). cbn [runLength]. rewrite Hok.
  do 2 f_equal. lia.
Qed.

Lemma collapse_run s :
  collapse ok replacement true s
  = collapse ok replacement false (drop (runLength ok s) s).
Proof.
  induction s as [|c s IH]; [reflexivity|].
  cbn [runLength collapse]. destruct (ok c) eqn:Hok.
  - cbn [drop]. exact IH.
  - cbn [drop collapse]. now rewrite Hok.
Qed.

Lemma replaced_runs n :
  forall i fuel,
    (length input - i <= n)%nat -> (i <= length input)%nat ->
    (S (length input) < fuel + i)%nat ->
    assemble input replacement (replaceResults input runs fuel i) i
    = collapse ok replacement false (drop i input).
Proof.
  induction n as [n IH] using lt_wf_ind. intros i fuel Hn Hi Hf.
  pose proof (rmatch_runs i) as Hm.
  destruct (input !! i) as [ch|] eqn:E.
  - pose proof (lookup_lt_Some _ _ _ E) as Hlt.
    rewrite (drop_S _ _ _ E). cbn [collapse].
    destruct (ok ch) eqn:Hok.
    + destruct fuel as [|f]; [lia|].
      pose proof (runLength_le ok (drop i input)) as Hr.
      rewrite length_drop in Hr.
      assert (Hrun : runLength ok (drop i input)
                     = S (runLength ok (drop (S i) input))).
      { rewrite (drop_S _ _ _ E). cbn [runLength]. now rewrite Hok. }
      rewrite (replaced_match _ _ _ _ _ _ Hm); cbn [endIndex]; [|lia|lia].
      f_equal.
      rewrite (IH (length input - (i + runLength ok (drop i input)))%nat);
        [|lia|lia|lia|lia].
      rewrite collapse_run. f_equal.
      rewrite Hrun. rewrite <- drop_drop. rewrite (drop_S _ _ _ E).
      reflexivity.
    + rewrite (replaced_skip _ _ _ _ _ _ E Hm). f_equal.
      apply (IH (length input - S i)%nat); lia.
  - apply lookup_ge_None in E. assert (i = length input) as -> by lia.
    rewrite drop_all. cbn [collapse].
    apply replaced_end. exact Hm.
Qed.

Lemma replaceAll_runs :
  replaceAll input runs replacement = collapse ok replacement false input.
Proof.
  unfold replaceAll. rewrite (replaced_runs (length input)); [reflexivity|lia..].
Qed.

End RunReplace.

(** *** Hyphens at the ends *)

Lemma noDoubleHyphen_lookup s :
  noDoubleHyphen s = true ->
  forall i, s !! i = Some 45 -> s !! S i = Some 45 -> False.
Proof.
  induction s as [|a s IH]; intros H i Ha Hb; [discriminate|].
  cbn [noDoubleHyphen] in H. apply andb_true_iff in H as [H1 H2].
  destruct i as [|i].
  - cbn in Ha, Hb. injection Ha as ->. destruct s as [|b s]; [discriminate|].
    cbn in Hb. injection Hb as ->. discriminate.
  - exact (IH H2 i Ha Hb).
Qed.

Section EdgeReplace.
Variable input : jsstring.
Hypothesis noDouble : noDoubleHyphen input = true.

Local Abbreviation edge := (Group 1 (Alt (Seq Bol (Chr 45)) (Seq (Chr 45) Eol))).
Local Abbreviation isEdge := (isEdgeHyphen input).

Lemma stepChar_hyphen (s : jsstring) i caps :
  stepChar s (fun ch => 45 =? ch) (MState i caps)
  = match s !! i with
    | Some ch => if ch =? 45 then [MState (S i) caps] else []
    | None => []
    end.
Proof.
  rewrite stepChar_at. destruct (s !! i) as [ch|]; [|reflexivity].
  now rewrite (N.eqb_sym 45 ch).
Qed.

Lemma rmatch_edge i caps :
  Forall (fun st => endIndex st = S i) (rmatch false input edge (MState i caps))
  /\ (rmatch false input edge (MState i caps) = [] <-> isEdge i = false).
Proof.
  cbn [rmatch endIndex captures flat_map]. unfold canonicalize, isEdgeHyphen.
  rewrite stepChar_hyphen.
  destruct (input !! i) as [ch|] eqn:E.
  - destruct (ch =? 45) eqn:Hch; cbn [andb orb];
      destruct (Nat.eqb i 0); cbn [flat_map app orb];
      rewrite ?stepChar_hyphen, ?E, ?Hch;
      cbn [rmatch endIndex flat_map app];
      destruct (Nat.eqb (S i) (length input));
      cbn [map app flat_map endIndex captures];
      (split; [repeat constructor
              | split; intros H; first [reflexivity | discriminate H]]).
  - destruct (Nat.eqb i 0); cbn [flat_map app map];
      rewrite ?stepChar_hyphen, ?E; cbn [map app flat_map orb];
      (split; [repeat constructor
              | split; intros H; first [reflexivity | discriminate H]]).
Qed.

Lemma isEdge_next i : isEdge i = true -> isEdge (S i) = false.
Proof using noDouble.
  unfold isEdgeHyphen. intros H.
  destruct (input !! i) as [c|] eqn:E; [|discriminate].
  apply andb_true_iff in H as [Hc _]. apply N.eqb_eq in Hc as ->.
  destruct (input !! S i) as [c'|] eqn:E'; [|reflexivity].
  destruct (N.eqb_spec c' 45) as [->|_]; [|reflexivity].
  destruct (noDoubleHyphen_lookup _ noDouble _ E E').
Qed.

Lemma rmatch_edges i :
  match head (rmatch false input edgeHyphens (MState i [])) with
  | Some st => isEdge i = true /\ endIndex st = S i
  | None => isEdge i = false
  end.
Proof using noDouble.
  unfold edgeHyphens, Plus.
  change (rmatch false input (Seq edge (Star true edge)) (MState i []))
    with (flat_map (rmatch false input (Star true edge))
            (rmatch false input edge (MState i []))).
  destruct (rmatch_edge i []) as [Hall Hnil].
  destruct (rmatch false input edge (MState i [])) as [|[e caps] l].
  - cbn. now apply Hnil.
  - apply Forall_cons in Hall as [He _]. cbn [endIndex] in He. subst e.
    assert (Hi : isEdge i = true).
    { destruct (isEdge i); [reflexivity|]. discriminate (proj2 Hnil eq_refl). }
    cbn [flat_map].
    change (rmatch false input (Star true edge) (MState (S i) caps))
      with (starLoop (rmatch false input edge) true
              (S (length input - S i)) (MState (S i) caps)).
    cbn [starLoop].
    destruct (rmatch_edge (S i) caps) as [_ Hnil'].
    rewrite (proj2 Hnil' (isEdge_next _ Hi)).
    cbn. auto.
Qed.

Lemma replaced_edges n :
  forall i fuel,
    (length input - i <= n)%nat -> (i <= length input)%nat ->
    (S (length input) < fuel + i)%nat ->
    assemble input [] (replaceResults input edgeHyphens fuel i) i
    = removeAt isEdge i (drop i input).
Proof using noDouble.
  induction n as [n IH] using lt_wf_ind. intros i fuel Hn Hi Hf.
  pose proof (rmatch_edges i) as Hm.
  destruct (input !! i) as [ch|] eqn:E.
  - pose proof (lookup_lt_Some _ _ _ E) as Hlt.
    rewrite (drop_S _ _ _ E). cbn [removeAt].
    destruct (head (rmatch false input edgeHyphens (MState i []))) as [st|] eqn:Hh.
    + destruct Hm as [-> He].
      destruct fuel as [|f]; [lia|].
      rewrite (replaced_match _ _ _ _ _ _ Hh) by lia.
      rewrite He. cbn [app].
      apply (IH (length input - S i)%nat); lia.
    + rewrite Hm. rewrite (replaced_skip _ _ _ _ _ _ E Hh). f_equal.
      apply (IH (length input - S i)%nat); lia.
  - pose proof E as E'. apply lookup_ge_None in E'.
    assert (i = length input) as -> by lia.
    rewrite drop_all. cbn [removeAt].
    apply replaced_end.
    destruct (head (rmatch false input edgeHyphens (MState (length input) [])));
      [|reflexivity].
    destruct Hm as [Hm _]. unfold isEdgeHyphen in Hm. rewrite E in Hm. discriminate.
Qed.

Lemma removeAt_tail s :
  forall i, (0 < i)%nat -> drop i input = s -> removeAt isEdge i s = stripLast s.
Proof.
  induction s as [|c s IH]; intros i Hi Hd; [reflexivity|].
  assert (Hc : input !! i = Some c).
  { pose proof (lookup_drop input i 0) as H. rewrite Hd in H. cbn in H.
    rewrite Nat.add_0_r in H. now symmetry. }
  assert (Hs : drop (S i) input = s).
  { rewrite (drop_S _ _ _ Hc) in Hd. now injection Hd. }
  assert (Hlen : length input = (S i + length s)%nat).
  { rewrite <- Hs, length_drop. apply lookup_lt_Some in Hc. lia. }
  cbn [removeAt stripLast]. unfold isEdgeHyphen at 1. rewrite Hc.
  destruct (Nat.eqb_spec i 0) as [|_]; [lia|]. cbn [orb].
  destruct s as [|c' s'].
  - cbn [length] in Hlen. rewrite (proj2 (Nat.eqb_eq _ _)) by lia.
    rewrite andb_true_r. now destruct (c =? 45).
  - cbn [length] in Hlen. rewrite (proj2 (Nat.eqb_neq _ _)) by lia.
    rewrite andb_false_r. f_equal. apply IH; [lia | exact Hs].
Qed.

Lemma removeAt_edges : removeAt isEdge 0 input = stripLast (stripFirst input).
Proof.
  destruct (input !! 0%nat) as [c|] eqn:E.
  - pose proof (drop_S _ _ _ E) as Es. rewrite drop_0 in Es.
    assert (H0 : isEdge 0 = (c =? 45)).
    { unfold isEdgeHyphen. rewrite E. cbn [Nat.eqb orb]. apply andb_true_r. }
    assert (H1 : removeAt isEdge 1 (drop 1 input) = stripLast (drop 1 input))
      by (apply removeAt_tail; [lia | reflexivity]).
    transitivity (removeAt isEdge 0 (c :: drop 1 input));
      [f_equal; exact Es|].
    cbn [removeAt]. rewrite H0, H1. rewrite Es.
    unfold stripFirst. destruct (c =? 45) eqn:Hc; [reflexivity|].
    cbn [stripLast]. rewrite Hc. now destruct (drop 1 input).
  - apply lookup_ge_None in E.
    assert (Hn : input = []) by (apply length_zero_iff_nil; lia).
    rewrite Hn. reflexivity.
Qed.

Lemma replaceAll_edges :
  replaceAll input edgeHyphens [] = stripLast (stripFirst input).
Proof using noDouble.
  unfold replaceAll. rewrite (replaced_edges (length input)) by lia.
  rewrite drop_0. apply removeAt_edges.
Qed.

End EdgeReplace.

(** *** The shape of a slug *)

Local Abbreviation nonAlnum := (classMatches false true [(97, 122); (48, 57)]).

Lemma nonAlnum_class c : nonAlnum c = negb (isLowerAlnum c).
Proof.
  unfold classMatches, inRanges, isLowerAlnum.
  cbn [existsb fst snd andb xorb]. now rewrite !orb_false_r.
Qed.

Lemma isLowerAlnum_not_hyphen c : isLowerAlnum c = true -> (c =? 45) = false.
Proof.
  intros H. destruct (N.eqb_spec c 45) as [->|_]; [discriminate H | reflexivity].
Qed.

Lemma collapse_shape s :
  forall b,
    Forall (fun c => isSlugChar c = true) (collapse nonAlnum [45] b s)
    /\ noDoubleHyphen (collapse nonAlnum [45] b s) = true
    /\ (b = true -> head (collapse nonAlnum [45] b s) <> Some 45).
Proof.
  induction s as [|c s IH]; intros b.
  - cbn. repeat split; [constructor | discriminate].
  - cbn [collapse]. rewrite nonAlnum_class.
    destruct (isLowerAlnum c) eqn:Hc; cbn [negb].
    + destruct (IH false) as (HF & HN & _).
      pose proof (isLowerAlnum_not_hyphen _ Hc) as H45.
      repeat split.
      * constructor; [|exact HF]. unfold isSlugChar. now rewrite Hc.
      * cbn [noDoubleHyphen]. rewrite H45, HN. cbn [andb negb].
        now destruct (collapse nonAlnum [45] false s).
      * intros _ [= ->]. discriminate H45.
    + destruct (IH true) as (HF & HN & HH). specialize (HH eq_refl).
      destruct b; cbn [app]; [now repeat split|].
      repeat split.
      * constructor; [reflexivity | exact HF].
      * cbn [noDoubleHyphen]. rewrite HN, andb_true_r.
        destruct (collapse nonAlnum [45] true s) as [|b' l]; [reflexivity|].
        destruct (N.eqb_spec b' 45) as [->|_]; [now destruct HH | reflexivity].
      * discriminate.
Qed.

Lemma collapse_keeps s c :
  In c s -> isLowerAlnum c = true ->
  forall b, In c (collapse nonAlnum [45] b s).
Proof.
  induction s as [|a s IH]; intros Hin Hc b; [destruct Hin|].
  cbn [collapse]. rewrite nonAlnum_class.
  destruct Hin as [->|Hin].
  - rewrite Hc. now left.
  - destruct (isLowerAlnum a); cbn [negb].
    + right. now apply IH.
    + apply in_or_app. right. now apply IH.
Qed.

Lemma collapse_all s :
  Forall (fun c => isLowerAlnum c = false) s ->
  collapse nonAlnum [45] true s = []
  /\ stripFirst (collapse nonAlnum [45] false s) = [].
Proof.
  induction 1 as [|c s Hc _ [IH1 IH2]]; [now split|].
  cbn [collapse]. rewrite nonAlnum_class, Hc. cbn [negb app].
  rewrite IH1. now split.
Qed.

Lemma stripFirst_shape s :
  Forall (fun c => isSlugChar c = true) s -> noDoubleHyphen s = true ->
  Forall (fun c => isSlugChar c = true) (stripFirst s)
  /\ noDoubleHyphen (stripFirst s) = true
  /\ head (stripFirst s) <> Some 45.
Proof.
  intros HF HN. destruct s as [|c s]; [repeat split; [constructor | discriminate]|].
  unfold stripFirst. destruct (N.eqb_spec c 45) as [->|Hne].
  - apply Forall_cons in HF as [_ HF]. cbn [noDoubleHyphen] in HN.
    apply andb_true_iff in HN as [H1 H2]. repeat split; [assumption..|].
    destruct s as [|b s]; [discriminate|].
    intros [= ->]. discriminate H1.
  - repeat split; [assumption..|]. intros [= ->]. now apply Hne.
Qed.

Lemma stripLast_head s : head (stripLast s) = None \/ head (stripLast s) = head s.
Proof.
  destruct s as [|c [|c' s]]; cbn; [now left | | now right].
  destruct (c =? 45); [now left | now right].
Qed.

Lemma stripLast_nil s : stripLast s = [] -> s = [] \/ s = [45].
Proof.
  destruct s as [|c [|c' s]]; cbn; [now left | | discriminate].
  destruct (N.eqb_spec c 45) as [->|_]; [now right | discriminate].
Qed.

Lemma stripLast_shape s :
  Forall (fun c => isSlugChar c = true) s -> noDoubleHyphen s = true ->
  Forall (fun c => isSlugChar c = true) (stripLast s)
  /\ noDoubleHyphen (stripLast s) = true
  /\ last (stripLast s) <> Some 45.
Proof.
  induction s as [|c s IH]; intros HF HN.
  - repeat split; [constructor | discriminate].
  - apply Forall_cons in HF as [Hc HF].
    cbn [noDoubleHyphen] in HN. apply andb_true_iff in HN as [H1 H2].
    destruct (IH HF H2) as (IHF & IHN & IHL).
    destruct s as [|c' s'].
    + cbn [stripLast]. destruct (N.eqb_spec c 45) as [->|Hne].
      * repeat split; [constructor | discriminate].
      * repeat split; [now constructor|]. intros [= ->]. now apply Hne.
    + change (stripLast (c :: c' :: s')) with (c :: stripLast (c' :: s')).
      repeat split.
      * now constructor.
      * cbn [noDoubleHyphen]. rewrite IHN, andb_true_r.
        destruct (stripLast_head (c' :: s')) as [Hh|Hh];
          destruct (stripLast (c' :: s')) as [|b l]; try reflexivity;
          try discriminate Hh.
        cbn in Hh. injection Hh as ->. exact H1.
      * destruct (stripLast (c' :: s')) as [|b l] eqn:El.
        -- apply stripLast_nil in El as [El|El]; [discriminate|].
           injection El as -> ->. cbn. intros [= ->]. discriminate H1.
        -- exact IHL.
Qed.

Lemma stripLast_head_keeps s :
  head s <> Some 45 -> head (stripLast s) <> Some 45.
Proof.
  intros H. destruct (stripLast_head s) as [->| ->]; [discriminate | exact H].
Qed.

Lemma strip_keeps s c :
  In c s -> c <> 45 -> In c (stripFirst s) /\ In c (stripLast s).
Proof.
  intros Hin Hc. split.
  - destruct s as [|a s]; [destruct Hin|]. unfold stripFirst.
    destruct (N.eqb_spec a 45) as [->|_]; [|exact Hin].
    destruct Hin as [<-|Hin]; [now destruct Hc | exact Hin].
  - induction s as [|a s IH]; [destruct Hin|].
    destruct s as [|a' s'].
    + destruct Hin as [->|[]]. cbn [stripLast].
      destruct (N.eqb_spec c 45) as [->|_]; [now destruct Hc | now left].
    + change (stripLast (a :: a' :: s')) with (a :: stripLast (a' :: s')).
      destruct Hin as [->|Hin]; [now left | right; now apply IH].
Qed.

Section SlugifyFacts.
Variable toLowerCase : jsstring -> jsstring.

Lemma slugify_eq value :
  slugify toLowerCase value
  = stripLast (stripFirst (collapse nonAlnum [45] false (toLowerCase value))).
Proof.
  unfold slugify, nonAlnumRun. rewrite replaceAll_runs.
  change (js "-") with [45]. change (js "") with (@nil N).
  apply replaceAll_edges. apply collapse_shape.
Qed.

(** X29: a slug holds only the code units [a-z], [0-9] and the hyphen; it
    neither begins nor ends with a hyphen, and it has no two hyphens in
    a row.  This holds whatever [toLowerCase] returns. *)
Theorem slugify_shape value :
  Forall (fun c => isSlugChar c = true) (slugify toLowerCase value)
  /\ head (slugify toLowerCase value) <> Some 45
  /\ last (slugify toLowerCase value) <> Some 45
  /\ noDoubleHyphen (slugify toLowerCase value) = true.
Proof.
  rewrite slugify_eq.
  destruct (collapse_shape (toLowerCase value) false) as (HF & HN & _).
  destruct (stripFirst_shape _ HF HN) as (HF1 & HN1 & HH1).
  destruct (stripLast_shape _ HF1 HN1) as (HF2 & HN2 & HL2).
  repeat split; try assumption. now apply stripLast_head_keeps.
Qed.

(** X30: the slug is empty exactly when the lower-cased value has no code
    unit in [a-z] or [0-9]: an empty value, or a title written wholly in
    another script or in punctuation. *)
Theorem slugify_empty value :
  slugify toLowerCase value = []
  <-> Forall (fun c => isLowerAlnum c = false) (toLowerCase value).
Proof.
  rewrite slugify_eq. split.
  - intros H. apply Forall_forall. intros c Hin. apply list_elem_of_In in Hin.
    destruct (isLowerAlnum c) eqn:Hc; [|reflexivity].
    pose proof (collapse_keeps _ _ Hin Hc false) as Hk.
    assert (Hne : c <> 45).
    { intros ->. discriminate Hc. }
    apply (strip_keeps _ _ Hk) in Hne as [Hk1 _].
    assert (Hne : c <> 45) by (intros ->; discriminate Hc).
    apply (strip_keeps _ _ Hk1) in Hne as [_ Hk2].
    rewrite H in Hk2. destruct Hk2.
  - intros H. apply collapse_all in H as [_ ->]. reflexivity.
Qed.

End SlugifyFacts.
